(** * ts-stocks: the Stooq quote parser and the price-alert loop

    A shallow embedding of [src/stooq.ts] ([fetchQuote]) and of
    [src/alert.ts] ([runAlert]), with the properties of the design
    document stated and proved over it.

    - JavaScript strings are sequences of UTF-16 code units ([Js.str]).
    - JavaScript numbers are IEEE-754 binary64 values, taken from the
      standard library's [spec_float] ([Num.number]).
    - [throw] is the [Err] constructor of [result]; the optional value
      [string | undefined] is [option Js.str].
    - The network and the console are explicit: one poll cycle consumes
      the outcome of one [fetchQuote] call and emits a list of events. *)

(** The command line of [src/alert.ts], the relay of [server/server.ts]
    and the page script of [src/stooq.ts] are embedded the same way:
    the lines typed, the replies received and the clicks are inputs;
    the console, the exit code and the page elements are state. *)

From Stdlib Require Import String Ascii List NArith ZArith Bool Lia.
From Stdlib Require Import SpecFloat.
Import ListNotations.

(** ** Errors as values *)

Inductive result (E A : Type) : Type :=
| Ok (a : A)
| Err (e : E).

Arguments Ok {E A} a.
Arguments Err {E A} e.

Definition bind {E A B} (c : result E A) (k : A -> result E B) : result E B :=
  match c with
  | Ok a => k a
  | Err e => Err e
  end.

(** [throwIf cond e] is the statement [if (cond) { throw e }]. *)
Definition throwIf {E} (cond : bool) (e : E) : result E unit :=
  if cond then Err e else Ok tt.

Declare Scope js_scope.
Delimit Scope js_scope with js.
Notation "c ;; k" := (bind c (fun _ => k))
  (at level 61, right associativity) : js_scope.
Notation "x <- c ;; k" := (bind c (fun x => k))
  (at level 61, c at next level, right associativity) : js_scope.

(** ** JavaScript strings and arrays *)

Module Js.

Definition char := N.
Definition str := list char.

(** A string literal of the source (ASCII only). *)
Definition lit (s : string) : str :=
  map N_of_ascii (list_ascii_of_string s).

Definition LF : char := 10%N.
Definition COMMA : char := 44%N.

(** WhiteSpace and LineTerminator code points of ECMAScript, the ones
    [String.prototype.trim] strips. *)
Definition isWhiteSpace (c : char) : bool :=
  existsb (N.eqb c)
    [9; 10; 11; 12; 13; 32; 160; 5760; 8232; 8233; 8239; 8287; 12288; 65279]%N
  || ((8192 <=? c) && (c <=? 8202))%N.

Fixpoint trimStart (s : str) : str :=
  match s with
  | [] => []
  | c :: r => if isWhiteSpace c then trimStart r else s
  end.

Fixpoint trimEnd (s : str) : str :=
  match s with
  | [] => []
  | c :: r =>
      match trimEnd r with
      | [] => if isWhiteSpace c then [] else [c]
      | r' => c :: r'
      end
  end.

(** [s.trim()] *)
Definition trim (s : str) : str := trimStart (trimEnd s).

(** [!s] for a string: only the empty string is falsy. *)
Definition isEmpty (s : str) : bool :=
  match s with
  | [] => true
  | _ => false
  end.

(** [!v] for [v : string | undefined]. *)
Definition falsy (v : option str) : bool :=
  match v with
  | None => true
  | Some s => isEmpty s
  end.

(** [a === b] on strings. *)
Fixpoint streq (a b : str) : bool :=
  match a, b with
  | [], [] => true
  | x :: a', y :: b' => (x =? y)%N && streq a' b'
  | _, _ => false
  end.

(** [v === s] for [v : string | undefined]. *)
Definition equals (v : option str) (s : str) : bool :=
  match v with
  | None => false
  | Some x => streq x s
  end.

(** [v.length === 0], reached only where [v] is a string. *)
Definition lengthIsZero (v : option str) : bool :=
  match v with
  | None => false
  | Some x => (length x =? 0)%nat
  end.

(** [s.split(sep)] for a one-character separator: never empty, and
    [[""]] on the empty string. *)
Fixpoint split (sep : char) (s : str) : list str :=
  match s with
  | [] => [[]]
  | c :: r =>
      if (c =? sep)%N then [] :: split sep r
      else match split sep r with
           | [] => [[c]]
           | h :: t => (c :: h) :: t
           end
  end.

(** [xs.join(sep)] *)
Fixpoint join (sep : char) (xs : list str) : str :=
  match xs with
  | [] => []
  | [x] => x
  | x :: r => x ++ sep :: join sep r
  end.

(** [xs.indexOf(x)]: position of the first element strictly equal to
    [x], or [-1]. *)
Fixpoint indexOfFrom (x : str) (xs : list str) (i : Z) : Z :=
  match xs with
  | [] => (-1)%Z
  | y :: r => if streq y x then i else indexOfFrom x r (i + 1)%Z
  end.

Definition indexOf (xs : list str) (x : str) : Z := indexOfFrom x xs 0.

(** [xs[i]]: [undefined] outside the array. *)
Definition at_ {A} (xs : list A) (i : Z) : option A :=
  if (i <? 0)%Z then None else nth_error xs (Z.to_nat i).

(** [v?.trim()] *)
Definition optTrim (v : option str) : option str := option_map trim v.

(** A [string | undefined] used as a string after the checks that
    exclude [undefined]. *)
Definition narrow (v : option str) : str :=
  match v with
  | Some s => s
  | None => []
  end.

End Js.

(** ** JavaScript numbers *)

Module Num.

Definition number := spec_float.

Definition prec : Z := 53.
Definition emax : Z := 1024.

Definition NaN : number := S754_nan.
Definition zero : number := S754_zero false.

(** The Number value of an integer. *)
Definition ofZ (z : Z) : number := binary_normalize prec emax z 0 false.

Definition isNaN (x : number) : bool :=
  match x with
  | S754_nan => true
  | _ => false
  end.

(** [a < b] of ECMAScript's IsLessThan: [None] is [undefined], the
    answer when an operand is NaN. *)
Definition isLessThan (a b : number) : option bool :=
  match SFcompare a b with
  | None => None
  | Some Lt => Some true
  | Some _ => Some false
  end.

(** [a <= b]: [b < a] is neither true nor undefined. *)
Definition le (a b : number) : bool :=
  match isLessThan b a with
  | Some false => true
  | _ => false
  end.

(** [a >= b]: [a < b] is neither true nor undefined. *)
Definition ge (a b : number) : bool :=
  match isLessThan a b with
  | Some false => true
  | _ => false
  end.

(** [a > b]: [b < a] is true. *)
Definition gt (a b : number) : bool :=
  match isLessThan b a with
  | Some true => true
  | _ => false
  end.

(** The order of IEEE 754 on numbers, as [SFcompare] decides it: no
    relation holds when an operand is NaN, and the two zeros are equal. *)
Definition Ge (a b : number) : Prop :=
  SFcompare a b = Some Gt \/ SFcompare a b = Some Eq.

Definition Le (a b : number) : Prop :=
  SFcompare a b = Some Lt \/ SFcompare a b = Some Eq.

Definition Equal (a b : number) : Prop := SFcompare a b = Some Eq.

(** Zero or finite and non-zero, as opposed to NaN and the infinities. *)
Definition finite (x : number) : bool :=
  match x with
  | S754_zero _ | S754_finite _ _ _ => true
  | _ => false
  end.

(** The representations that are binary64 values. *)
Definition valid (x : number) : Prop := valid_binary prec emax x = true.

(** The exact value of a finite number, counted in units of [2^-1074],
    the smallest positive binary64 value. *)
Definition units (x : number) : Z :=
  match x with
  | S754_finite s m e =>
      if s then (- (Zpos m * 2 ^ (e + 1074)))%Z else (Zpos m * 2 ^ (e + 1074))%Z
  | _ => 0%Z
  end.

(** *** [parseFloat] *)

Definition isDigit (c : Js.char) : bool := ((48 <=? c) && (c <=? 57))%N.

(** The longest run of decimal digits at the front, read as a number,
    with how many digits it has and what follows. *)
Fixpoint digitsFrom (acc : N) (n : nat) (s : Js.str) : N * nat * Js.str :=
  match s with
  | c :: r =>
      if isDigit c then digitsFrom (10 * acc + (c - 48))%N (S n) r
      else (acc, n, s)
  | [] => (acc, n, s)
  end.

Fixpoint startsWith (p s : Js.str) : bool :=
  match p, s with
  | [], _ => true
  | x :: p', y :: s' => (x =? y)%N && startsWith p' s'
  | _ :: _, [] => false
  end.

(** [+] or [-] in front. *)
Definition readSign (s : Js.str) : bool * Js.str :=
  match s with
  | 43%N :: r => (false, r)
  | 45%N :: r => (true, r)
  | _ => (false, s)
  end.

(** ExponentPart: [e] or [E], an optional sign and at least one digit;
    anything else is not part of the literal and counts as exponent 0. *)
Definition readExponent (s : Js.str) : Z :=
  match s with
  | c :: r =>
      if ((c =? 101) || (c =? 69))%N then
        let '(neg, r') := readSign r in
        let '(e, n, _) := digitsFrom 0 0 r' in
        match n with
        | O => 0%Z
        | S _ => if neg then (- Z.of_N e)%Z else Z.of_N e
        end
      else 0%Z
  | [] => 0%Z
  end.

(** The Number value of [(-1)^neg * m * 10^e10], rounded to nearest,
    ties to even. *)
Definition roundDecimal (neg : bool) (m : N) (e10 : Z) : number :=
  match m with
  | N0 => S754_zero neg
  | Npos p =>
      match e10 with
      | Z0 => binary_round prec emax neg p 0
      | Zpos k => binary_round prec emax neg (p * Pos.pow 10 k) 0
      | Zneg k =>
          SFdiv prec emax (S754_finite neg p 0)
                (S754_finite false (Pos.pow 10 k) 0)
      end
  end.

(** [parseFloat(s)]: leading white space is skipped and the longest
    prefix that is a StrDecimalLiteral is converted; NaN when there is
    no such prefix. *)
Definition parseFloat (s : Js.str) : number :=
  let '(neg, r) := readSign (Js.trimStart s) in
  if startsWith (Js.lit "Infinity") r then S754_infinity neg
  else
    let '(ip, ni, r1) := digitsFrom 0 0 r in
    let '(m, nf, r2) :=
      match r1 with
      | 46%N :: r1' => digitsFrom ip 0 r1'
      | _ => (ip, O, r1)
      end in
    match ni, nf with
    | O, O => NaN
    | _, _ => roundDecimal neg m (readExponent r2 - Z.of_nat nf)
    end.

(** The digits [ds] read after [acc]. *)
Definition readDigits (acc : N) (ds : Js.str) : N :=
  fold_left (fun a c => (10 * a + (c - 48))%N) ds acc.

(** What follows cannot continue a run of digits. *)
Definition noDigitAhead (s : Js.str) : bool :=
  match s with
  | [] => true
  | c :: _ => negb (isDigit c)
  end.

(** What follows cannot continue a literal that has a fraction part:
    it does not start with a digit or an exponent indicator. *)
Definition endsLiteral (s : Js.str) : bool :=
  match s with
  | [] => true
  | c :: _ => negb (isDigit c) && negb ((c =? 101) || (c =? 69))%N
  end.

End Num.

(** ** [src/stooq.ts]: [fetchQuote] *)

Module Stooq.
Import Js.
Local Open Scope js_scope.

(** The object [fetchQuote] resolves to. *)
Record Quote := mkQuote {
  symbol : str;
  date : str;
  time : str;
  close : Num.number
}.

(** The seven [throw] sites between the response text and the returned
    object, in source order, under the names of the design document.
    - [EmptyResponse]: "Empty response received for symbol ..."
    - [MalformedStructure]: "Invalid response format ... Expected at least 2 lines"
    - [MissingColumn]: "Invalid CSV header format ..."
    - [InvalidSymbol]: "Invalid symbol: ..."
    - [MissingTimestamp]: "Missing date or time data ..."
    - [MissingPrice]: "No close price available ..."
    - [InvalidPrice]: "Invalid close price ..." *)
Inductive ParseError :=
| EmptyResponse
| MalformedStructure
| MissingColumn
| InvalidSymbol
| MissingTimestamp
| MissingPrice
| InvalidPrice.

Definition NA : str := lit "N/A".

(** Lines 53-110 of [fetchQuote]: from [lines[0]] and [lines[1]] to
    the returned quote. *)
Definition parseHeaderAndRow (headerLine dataLine : str)
  : result ParseError Quote :=
  let header := split COMMA headerLine in
  let symbolIndex := indexOf header (lit "Symbol") in
  let dateIndex := indexOf header (lit "Date") in
  let timeIndex := indexOf header (lit "Time") in
  let closeIndex := indexOf header (lit "Close") in
  throwIf ((symbolIndex =? -1)%Z || (dateIndex =? -1)%Z
           || (timeIndex =? -1)%Z || (closeIndex =? -1)%Z) MissingColumn ;;
  let dataRow := split COMMA dataLine in
  let symbolValue := optTrim (at_ dataRow symbolIndex) in
  let dateValue := optTrim (at_ dataRow dateIndex) in
  let timeValue := optTrim (at_ dataRow timeIndex) in
  let closeValue := optTrim (at_ dataRow closeIndex) in
  throwIf (falsy symbolValue || equals symbolValue NA
           || lengthIsZero symbolValue) InvalidSymbol ;;
  throwIf (falsy dateValue || falsy timeValue) MissingTimestamp ;;
  throwIf (falsy closeValue || equals closeValue NA
           || lengthIsZero closeValue) MissingPrice ;;
  let closeNumber := Num.parseFloat (narrow closeValue) in
  throwIf (Num.isNaN closeNumber) InvalidPrice ;;
  Ok (mkQuote (narrow symbolValue) (narrow dateValue) (narrow timeValue)
              closeNumber).

(** Lines 38-110 of [fetchQuote]: from [csvText] to the returned quote.
    [nth] never uses its default here, the array has two elements. *)
Definition parseQuote (csvText : str) : result ParseError Quote :=
  throwIf (isEmpty csvText || (length (trim csvText) =? 0)%nat) EmptyResponse ;;
  let lines := split LF (trim csvText) in
  throwIf (length lines <? 2)%nat MalformedStructure ;;
  parseHeaderAndRow (nth 0 lines []) (nth 1 lines []).

(** What the transport hands back: [None] when [fetch] or
    [response.text()] rejects. *)
Record Response := mkResponse {
  ok : bool;
  status : N;
  text : str
}.

Inductive FetchError :=
| EmptySymbol
| NetworkError
| HttpError (status : N)
| ParseFailure (e : ParseError).

(** [fetchQuote(symbol)], given what the network answers to its request. *)
Definition fetchQuote (symbol : str) (net : option Response)
  : result FetchError Quote :=
  throwIf (isEmpty symbol || (length (trim symbol) =? 0)%nat) EmptySymbol ;;
  match net with
  | None => Err NetworkError
  | Some response =>
      throwIf (negb (ok response)) (HttpError (status response)) ;;
      match parseQuote (text response) with
      | Ok q => Ok q
      | Err e => Err (ParseFailure e)
      end
  end.

End Stooq.

(** ** [src/alert.ts]: [runAlert] *)

Module Alert.
Import Js.
Local Open Scope js_scope.

Inductive Direction := above | below.

Record AlertConfig := mkConfig {
  symbol : str;
  target : Num.number;
  direction : Direction;
  intervalMs : Num.number
}.

(** The two [throw] sites of the validation. *)
Inductive ConfigError :=
| IntervalNotPositive   (* "intervalMs must be greater than 0" *)
| TargetNotPositive.    (* "target price must be greater than 0" *)

(** What one run does to the outside world, in order.  Console lines
    are kept by what they report, not by their text. *)
Inductive Event :=
| LogStart (config : AlertConfig)
| FetchQuote (symbol : str)
| LogPrice (quote : Stooq.Quote)
| LogAlert (quote : Stooq.Quote) (target : Num.number)
| LogTriggeredAt (quote : Stooq.Quote)
| LogError (e : Stooq.FetchError)
| LogRetry (intervalMs : Num.number)
| Sleep (ms : Num.number).

Inductive LoopState := POLLING | TRIGGERED.

(** Lines 76-84: the threshold test. *)
Definition thresholdCrossed (direction : Direction)
           (currentPrice target : Num.number) : bool :=
  match direction with
  | above => Num.ge currentPrice target
  | below => Num.le currentPrice target
  end.

(** One iteration of [while (true)], given how [await fetchQuote(symbol)]
    settles: the events it emits, and whether it reaches [break]. *)
Definition pollCycle (config : AlertConfig)
           (outcome : result Stooq.FetchError Stooq.Quote)
  : list Event * LoopState :=
  match outcome with
  | Ok quote =>
      let currentPrice := Stooq.close quote in
      if thresholdCrossed (direction config) currentPrice (target config)
      then ([FetchQuote (symbol config); LogPrice quote;
             LogAlert quote (target config); LogTriggeredAt quote],
            TRIGGERED)
      else ([FetchQuote (symbol config); LogPrice quote;
             Sleep (intervalMs config)],
            POLLING)
  | Err e =>
      ([FetchQuote (symbol config); LogError e;
        LogRetry (intervalMs config); Sleep (intervalMs config)],
       POLLING)
  end.

(** The loop, run against the outcomes of the successive [fetchQuote]
    calls.  When the outcomes are used up the loop is still [POLLING],
    suspended on the next fetch. *)
Fixpoint pollLoop (config : AlertConfig)
         (outcomes : list (result Stooq.FetchError Stooq.Quote))
  : list Event * LoopState :=
  match outcomes with
  | [] => ([], POLLING)
  | outcome :: rest =>
      match pollCycle config outcome with
      | (events, TRIGGERED) => (events, TRIGGERED)
      | (events, POLLING) =>
          let '(events', final) := pollLoop config rest in
          (events ++ events', final)
      end
  end.

(** Lines 48-55: the validation. *)
Definition validate (config : AlertConfig) : result ConfigError unit :=
  throwIf (Num.le (intervalMs config) Num.zero) IntervalNotPositive ;;
  throwIf (Num.le (target config) Num.zero) TargetNotPositive ;;
  Ok tt.

(** [runAlert(config)]: everything emitted, and how the call stands at
    the end: rejected, still polling, or returned after the alert. *)
Definition runAlert (config : AlertConfig)
           (outcomes : list (result Stooq.FetchError Stooq.Quote))
  : list Event * result ConfigError LoopState :=
  match validate config with
  | Err e => ([], Err e)
  | Ok _ =>
      let '(events, final) := pollLoop config outcomes in
      (LogStart config :: events, Ok final)
  end.

(** [runAlert] over the network: each call of [fetchQuote] gets the
    next answer of the transport. *)
Definition runAlertOverNetwork (config : AlertConfig)
           (answers : list (option Stooq.Response))
  : list Event * result ConfigError LoopState :=
  runAlert config (map (Stooq.fetchQuote (symbol config)) answers).

Definition isFetch (e : Event) : bool :=
  match e with
  | FetchQuote _ => true
  | _ => false
  end.

(** How many times [fetchQuote] was called. *)
Definition fetchCount (events : list Event) : nat :=
  length (filter isFetch events).

(** The outcome is a quote whose close crosses the threshold. *)
Definition crosses (config : AlertConfig)
           (outcome : result Stooq.FetchError Stooq.Quote) : bool :=
  match outcome with
  | Ok quote =>
      thresholdCrossed (direction config) (Stooq.close quote) (target config)
  | Err _ => false
  end.

(** None of the outcomes crosses the threshold. *)
Definition quiet (config : AlertConfig)
           (outcomes : list (result Stooq.FetchError Stooq.Quote)) : bool :=
  forallb (fun outcome => negb (crosses config outcome)) outcomes.

(** A quote with the given close, for scenarios about prices only. *)
Definition observed (config : AlertConfig) (closePrice : Z)
  : result Stooq.FetchError Stooq.Quote :=
  Ok (Stooq.mkQuote (symbol config) (lit "2024-01-02") (lit "16:00:00")
                    (Num.ofZ closePrice)).

End Alert.

(** ** The parser contract, in the words of the design document

    Each failure reason has a condition of its own, the reasons are
    tried in the stated priority order, and a text to which none applies
    yields the quote read from the data row. *)

Module Contract.
Import Js Stooq.

Definition required : list str :=
  [lit "Symbol"; lit "Date"; lit "Time"; lit "Close"].

(** The lines of the text after trimming. *)
Definition lines (csv : str) : list str := split LF (trim csv).

(** The header line split on the delimiter. *)
Definition headerCells (csv : str) : list str :=
  split COMMA (nth 0 (lines csv) []).

(** The second line split on the delimiter. *)
Definition dataCells (csv : str) : list str :=
  split COMMA (nth 1 (lines csv) []).

Definition hasColumn (csv name : str) : bool :=
  existsb (streq name) (headerCells csv).

(** The data row's value under a column, with the white space around
    it removed; empty when the row has no such cell. *)
Definition field (csv name : str) : str :=
  narrow (optTrim (at_ (dataCells csv) (indexOf (headerCells csv) name))).

Definition applies (reason : ParseError) (csv : str) : bool :=
  match reason with
  | EmptyResponse => isEmpty (trim csv)
  | MalformedStructure => (length (lines csv) <? 2)%nat
  | MissingColumn => negb (forallb (hasColumn csv) required)
  | InvalidSymbol =>
      isEmpty (field csv (lit "Symbol")) || streq (field csv (lit "Symbol")) NA
  | MissingTimestamp =>
      isEmpty (field csv (lit "Date")) || isEmpty (field csv (lit "Time"))
  | MissingPrice =>
      isEmpty (field csv (lit "Close")) || streq (field csv (lit "Close")) NA
  | InvalidPrice => Num.isNaN (Num.parseFloat (field csv (lit "Close")))
  end.

Definition priority : list ParseError :=
  [EmptyResponse; MalformedStructure; MissingColumn; InvalidSymbol;
   MissingTimestamp; MissingPrice; InvalidPrice].

Definition firstFailure (csv : str) : option ParseError :=
  find (fun reason => applies reason csv) priority.

Definition quoteOf (csv : str) : Quote :=
  mkQuote (field csv (lit "Symbol")) (field csv (lit "Date"))
          (field csv (lit "Time"))
          (Num.parseFloat (field csv (lit "Close"))).

(** The parser as the contract states it: the first reason that applies,
    or the quote. *)
Definition parse (csv : str) : result ParseError Quote :=
  match firstFailure csv with
  | Some reason => Err reason
  | None => Ok (quoteOf csv)
  end.

(** A value that is present and is not the sentinel. *)
Definition usable (v : str) : bool := negb (isEmpty v) && negb (streq v NA).

(** A two-line input with a complete header whose four values are
    non-empty and non-sentinel. *)
Definition validTwoLineInput (csv : str) : bool :=
  negb (isEmpty (trim csv))
  && (length (lines csv) =? 2)%nat
  && forallb (hasColumn csv) required
  && forallb (fun name => usable (field csv name)) required.

(** The first two lines of the text, as a text. *)
Definition firstTwoLines (csv : str) : str :=
  join LF (firstn 2 (lines csv)).

(** The cells of the first line of the text as it was received. *)
Definition receivedHeaderCells (csv : str) : list str :=
  split COMMA (nth 0 (split LF csv) []).

End Contract.

(** ** Scenario inputs *)

Module Scenario.
Import Js.

Definition twoLines (headerLine dataLine : string) : str :=
  lit headerLine ++ LF :: lit dataLine.

Definition apple : str :=
  twoLines "Symbol,Date,Time,Close" "AAPL.US,2024-01-02,16:00:00,185.64".

Definition unavailable : str :=
  twoLines "Symbol,Date,Time,Close" "N/A,N/A,N/A,N/A".

Definition noCloseColumn : str :=
  twoLines "Symbol,Date,Time,Open" "AAPL.US,2024-01-02,16:00:00,185.64".

Definition shortRow : str :=
  twoLines "Symbol,Date,Time,Open,High,Low,Close" "AAPL.US,2024-01-02,16:00:00".

Definition negativeClose : str :=
  twoLines "Symbol,Date,Time,Close" "AAPL.US,2024-01-02,16:00:00,-1.5".

Definition wordClose : str :=
  twoLines "Symbol,Date,Time,Close" "AAPL.US,2024-01-02,16:00:00,abc".

Definition trailingGarbage : str :=
  twoLines "Symbol,Date,Time,Close" "AAPL.US,2024-01-02,16:00:00,185.64USD".

Definition paddedRow : str :=
  twoLines "Symbol,Date,Time,Close" " AAPL.US , 2024-01-02 , 16:00:00 , 185.64 ".

Definition paddedCloseHeader : str :=
  twoLines "Symbol,Date,Time, Close" "AAPL.US,2024-01-02,16:00:00,185.64".

Definition leadingSpace : str :=
  twoLines " Symbol,Date,Time,Close" "AAPL.US,2024-01-02,16:00:00,185.64".

Definition blankSecondLine : str :=
  lit "Symbol,Date,Time,Close" ++ LF :: LF
      :: lit "AAPL.US,2024-01-02,16:00:00,185.64".

Definition oneSpace : str := lit " ".

Definition dollarClose : str :=
  twoLines "Symbol,Date,Time,Close" "AAPL.US,2024-01-02,16:00:00,$185.64".

(** The header Stooq sends (line 54 of [stooq.ts]) and a data row for it. *)
Definition stooqHeader : str :=
  lit "Symbol,Date,Time,Open,High,Low,Close,Volume,Name".

Definition stooqRow : str :=
  lit "AAPL.US,2024-01-02,16:00:00,187.15,188.44,183.885,185.64,82488674,APPLE".

(** Stooq's own column set in another order, with Close given twice. *)
Definition shuffled : str :=
  twoLines "Name,Close,Volume,Time,Symbol,Date,Close"
           "APPLE,185.64,82488674,16:00:00,AAPL.US,2024-01-02,999".

(** The binary64 value nearest to 185.64, [0x1.7347ae147ae14p+7]. *)
Definition n185_64 : Num.number := S754_finite false 6531626834570772 (-45).

(** -1.5 *)
Definition minus1_5 : Num.number := S754_finite true 6755399441055744 (-52).

Definition appleQuote : Stooq.Quote :=
  Stooq.mkQuote (lit "AAPL.US") (lit "2024-01-02") (lit "16:00:00") n185_64.

(** A watch on aapl.us for a price of 150 or more, polled every 10 s. *)
Definition watch : Alert.AlertConfig :=
  Alert.mkConfig (lit "aapl.us") (Num.ofZ 150) Alert.above (Num.ofZ 10000).

(** Five answers of the transport: a rejected request, a 503, a blank
    body, the body of an unknown symbol, and a quote at 185.64; a sixth
    that is never asked for. *)
Definition answers : list (option Stooq.Response) :=
  [None;
   Some (Stooq.mkResponse false 503 []);
   Some (Stooq.mkResponse true 200 oneSpace);
   Some (Stooq.mkResponse true 200 unavailable);
   Some (Stooq.mkResponse true 200 apple);
   None].

End Scenario.

(** ** Readings of the parser used to state what it guarantees *)

Module Csv.
Import Js.

Definition CR : char := 13%N.

(** Every code unit of the text is white space. *)
Definition blank (s : str) : bool := forallb isWhiteSpace s.

(** The row cell paired with the first header cell equal to [name],
    trimmed: header and row read as an association list. *)
Definition lookupColumn (header row : list str) (name : str) : option str :=
  option_map (fun pair => trim (snd pair))
             (find (fun pair => streq (fst pair) name) (combine header row)).

(** A header line and a data line sent with CR LF line ends, as HTTP
    servers send text. *)
Definition crlfBody (headerLine dataLine : str) : str :=
  headerLine ++ CR :: LF :: dataLine ++ [CR; LF].

(** The same two lines with LF line ends. *)
Definition lfBody (headerLine dataLine : str) : str :=
  headerLine ++ LF :: dataLine.

(** The text starts a numeric literal: after white space and an
    optional sign comes "Infinity", a digit, or a point and a digit. *)
Definition hasNumericPrefix (s : str) : bool :=
  let '(_, r) := Num.readSign (trimStart s) in
  Num.startsWith (lit "Infinity") r
  || match r with
     | c :: r' =>
         Num.isDigit c
         || ((c =? 46)%N
             && match r' with
                | c' :: _ => Num.isDigit c'
                | [] => false
                end)
     | [] => false
     end.

End Csv.

(** ** The request [fetchQuote] sends *)

Module Uri.
Import Js.

Definition isAlnum (c : char) : bool :=
  ((48 <=? c) && (c <=? 57) || (65 <=? c) && (c <=? 90)
   || (97 <=? c) && (c <=? 122))%N.

(** The code units [encodeURIComponent] leaves as they are: letters,
    digits and [- _ . ! ~ * ' ( )]. *)
Definition unescaped (c : char) : bool :=
  isAlnum c || existsb (N.eqb c) [45; 95; 46; 33; 126; 42; 39; 40; 41]%N.

Definition hexDigit (n : N) : char :=
  if (n <? 10)%N then (48 + n)%N else (55 + n)%N.

(** [%XX] for one octet, in upper-case hexadecimal. *)
Definition percent (octet : N) : str :=
  [37%N; hexDigit (octet / 16); hexDigit (octet mod 16)].

(** The UTF-8 octets of a code point. *)
Definition utf8 (cp : N) : list N :=
  if (cp <? 128)%N then [cp]
  else if (cp <? 2048)%N then [192 + cp / 64; 128 + cp mod 64]%N
  else if (cp <? 65536)%N then
    [224 + cp / 4096; 128 + (cp / 64) mod 64; 128 + cp mod 64]%N
  else
    [240 + cp / 262144; 128 + (cp / 4096) mod 64;
     128 + (cp / 64) mod 64; 128 + cp mod 64]%N.

Definition isLeadSurrogate (c : char) : bool :=
  ((55296 <=? c) && (c <=? 56319))%N.

Definition isTrailSurrogate (c : char) : bool :=
  ((56320 <=? c) && (c <=? 57343))%N.

(** [encodeURIComponent(s)]; [None] is the URIError thrown on a
    surrogate that has no partner. *)
Fixpoint encodeURIComponent (s : str) : option str :=
  match s with
  | [] => Some []
  | c :: r =>
      if unescaped c then option_map (cons c) (encodeURIComponent r)
      else if isLeadSurrogate c then
        match r with
        | c2 :: r2 =>
            if isTrailSurrogate c2 then
              option_map
                (app (flat_map percent
                        (utf8 ((c - 55296) * 1024 + (c2 - 56320) + 65536))))
                (encodeURIComponent r2)
            else None
        | [] => None
        end
      else if isTrailSurrogate c then None
      else option_map (app (flat_map percent (utf8 c)))
                      (encodeURIComponent r)
  end.

(** Line 25 of [stooq.ts]: the URL asked of Stooq for a symbol. *)
Definition requestUrl (symbol : str) : option str :=
  option_map
    (fun encoded =>
       lit "https://stooq.com/q/l/?s=" ++ encoded ++ lit "&f=sd2t2ohlcvn&h&e=csv")
    (encodeURIComponent symbol).

(** Kept as it is, or part of a [%XX] escape. *)
Definition plain (c : char) : bool := unescaped c || (c =? 37)%N.

(** The text is made of UTF-16 code units. *)
Definition codeUnits (s : str) : Prop := forall c, In c s -> (c < 65536)%N.

(** The characters that delimit parts of a URL or of its query. *)
Definition delimiter (c : char) : bool :=
  existsb (N.eqb c) [38; 61; 35; 63; 47; 43; 32; 58; 59; 64]%N.

End Uri.

(** ** [server/server.ts]: the relay *)

Module Server.
Import Js.

(** [req.query.symbol]: absent, a string, or what Express builds from a
    repeated or bracketed parameter (an array or an object). *)
Inductive QueryValue :=
| Absent
| Text (s : str)
| Structured.

(** The JSON documents the handler sends. *)
Inductive Body :=
| QuoteJson (symbol date time : str) (close : option Num.number)
| MissingSymbolJson            (* {error: "Missing or invalid 'symbol' ..."} *)
| UpstreamFailureJson (message : Stooq.FetchError).

Record Reply := mkReply {
  status : N;
  body : Body
}.

(** A number as [JSON.stringify] writes it: [null] when it is not
    finite, and [0] for both zeros. *)
Definition jsonNumber (x : Num.number) : option Num.number :=
  match x with
  | S754_zero _ => Some Num.zero
  | S754_finite _ _ _ => Some x
  | S754_infinity _ | S754_nan => None
  end.

(** The handler of [GET /api/quote], given the query parameter and
    what Stooq answers if it is asked. *)
Definition handleQuote (symbol : QueryValue) (net : option Stooq.Response)
  : Reply :=
  match symbol with
  | Text s =>
      if isEmpty s || (length (trim s) =? 0)%nat
      then mkReply 400 MissingSymbolJson
      else
        match Stooq.fetchQuote (trim s) net with
        | Ok quote =>
            mkReply 200
              (QuoteJson (Stooq.symbol quote) (Stooq.date quote)
                         (Stooq.time quote) (jsonNumber (Stooq.close quote)))
        | Err e => mkReply 502 (UpstreamFailureJson e)
        end
  | Absent | Structured => mkReply 400 MissingSymbolJson
  end.

End Server.

(** ** Arithmetic on numbers *)

Module Arith.

(** [a * b]. *)
Definition times (a b : Num.number) : Num.number :=
  SFmul Num.prec Num.emax a b.

(** A number whose exponent, if it is finite, is one of the format's:
    what rounding to the format produces. *)
Definition scaled (x : Num.number) : Prop :=
  match x with
  | S754_finite _ _ e => (-1074 <= e)%Z
  | _ => True
  end.

(** A mantissa and an exponent in the format's canonical form. *)
Definition canonical (m e : Z) : Prop :=
  (0 <= m)%Z /\ fexp Num.prec Num.emax (Zdigits2 m + e) = e.

End Arith.

(** ** [src/alert.ts]: the command line *)

Module Cli.
Import Js Alert Arith.
Local Open Scope js_scope.

(** What the console says about an answer it refuses. *)
Inductive Complaint :=
| SymbolIsEmpty        (* "Symbol cannot be empty. Please try again." *)
| PriceIsNoNumber      (* "Invalid number. Please enter a valid price." *)
| PriceNotPositive     (* "Target price must be greater than 0. ..." *)
| DirectionUnknown     (* "Invalid direction. Please enter ..." *)
| IntervalIsNoNumber   (* "Invalid number. Please enter a valid interval." *)
| IntervalNotPositive. (* "Interval must be greater than 0. ..." *)

(** [askQuestion] resolves to the line typed, trimmed. *)
Definition askQuestion (answer : str) : str := trim answer.

(** A prompt reads the lines typed at the terminal, one per question:
    it prints complaints and either returns a value, with the lines it
    has not read, or has used the lines up and waits for the next one
    ([None]). *)
Definition Prompt (A : Type) : Type :=
  list str -> list Complaint * option (A * list str).

Definition ret {A} (v : A) : Prompt A := fun lines => ([], Some (v, lines)).

Definition andThen {A B} (p : Prompt A) (k : A -> Prompt B) : Prompt B :=
  fun lines =>
    match p lines with
    | (said, Some (v, rest)) =>
        let '(said', r) := k v rest in (said ++ said', r)
    | (said, None) => (said, None)
    end.

(** [while (true) { const input = await askQuestion(rl, ...); ... }]:
    the body ends in [return], or in [continue] after a complaint. *)
Fixpoint promptLoop {A} (body : str -> result Complaint A) (lines : list str)
  : list Complaint * option (A * list str) :=
  match lines with
  | [] => ([], None)
  | answer :: rest =>
      match body (askQuestion answer) with
      | Ok v => ([], Some (v, rest))
      | Err complaint =>
          let '(said, r) := promptLoop body rest in (complaint :: said, r)
      end
  end.

(** Lines 165-180. *)
Definition promptSymbol : Prompt str :=
  promptLoop (fun symbol =>
    throwIf (length symbol =? 0)%nat SymbolIsEmpty ;;
    Ok symbol).

(** Lines 188-208. *)
Definition promptTargetPrice : Prompt Num.number :=
  promptLoop (fun input =>
    let target := Num.parseFloat input in
    throwIf (Num.isNaN target) PriceIsNoNumber ;;
    throwIf (Num.le target Num.zero) PriceNotPositive ;;
    Ok target).

(** Lines 241-269. *)
Definition promptInterval : Prompt Num.number :=
  promptLoop (fun input =>
    if (length input =? 0)%nat then Ok (Num.ofZ 10)
    else
      let interval := Num.parseFloat input in
      throwIf (Num.isNaN interval) IntervalIsNoNumber ;;
      throwIf (Num.le interval Num.zero) IntervalNotPositive ;;
      Ok interval).

(** What happens while the alert runs: a line is typed, or the request
    of the pending [fetchQuote] is answered. *)
Inductive Stimulus :=
| Typed (line : str)
| Answered (net : option Stooq.Response).

(** Where the process stands: waiting for an answer to a prompt,
    watching the price, or gone with an exit code. *)
Inductive Process :=
| AwaitingAnswer
| Watching
| Exited (code : N).

Record Run := mkRun {
  said : list Complaint;
  events : list Event;
  process : Process
}.

Section Words.

(** [String.prototype.toLowerCase].  Its Unicode tables are not part of
    the program: what follows holds whatever it maps a text to. *)
Variable toLowerCase : str -> str.

(** Lines 216-232. *)
Definition promptDirection : Prompt Direction :=
  promptLoop (fun input =>
    let direction := toLowerCase input in
    if streq direction (lit "above") then Ok above
    else if streq direction (lit "below") then Ok below
    else Err DirectionUnknown).

(** Lines 279-287: the line is the command to quit. *)
Definition isQuit (input : str) : bool :=
  streq (toLowerCase (trim input)) (lit "q").

(** The answers [fetchQuote] gets before the user quits, and whether
    the user quits. *)
Fixpoint untilQuit (stimuli : list Stimulus)
  : list (option Stooq.Response) * bool :=
  match stimuli with
  | [] => ([], false)
  | Typed line :: rest => if isQuit line then ([], true) else untilQuit rest
  | Answered net :: rest =>
      let '(answers, quit) := untilQuit rest in (net :: answers, quit)
  end.

(** Lines 303-317: the four prompts and the configuration built from
    their answers. *)
Definition configure : Prompt AlertConfig :=
  andThen promptSymbol (fun symbol =>
  andThen promptTargetPrice (fun target =>
  andThen promptDirection (fun direction =>
  andThen promptInterval (fun intervalSeconds =>
    let intervalMs := times intervalSeconds (Num.ofZ 1000) in
    ret (mkConfig symbol target direction intervalMs))))).

(** [main()], given the lines that answer the prompts and what happens
    once the alert runs.  [runAlert] returning is followed by
    [process.exit(0)] in the [finally] block, its rejection by
    [process.exit(1)] in the [catch] block, and the quit command by
    [process.exit(0)] in the line handler. *)
Definition main (lines : list str) (stimuli : list Stimulus) : Run :=
  match configure lines with
  | (said, None) => mkRun said [] AwaitingAnswer
  | (said, Some (config, _)) =>
      let '(answers, quit) := untilQuit stimuli in
      match runAlertOverNetwork config answers with
      | (events, Err _) => mkRun said events (Exited 1)
      | (events, Ok TRIGGERED) => mkRun said events (Exited 0)
      | (events, Ok POLLING) =>
          mkRun said events (if quit then Exited 0 else Watching)
      end
  end.

End Words.

End Cli.

(** ** [src/stooq.ts]: the page *)

Module Page.
Import Js.

(** Why a poll ends in its [catch] block. *)
Inductive Failure :=
| RequestFailed           (* [fetch] rejects *)
| ApiFailed (status : N)  (* "API request failed: ..." *)
| MalformedUri            (* the URIError of [encodeURIComponent] *)
| NotAQuote.              (* the TypeError of [toFixed] on null or undefined *)

(** The text of the three output elements.  [AsLoaded] is whatever the
    HTML holds before the script writes to the element. *)
Inductive PriceText :=
| PriceAsLoaded
| NoPrice               (* "--" *)
| Price (x : Num.number). (* "$" and [price.toFixed(2)] *)

Inductive StatusText :=
| StatusAsLoaded
| Starting              (* "Starting..." *)
| Polling (date time : str)  (* "Polling... Last updated: ..." *)
| AlertTriggered        (* "Alert triggered!" *)
| Stopped               (* "Stopped" *)
| Failed (f : Failure). (* "Error: ..." *)

Inductive AlertText :=
| AlertAsLoaded
| NoAlert               (* the empty text *)
| Crossed (symbol : str) (price : Num.number) (direction : str)
          (target : Num.number).

(** The calls of [window.alert]. *)
Inductive Dialog :=
| EnterSymbol           (* "Please enter a stock symbol" *)
| EnterTarget           (* "Please enter a valid target price ..." *)
| EnterInterval.        (* "Please enter a valid polling interval ..." *)

Record Inputs := mkInputs {
  symbolInput : str;
  targetInput : str;
  directionSelect : str;
  intervalInput : str
}.

Record View := mkView {
  startDisabled : bool;
  stopDisabled : bool;
  priceText : PriceText;
  statusText : StatusText;
  alertText : AlertText;
  alertShown : bool          (* the class "show" *)
}.

(** What a [poll] closure has captured from its [startPolling]. *)
Record Watch := mkWatch {
  symbol : str;
  target : Num.number;
  direction : str;
  isActive : bool
}.

(** An interval of the window: its id, its delay and its callback. *)
Record Timer := mkTimer {
  timerId : nat;
  delay : Num.number;
  callback : Watch
}.

Record Page := mkPage {
  inputs : Inputs;
  view : View;
  pollingIntervalId : option nat;
  timers : list Timer;       (* the intervals that are set *)
  nextId : nat;              (* the id the next interval gets *)
  pending : list Watch;      (* polls waiting for their response *)
  dialogs : list Dialog      (* oldest first *)
}.

Definition withView (f : View -> View) (p : Page) : Page :=
  mkPage (inputs p) (f (view p)) (pollingIntervalId p) (timers p) (nextId p)
         (pending p) (dialogs p).

(** Lines 189-197. *)
Definition updateUI (price : option Num.number) (status : StatusText)
           (v : View) : View :=
  mkView (startDisabled v) (stopDisabled v)
         (match price with
          | Some x => Price x
          | None => NoPrice
          end)
         status (alertText v) (alertShown v).

(** Lines 204-207. *)
Definition showAlert (message : AlertText) (v : View) : View :=
  mkView (startDisabled v) (stopDisabled v) (priceText v) (statusText v)
         message true.

(** Lines 212-215. *)
Definition hideAlert (v : View) : View :=
  mkView (startDisabled v) (stopDisabled v) (priceText v) (statusText v)
         NoAlert false.

Definition setButtons (start stop : bool) (v : View) : View :=
  mkView start stop (priceText v) (statusText v) (alertText v) (alertShown v).

Definition say (d : Dialog) (p : Page) : Page :=
  mkPage (inputs p) (view p) (pollingIntervalId p) (timers p) (nextId p)
         (pending p) (dialogs p ++ [d]).

(** [clearInterval(id)]. *)
Definition clearInterval (id : nat) (p : Page) : Page :=
  mkPage (inputs p) (view p) (pollingIntervalId p)
         (filter (fun t => negb (timerId t =? id)%nat) (timers p))
         (nextId p) (pending p) (dialogs p).

(** [pollingIntervalId = window.setInterval(poll, intervalMs)]. *)
Definition setInterval (w : Watch) (intervalMs : Num.number) (p : Page) : Page :=
  mkPage (inputs p) (view p) (Some (nextId p))
         (timers p ++ [mkTimer (nextId p) intervalMs w])
         (S (nextId p)) (pending p) (dialogs p).

(** Lines 315-330. *)
Definition stopPolling (p : Page) : Page :=
  let p1 :=
    match pollingIntervalId p with
    | Some id =>
        let q := clearInterval id p in
        mkPage (inputs q) (view q) None (timers q) (nextId q) (pending q)
               (dialogs q)
    | None => p
    end in
  withView (fun v => setButtons false true
                       (hideAlert (updateUI None Stopped v))) p1.

(** [poll()] up to its [await]: the request leaves, unless the symbol
    cannot be encoded, which ends the poll in its [catch] block. *)
Definition poll (w : Watch) (p : Page) : Page :=
  if negb (isActive w) then p
  else
    match Uri.encodeURIComponent (symbol w) with
    | Some _ =>
        mkPage (inputs p) (view p) (pollingIntervalId p) (timers p) (nextId p)
               (pending p ++ [w]) (dialogs p)
    | None => withView (updateUI None (Failed MalformedUri)) p
    end.

(** [response.ok]. *)
Definition isOk (status : N) : bool := ((200 <=? status) && (status <=? 299))%N.

(** [null] compared as a number. *)
Definition toNumber (close : option Num.number) : Num.number :=
  match close with
  | Some x => x
  | None => Num.zero
  end.

(** Lines 276-285. *)
Definition thresholdCrossed (direction : str) (currentPrice : option Num.number)
           (target : Num.number) : bool :=
  if streq direction (lit "above")
  then Num.ge (toNumber currentPrice) target
  else Num.le (toNumber currentPrice) target.

(** [poll()] from its [await] on, given how the relay answers the
    request, if it does. *)
Definition resume (w : Watch) (reply : option Server.Reply) (p : Page) : Page :=
  match reply with
  | None => withView (updateUI None (Failed RequestFailed)) p
  | Some r =>
      if negb (isOk (Server.status r))
      then withView (updateUI None (Failed (ApiFailed (Server.status r)))) p
      else
        match Server.body r with
        | Server.QuoteJson symbol date time close =>
            let p1 := withView (updateUI close (Polling date time)) p in
            if thresholdCrossed (direction w) close (target w) then
              match close with
              | Some currentPrice =>
                  stopPolling
                    (withView
                       (fun v =>
                          updateUI (Some currentPrice) AlertTriggered
                            (showAlert
                               (Crossed symbol currentPrice (direction w)
                                        (target w)) v))
                       p1)
              | None => withView (updateUI None (Failed NotAQuote)) p1
              end
            else p1
        | _ => withView (updateUI None (Failed NotAQuote)) p
        end
  end.

(** [x || 10] picks 10 for NaN and for the zeros. *)
Definition orTen (x : Num.number) : Num.number :=
  match x with
  | S754_nan | S754_zero _ => Num.ofZ 10
  | _ => x
  end.

(** Lines 221-309.  The first poll runs before the interval is set;
    when its symbol cannot be encoded, its [catch] block runs once
    [startPolling] has returned. *)
Definition startPolling (p : Page) : Page :=
  let symbol := trim (symbolInput (inputs p)) in
  let target := Num.parseFloat (targetInput (inputs p)) in
  let direction := directionSelect (inputs p) in
  let intervalSeconds := orTen (Num.parseFloat (intervalInput (inputs p))) in
  if isEmpty symbol then say EnterSymbol p
  else if Num.isNaN target || Num.le target Num.zero then say EnterTarget p
  else if Num.le intervalSeconds Num.zero then say EnterInterval p
  else
    let intervalMs := Arith.times intervalSeconds (Num.ofZ 1000) in
    let w := mkWatch symbol target direction true in
    let p1 :=
      withView (fun v => setButtons true false
                           (hideAlert (updateUI None Starting v))) p in
    match Uri.encodeURIComponent symbol with
    | Some _ => setInterval w intervalMs (poll w p1)
    | None => poll w (setInterval w intervalMs p1)
    end.

(** What happens to the page. *)
Inductive Field := SymbolField | TargetField | DirectionField | IntervalField.

Inductive Stimulus :=
| Edit (field : Field) (value : str)
| ClickStart
| ClickStop
| Tick (id : nat)
| Settle (k : nat) (reply : option Server.Reply).

Definition edit (field : Field) (value : str) (i : Inputs) : Inputs :=
  match field with
  | SymbolField => mkInputs value (targetInput i) (directionSelect i)
                            (intervalInput i)
  | TargetField => mkInputs (symbolInput i) value (directionSelect i)
                            (intervalInput i)
  | DirectionField => mkInputs (symbolInput i) (targetInput i) value
                               (intervalInput i)
  | IntervalField => mkInputs (symbolInput i) (targetInput i)
                              (directionSelect i) value
  end.

(** The pending polls without the one at position [k]. *)
Fixpoint without {A} (k : nat) (l : list A) : list A :=
  match k, l with
  | _, [] => []
  | O, _ :: r => r
  | S k', x :: r => x :: without k' r
  end.

(** One turn of the event loop.  A disabled button does not click, an
    interval that is cleared does not tick. *)
Definition step (p : Page) (s : Stimulus) : Page :=
  match s with
  | Edit field value =>
      mkPage (edit field value (inputs p)) (view p) (pollingIntervalId p)
             (timers p) (nextId p) (pending p) (dialogs p)
  | ClickStart => if startDisabled (view p) then p else startPolling p
  | ClickStop => if stopDisabled (view p) then p else stopPolling p
  | Tick id =>
      match find (fun t => (timerId t =? id)%nat) (timers p) with
      | Some t => poll (callback t) p
      | None => p
      end
  | Settle k reply =>
      match nth_error (pending p) k with
      | Some w =>
          resume w reply
                 (mkPage (inputs p) (view p) (pollingIntervalId p) (timers p)
                         (nextId p) (without k (pending p)) (dialogs p))
      | None => p
      end
  end.

Definition run (p : Page) (stimuli : list Stimulus) : Page :=
  fold_left step stimuli p.

(** The page when the script has loaded: no interval is set and no
    request is out; what the elements hold is up to the HTML. *)
Definition loaded (p : Page) : Prop :=
  pollingIntervalId p = None /\ timers p = [] /\ pending p = [].

(** A poll that watches for something: its symbol is trimmed and not
    empty, its target is above zero, and its guard is open. *)
Definition sound (w : Watch) : Prop :=
  trim (symbol w) = symbol w /\ symbol w <> []
  /\ Num.gt (target w) Num.zero = true
  /\ isActive w = true.

(** Nothing on the page tells of an alert. *)
Definition silent (v : View) : Prop :=
  alertShown v = false
  /\ statusText v <> AlertTriggered
  /\ forall s x d t, alertText v <> Crossed s x d t.

(** The intervals that are set are the one the script remembers, if
    any, and the start button is disabled while it is set; every poll,
    set or pending, is sound, and every delay is above zero. *)
Definition steady (p : Page) : Prop :=
  match pollingIntervalId p with
  | Some id =>
      exists t, timers p = [t] /\ timerId t = id
                /\ startDisabled (view p) = true
  | None => timers p = []
  end
  /\ Forall (fun t => sound (callback t)
                      /\ Num.gt (delay t) Num.zero = true) (timers p)
  /\ Forall sound (pending p).

End Page.

(** A session at the terminal. *)

Module Session.
Import Js Cli.

(** Lower case for the letters A to Z. *)
Definition lowerAscii (s : str) : str :=
  map (fun c => if ((65 <=? c) && (c <=? 90))%N then (c + 32)%N else c) s.

(** A blank line and a word are refused, then come the symbol, the
    target, the direction and a blank line for the default interval. *)
Definition typed : list str :=
  [[]; lit " aapl.us "; lit "abc"; lit "150"; lit "Above"; []].

(** The page as loaded, with the form filled in and the interval left
    blank. *)
Definition page : Page.Page :=
  Page.mkPage
    (Page.mkInputs (lit " aapl.us ") (lit "150") (lit "above") [])
    (Page.mkView false true Page.PriceAsLoaded Page.StatusAsLoaded
                 Page.NoAlert false)
    None [] 1 [] [].

(** What the relay answers for Apple at 185.64. *)
Definition reply : option Server.Reply :=
  Some (Server.handleQuote
          (Server.Text (lit "aapl.us"))
          (Some (Stooq.mkResponse true 200 Scenario.apple))).

(** A click on Start, a tick of the interval, and the answer to the
    first request, which crosses the target of 150. *)
Definition clicks : list Page.Stimulus :=
  [Page.ClickStart; Page.Tick 1; Page.Settle 0 reply].

End Session.

(** * Properties *)

(** ** Strings and arrays *)

Module JsFacts.
Import Js.

Lemma streq_spec (a b : str) : streq a b = true <-> a = b.
Proof.
  revert b; induction a as [|x a IH]; intros [|y b]; simpl;
    try (split; [discriminate | congruence]); try tauto.
  rewrite andb_true_iff, N.eqb_eq, IH.
  split; [intros [-> ->]; reflexivity | intros E; injection E; auto].
Qed.

Lemma streq_refl (a : str) : streq a a = true.
Proof. apply streq_spec; reflexivity. Qed.

Lemma existsb_streq (x : str) (xs : list str) :
  existsb (streq x) xs = true <-> In x xs.
Proof.
  rewrite existsb_exists; split.
  - intros [y [Hy E]]. apply streq_spec in E. subst; assumption.
  - intros H. exists x. split; [assumption | apply streq_refl].
Qed.

Lemma isEmpty_spec (s : str) : isEmpty s = true <-> s = [].
Proof. destruct s; simpl; split; congruence. Qed.

Lemma length_zero_isEmpty (s : str) : (length s =? 0)%nat = isEmpty s.
Proof. destruct s; reflexivity. Qed.

(** *** [indexOf] *)

Lemma indexOfFrom_bounds (x : str) (xs : list str) (i : Z) :
  (0 <= i)%Z ->
  (indexOfFrom x xs i = -1 /\ ~ In x xs)%Z
  \/ (i <= indexOfFrom x xs i < i + Z.of_nat (length xs) /\ In x xs)%Z.
Proof.
  revert i; induction xs as [|y r IH]; intros i Hi; simpl.
  - left; split; [reflexivity | tauto].
  - destruct (streq y x) eqn:E.
    + apply streq_spec in E. right; split; [lia | auto].
    + assert (y <> x) by (intros ->; rewrite streq_refl in E; discriminate).
      destruct (IH (i + 1)%Z ltac:(lia)) as [[-> Hn] | [Hb Hin]].
      * left; split; [reflexivity | tauto].
      * right; split; [lia | auto].
Qed.

Lemma indexOf_missing (xs : list str) (x : str) :
  (indexOf xs x =? -1)%Z = negb (existsb (streq x) xs).
Proof.
  unfold indexOf.
  destruct (indexOfFrom_bounds x xs 0 ltac:(lia)) as [[E Hn] | [Hb Hin]].
  - rewrite E. simpl.
    destruct (existsb (streq x) xs) eqn:Ex; [|reflexivity].
    apply existsb_streq in Ex; contradiction.
  - apply existsb_streq in Hin. rewrite Hin. simpl. apply Z.eqb_neq. lia.
Qed.

Lemma indexOf_found (xs : list str) (x : str) :
  In x xs -> (0 <= indexOf xs x < Z.of_nat (length xs))%Z.
Proof.
  intros Hin. unfold indexOf.
  destruct (indexOfFrom_bounds x xs 0 ltac:(lia)) as [[_ Hn] | [Hb _]];
    [contradiction | lia].
Qed.

(** *** Indexing *)

Lemma at_out_of_range {A} (xs : list A) (i : Z) :
  (Z.of_nat (length xs) <= i)%Z -> at_ xs i = None.
Proof.
  intros H. unfold at_. destruct (i <? 0)%Z; [reflexivity|].
  apply nth_error_None. lia.
Qed.

Lemma at_map {A B} (f : A -> B) (xs : list A) (i : Z) :
  at_ (map f xs) i = option_map f (at_ xs i).
Proof.
  unfold at_. destruct (i <? 0)%Z; [reflexivity|].
  apply nth_error_map.
Qed.

(** *** [trim] *)

Lemma isWhiteSpace_LF : isWhiteSpace LF = true.
Proof. reflexivity. Qed.

Lemma isWhiteSpace_COMMA : isWhiteSpace COMMA = false.
Proof. reflexivity. Qed.

Lemma trimStart_head (s : str) (c : char) (r : str) :
  trimStart s = c :: r -> isWhiteSpace c = false.
Proof.
  induction s as [|x s IH]; simpl; [discriminate|].
  destruct (isWhiteSpace x) eqn:E; [assumption|].
  intros H; injection H as -> _; assumption.
Qed.

Lemma trimStart_fixed (c : char) (r : str) :
  isWhiteSpace c = false -> trimStart (c :: r) = c :: r.
Proof. intros H; simpl; rewrite H; reflexivity. Qed.

Lemma trimEnd_idempotent (s : str) : trimEnd (trimEnd s) = trimEnd s.
Proof.
  induction s as [|c r IH]; simpl; [reflexivity|].
  destruct (trimEnd r) as [|y r'] eqn:E.
  - destruct (isWhiteSpace c) eqn:W; simpl; [reflexivity|].
    rewrite W; reflexivity.
  - simpl in *. rewrite IH. reflexivity.
Qed.

Lemma trimEnd_trimStart (t : str) :
  trimEnd t = t -> trimEnd (trimStart t) = trimStart t.
Proof.
  induction t as [|c r IH]; simpl; [reflexivity|].
  intros H. destruct (isWhiteSpace c) eqn:W.
  - apply IH. destruct (trimEnd r) as [|y r'] eqn:E;
      [discriminate | injection H; auto].
  - simpl. rewrite W. exact H.
Qed.

Lemma trim_idempotent (s : str) : trim (trim s) = trim s.
Proof.
  unfold trim.
  rewrite (trimEnd_trimStart (trimEnd s) (trimEnd_idempotent s)).
  destruct (trimStart (trimEnd s)) as [|c r] eqn:E; [reflexivity|].
  apply trimStart_fixed. exact (trimStart_head _ _ _ E).
Qed.

Lemma trim_head (s : str) (c : char) (r : str) :
  trim s = c :: r -> isWhiteSpace c = false.
Proof. apply trimStart_head. Qed.

Lemma trimEnd_app (a b : str) :
  trimEnd b <> [] -> trimEnd (a ++ b) = a ++ trimEnd b.
Proof.
  intros Hb. induction a as [|c a IH]; simpl; [reflexivity|].
  rewrite IH. destruct (a ++ trimEnd b) eqn:E; [|reflexivity].
  apply app_eq_nil in E. tauto.
Qed.

Lemma trimEnd_incl (s : str) (c : char) : In c (trimEnd s) -> In c s.
Proof.
  induction s as [|x r IH]; simpl; [tauto|].
  destruct (trimEnd r) as [|y r'].
  - destruct (isWhiteSpace x); simpl; tauto.
  - simpl in *. tauto.
Qed.

Lemma trim_nonempty_trimEnd (s : str) : trim s <> [] -> trimEnd s <> [].
Proof. unfold trim. intros H E. rewrite E in H. apply H. reflexivity. Qed.

(** *** [split] and [join] *)

Lemma split_nonempty (sep : char) (s : str) : split sep s <> [].
Proof.
  destruct s as [|c r]; simpl; [discriminate|].
  destruct (c =? sep)%N; [discriminate|].
  destruct (split sep r); discriminate.
Qed.

Lemma split_length (sep : char) (s : str) : (1 <= length (split sep s))%nat.
Proof.
  pose proof (split_nonempty sep s).
  destruct (split sep s); [contradiction | simpl; lia].
Qed.

Lemma split_without (sep : char) (s : str) :
  ~ In sep s -> split sep s = [s].
Proof.
  induction s as [|c r IH]; simpl; intros H; [reflexivity|].
  destruct (c =? sep)%N eqn:E.
  - apply N.eqb_eq in E. tauto.
  - rewrite IH by tauto. reflexivity.
Qed.

Lemma split_app (sep : char) (a b : str) :
  ~ In sep a -> split sep (a ++ sep :: b) = a :: split sep b.
Proof.
  induction a as [|c a IH]; simpl; intros H.
  - rewrite N.eqb_refl. reflexivity.
  - destruct (c =? sep)%N eqn:E.
    + apply N.eqb_eq in E. tauto.
    + rewrite IH by tauto. reflexivity.
Qed.

(** The first element of [split] is the text up to the first
    separator, and the rest is [split] of what follows it. *)
Lemma split_inv (sep : char) (s a : str) (rest : list str) :
  split sep s = a :: rest ->
  ~ In sep a
  /\ ((rest = [] /\ s = a)
      \/ exists s', s = a ++ sep :: s' /\ split sep s' = rest).
Proof.
  revert a rest; induction s as [|c r IH]; simpl; intros a rest H.
  - injection H as <- <-. split; [tauto | left; auto].
  - destruct (c =? sep)%N eqn:E.
    + apply N.eqb_eq in E. subst c. injection H as <- <-.
      split; [tauto | right; exists r; auto].
    + apply N.eqb_neq in E.
      destruct (split sep r) as [|h t] eqn:S;
        [exfalso; exact (split_nonempty _ _ S)|].
      injection H as <- <-.
      destruct (IH h t eq_refl) as [Hn [[-> ->] | [s' [-> Hs]]]].
      * split; [simpl; intros [?|?]; [congruence | tauto] | left; auto].
      * split; [simpl; intros [?|?]; [congruence | tauto]|].
        right; exists s'; auto.
Qed.

Lemma split_cells_without (sep : char) (s x : str) :
  In x (split sep s) -> ~ In sep x.
Proof.
  remember (split sep s) as xs eqn:E. revert s E.
  induction xs as [|a rest IH]; intros s E; simpl; [tauto|].
  symmetry in E. destruct (split_inv _ _ _ _ E) as [Hn [[-> ->] | [s' [-> Hs]]]].
  - intros [<- | []]; assumption.
  - intros [<- | Hin]; [assumption|].
    apply (IH s'); auto.
Qed.

End JsFacts.

(** ** Numbers *)

Module NumFacts.
Import Num.

Lemma SFcompare_swap (a b : number) :
  SFcompare b a = option_map CompOpp (SFcompare a b).
Proof.
  destruct a as [sa | sa | | sa ma ea], b as [sb | sb | | sb mb eb];
    try reflexivity;
    try (destruct sa; reflexivity);
    try (destruct sb; reflexivity);
    try (destruct sa, sb; reflexivity).
  assert (A : PosDef.Pos.compare_cont Eq mb ma
              = CompOpp (PosDef.Pos.compare_cont Eq ma mb))
    by (symmetry; exact (Pos.compare_cont_antisym ma mb Eq)).
  simpl. destruct sa, sb; simpl; try reflexivity;
    rewrite (Z.compare_antisym ea eb);
    destruct (ea ?= eb)%Z; simpl; try reflexivity;
    rewrite A; try reflexivity.
Qed.

Lemma ge_spec (a b : number) : ge a b = true <-> Ge a b.
Proof.
  unfold ge, Ge, isLessThan.
  destruct (SFcompare a b) as [[| |]|]; split;
    try (intros [H | H]); try discriminate; auto.
Qed.

Lemma le_spec (a b : number) : le a b = true <-> Le a b.
Proof.
  unfold le, Le, isLessThan. rewrite (SFcompare_swap a b).
  destruct (SFcompare a b) as [[| |]|]; simpl; split;
    try (intros [H | H]); try discriminate; auto.
Qed.

Lemma Equal_Ge_Le (a b : number) : Equal a b -> Ge a b /\ Le a b.
Proof. unfold Equal, Ge, Le. intros ->. auto. Qed.

(** *** The order on finite numbers is the order of their values *)

Lemma digits2_pos_bounds (m : positive) :
  (2 ^ (Zpos (digits2_pos m) - 1) <= Zpos m < 2 ^ Zpos (digits2_pos m))%Z.
Proof.
  induction m as [p IH | p IH |]; cbn [digits2_pos].
  - rewrite Pos2Z.inj_succ.
    replace (Z.succ (Zpos (digits2_pos p)) - 1)%Z
      with (Z.succ (Zpos (digits2_pos p) - 1))%Z by lia.
    rewrite !Z.pow_succ_r by lia. lia.
  - rewrite Pos2Z.inj_succ.
    replace (Z.succ (Zpos (digits2_pos p)) - 1)%Z
      with (Z.succ (Zpos (digits2_pos p) - 1))%Z by lia.
    rewrite !Z.pow_succ_r by lia. lia.
  - simpl. lia.
Qed.

Lemma valid_finite_inv (s : bool) (m : positive) (e : Z) :
  valid (S754_finite s m e) ->
  (-1074 <= e <= 971)%Z
  /\ (Zpos m < 2 ^ 53)%Z
  /\ (-1074 < e -> 2 ^ 52 <= Zpos m)%Z.
Proof.
  unfold valid, valid_binary, bounded, canonical_mantissa, fexp, emin,
    prec, emax.
  rewrite andb_true_iff, Z.eqb_eq, Z.leb_le. intros [C B].
  pose proof (digits2_pos_bounds m) as [Lo Hi].
  assert (D : (Zpos (digits2_pos m) <= 53)%Z) by lia.
  split; [lia|]. split.
  - apply (Z.lt_le_trans _ _ _ Hi). apply Z.pow_le_mono_r; lia.
  - intros He. assert (Zpos (digits2_pos m) = 53)%Z as E by lia.
    rewrite E in Lo. exact Lo.
Qed.

Lemma scale_step (e1 e2 : Z) :
  (-1074 <= e1 < e2)%Z ->
  (0 < 2 ^ (e1 + 1074) /\ 2 * 2 ^ (e1 + 1074) <= 2 ^ (e2 + 1074))%Z.
Proof.
  intros H. split; [apply Z.pow_pos_nonneg; lia|].
  rewrite <- Z.pow_succ_r by lia.
  apply Z.pow_le_mono_r; lia.
Qed.

Lemma magnitude_compare (s1 s2 : bool) (m1 m2 : positive) (e1 e2 : Z) :
  valid (S754_finite s1 m1 e1) ->
  valid (S754_finite s2 m2 e2) ->
  match (e1 ?= e2)%Z with
  | Lt => Lt
  | Gt => Gt
  | Eq => PosDef.Pos.compare_cont Eq m1 m2
  end
  = (Zpos m1 * 2 ^ (e1 + 1074) ?= Zpos m2 * 2 ^ (e2 + 1074))%Z.
Proof.
  intros V1 V2.
  destruct (valid_finite_inv _ _ _ V1) as (E1 & U1 & L1).
  destruct (valid_finite_inv _ _ _ V2) as (E2 & U2 & L2).
  change (2 ^ 53)%Z with (2 * 2 ^ 52)%Z in U1, U2.
  destruct (Z.compare_spec e1 e2) as [-> | Hlt | Hgt].
  - assert (0 < 2 ^ (e2 + 1074))%Z as P by (apply Z.pow_pos_nonneg; lia).
    change (PosDef.Pos.compare_cont Eq m1 m2) with (Zpos m1 ?= Zpos m2)%Z.
    symmetry.
    destruct (Z.compare_spec (Zpos m1) (Zpos m2)) as [-> | H | H].
    + apply Z.compare_refl.
    + apply Z.compare_lt_iff. nia.
    + apply Z.compare_gt_iff. nia.
  - symmetry. apply Z.compare_lt_iff.
    destruct (scale_step e1 e2 ltac:(lia)) as [P S].
    specialize (L2 ltac:(lia)). nia.
  - symmetry. apply Z.compare_gt_iff.
    destruct (scale_step e2 e1 ltac:(lia)) as [P S].
    specialize (L1 ltac:(lia)). nia.
Qed.

(** On binary64 values that are not NaN or infinite, [SFcompare] is the
    comparison of the exact values. *)
Lemma SFcompare_units (a b : number) :
  valid a -> valid b -> finite a = true -> finite b = true ->
  SFcompare a b = Some (units a ?= units b)%Z.
Proof.
  intros Va Vb Fa Fb.
  destruct a as [sa | sa | | sa ma ea]; try discriminate;
    destruct b as [sb | sb | | sb mb eb]; try discriminate.
  - reflexivity.
  - assert (0 < Zpos mb * 2 ^ (eb + 1074))%Z as P
        by (destruct (valid_finite_inv _ _ _ Vb) as (E & _);
            apply Z.mul_pos_pos; [lia | apply Z.pow_pos_nonneg; lia]).
    cbn [SFcompare units]. destruct sb; f_equal; symmetry;
      [apply Z.compare_gt_iff | apply Z.compare_lt_iff]; lia.
  - assert (0 < Zpos ma * 2 ^ (ea + 1074))%Z as P
        by (destruct (valid_finite_inv _ _ _ Va) as (E & _);
            apply Z.mul_pos_pos; [lia | apply Z.pow_pos_nonneg; lia]).
    cbn [SFcompare units]. destruct sa; f_equal; symmetry;
      [apply Z.compare_lt_iff | apply Z.compare_gt_iff]; lia.
  - assert (0 < Zpos ma * 2 ^ (ea + 1074))%Z as Pa
        by (destruct (valid_finite_inv _ _ _ Va) as (E & _);
            apply Z.mul_pos_pos; [lia | apply Z.pow_pos_nonneg; lia]).
    assert (0 < Zpos mb * 2 ^ (eb + 1074))%Z as Pb
        by (destruct (valid_finite_inv _ _ _ Vb) as (E & _);
            apply Z.mul_pos_pos; [lia | apply Z.pow_pos_nonneg; lia]).
    pose proof (magnitude_compare sa sb ma mb ea eb Va Vb) as M.
    pose proof (magnitude_compare sb sa mb ma eb ea Vb Va) as M'.
    cbn [SFcompare units]. destruct sa, sb; f_equal.
    + rewrite Z.compare_opp. rewrite <- M'.
      rewrite (Z.compare_antisym ea eb).
      destruct (ea ?= eb)%Z; simpl; try reflexivity.
      exact (Pos.compare_cont_antisym ma mb Eq).
    + symmetry. apply Z.compare_lt_iff. lia.
    + symmetry. apply Z.compare_gt_iff. lia.
    + exact M.
Qed.

Lemma Ge_units (a b : number) :
  valid a -> valid b -> finite a = true -> finite b = true ->
  Ge a b <-> (units b <= units a)%Z.
Proof.
  intros Va Vb Fa Fb. unfold Ge. rewrite (SFcompare_units a b) by assumption.
  destruct (Z.compare_spec (units a) (units b)); split;
    try (intros [H' | H']); try discriminate; try lia; auto.
Qed.

Lemma Le_units (a b : number) :
  valid a -> valid b -> finite a = true -> finite b = true ->
  Le a b <-> (units a <= units b)%Z.
Proof.
  intros Va Vb Fa Fb. unfold Le. rewrite (SFcompare_units a b) by assumption.
  destruct (Z.compare_spec (units a) (units b)); split;
    try (intros [H' | H']); try discriminate; try lia; auto.
Qed.

(** *** [parseFloat] reads the leading numeric prefix *)

Lemma digitsFrom_run (acc : N) (n : nat) (ds rest : Js.str) :
  forallb isDigit ds = true ->
  noDigitAhead rest = true ->
  digitsFrom acc n (ds ++ rest) = (readDigits acc ds, n + length ds, rest).
Proof.
  revert acc n. induction ds as [|d ds IH]; intros acc n D R.
  - simpl. rewrite Nat.add_0_r.
    destruct rest as [|c rest]; [reflexivity|].
    simpl in *. apply negb_true_iff in R. rewrite R. reflexivity.
  - simpl in D. apply andb_true_iff in D. destruct D as [Hd D].
    simpl. rewrite Hd. rewrite (IH _ _ D R).
    rewrite Nat.add_succ_r. reflexivity.
Qed.

Lemma digit_bounds (d : Js.char) : isDigit d = true -> (48 <= d <= 57)%N.
Proof.
  unfold isDigit. rewrite andb_true_iff, !N.leb_le. tauto.
Qed.

Lemma digit_not_whiteSpace (d : Js.char) :
  isDigit d = true -> Js.isWhiteSpace d = false.
Proof.
  intros H. apply digit_bounds in H.
  destruct (Js.isWhiteSpace d) eqn:W; [exfalso | reflexivity].
  unfold Js.isWhiteSpace in W. cbn [existsb] in W.
  rewrite !orb_true_iff, !andb_true_iff, !N.eqb_eq, !N.leb_le in W. lia.
Qed.

Lemma Js_trimStart_digit (d : Js.char) (r : Js.str) :
  isDigit d = true -> Js.trimStart (d :: r) = d :: r.
Proof.
  intros H. simpl. rewrite (digit_not_whiteSpace d H). reflexivity.
Qed.

Lemma readSign_digit (d : Js.char) (r : Js.str) :
  isDigit d = true -> readSign (d :: r) = (false, d :: r).
Proof.
  intros H. apply digit_bounds in H.
  destruct (N.eq_dec d 43) as [-> | N43]; [lia|].
  destruct (N.eq_dec d 45) as [-> | N45]; [lia|].
  unfold readSign.
  destruct d as [|p]; [reflexivity|].
  do 6 (try (destruct p as [p | p |]; try reflexivity)); congruence.
Qed.

Lemma not_Infinity (d : Js.char) (r : Js.str) :
  isDigit d = true -> startsWith (Js.lit "Infinity") (d :: r) = false.
Proof.
  intros H. apply digit_bounds in H.
  change (Js.lit "Infinity") with (73%N :: Js.lit "nfinity").
  cbn [startsWith].
  replace (73 =? d)%N with false; [reflexivity|].
  symmetry. apply N.eqb_neq. lia.
Qed.

Lemma readExponent_none (g : Js.str) : endsLiteral g = true -> readExponent g = 0%Z.
Proof.
  destruct g as [|c g]; [reflexivity|].
  simpl. rewrite andb_true_iff, !negb_true_iff. intros [_ ->]. reflexivity.
Qed.

Lemma endsLiteral_noDigit (g : Js.str) :
  endsLiteral g = true -> noDigitAhead g = true.
Proof.
  destruct g as [|c g]; [reflexivity|].
  simpl. rewrite andb_true_iff. tauto.
Qed.

(** A run of digits, a point and a run of digits, followed by anything
    that is neither a digit nor an exponent indicator: the value is that
    of the digits, and what follows is not looked at. *)
Lemma parseFloat_decimal (d : Js.char) (ip fp g : Js.str) :
  forallb isDigit (d :: ip) = true ->
  forallb isDigit fp = true ->
  endsLiteral g = true ->
  parseFloat ((d :: ip) ++ 46%N :: fp ++ g)
  = roundDecimal false (readDigits (readDigits 0 (d :: ip)) fp)
                 (- Z.of_nat (length fp)).
Proof.
  intros Di Df G.
  assert (Hd : isDigit d = true)
    by (simpl in Di; apply andb_true_iff in Di; tauto).
  unfold parseFloat.
  rewrite <- app_comm_cons.
  rewrite (Js_trimStart_digit d _ Hd).
  rewrite (readSign_digit d _ Hd).
  rewrite (not_Infinity d _ Hd).
  rewrite app_comm_cons.
  rewrite (digitsFrom_run 0 0 (d :: ip) (46%N :: fp ++ g) Di eq_refl).
  rewrite (digitsFrom_run _ 0 fp g Df (endsLiteral_noDigit g G)).
  rewrite (readExponent_none g G).
  simpl length. simpl Nat.add. cbv iota beta. reflexivity.
Qed.

Lemma parseFloat_ignores_trailing (d : Js.char) (ip fp g : Js.str) :
  forallb isDigit (d :: ip) = true ->
  forallb isDigit fp = true ->
  endsLiteral g = true ->
  parseFloat ((d :: ip) ++ 46%N :: fp ++ g)
  = parseFloat ((d :: ip) ++ 46%N :: fp).
Proof.
  intros Di Df G.
  rewrite (parseFloat_decimal d ip fp g Di Df G).
  pose proof (parseFloat_decimal d ip fp [] Di Df eq_refl) as E.
  rewrite app_nil_r in E. symmetry. exact E.
Qed.

Lemma ge_nan (a b : number) : isNaN a = true \/ isNaN b = true -> ge a b = false.
Proof.
  intros [H | H]; [destruct a | destruct b]; try discriminate.
  - reflexivity.
  - destruct a; reflexivity.
Qed.

Lemma le_nan (a b : number) : isNaN a = true \/ isNaN b = true -> le a b = false.
Proof.
  intros [H | H]; [destruct a | destruct b]; try discriminate.
  - destruct b; reflexivity.
  - reflexivity.
Qed.

End NumFacts.

(** ** The quote parser *)

Module ParserFacts.
Import Js Stooq JsFacts.

Lemma trim_nil : trim [] = [].
Proof. reflexivity. Qed.

(** The emptiness test of line 39 is a test on the trimmed text. *)
Lemma emptyTest (csv : str) :
  isEmpty csv || (length (trim csv) =? 0)%nat = isEmpty (trim csv).
Proof.
  rewrite length_zero_isEmpty.
  destruct csv; [reflexivity | simpl; reflexivity].
Qed.

Lemma parseQuote_blank (csv : str) :
  trim csv = [] -> parseQuote csv = Err EmptyResponse.
Proof.
  intros E. unfold parseQuote. rewrite emptyTest, E. reflexivity.
Qed.

Lemma parseQuote_lines (csv : str) :
  trim csv <> [] ->
  parseQuote csv =
    if (length (Contract.lines csv) <? 2)%nat then Err MalformedStructure
    else parseHeaderAndRow (nth 0 (Contract.lines csv) [])
                           (nth 1 (Contract.lines csv) []).
Proof.
  intros H. unfold parseQuote. rewrite emptyTest.
  destruct (trim csv) as [|c r] eqn:E; [contradiction|].
  unfold Contract.lines. rewrite E. simpl isEmpty. cbv [throwIf bind orb].
  destruct (length (split LF (c :: r)) <? 2)%nat; reflexivity.
Qed.

Lemma parseQuote_rows (csv l0 l1 : str) (rest : list str) :
  trim csv <> [] ->
  split LF (trim csv) = l0 :: l1 :: rest ->
  parseQuote csv = parseHeaderAndRow l0 l1.
Proof.
  intros H E. rewrite parseQuote_lines by assumption.
  unfold Contract.lines. rewrite E. reflexivity.
Qed.

(** The three tests on an extracted value, on the value itself. *)
Lemma sentinelTest (v : option str) :
  falsy v || equals v NA || lengthIsZero v
  = isEmpty (narrow v) || streq (narrow v) NA.
Proof.
  destruct v as [s|]; [|reflexivity].
  simpl. rewrite length_zero_isEmpty.
  destruct (isEmpty s), (streq s NA); reflexivity.
Qed.

Lemma falsy_narrow (v : option str) : falsy v = isEmpty (narrow v).
Proof. destruct v; reflexivity. Qed.

(** [parseHeaderAndRow] with its tests in the contract's terms. *)
Lemma parseHeaderAndRow_tests (l0 l1 : str) :
  let header := split COMMA l0 in
  let cell name := narrow (optTrim (at_ (split COMMA l1) (indexOf header name))) in
  parseHeaderAndRow l0 l1 =
    if negb (forallb (fun name => existsb (streq name) header) Contract.required)
    then Err MissingColumn
    else if isEmpty (cell (lit "Symbol")) || streq (cell (lit "Symbol")) NA
    then Err InvalidSymbol
    else if isEmpty (cell (lit "Date")) || isEmpty (cell (lit "Time"))
    then Err MissingTimestamp
    else if isEmpty (cell (lit "Close")) || streq (cell (lit "Close")) NA
    then Err MissingPrice
    else if Num.isNaN (Num.parseFloat (cell (lit "Close")))
    then Err InvalidPrice
    else Ok (mkQuote (cell (lit "Symbol")) (cell (lit "Date"))
                     (cell (lit "Time"))
                     (Num.parseFloat (cell (lit "Close")))).
Proof.
  intros header cell. unfold parseHeaderAndRow.
  fold header. rewrite !indexOf_missing, !sentinelTest, !falsy_narrow.
  fold (cell (lit "Symbol")) (cell (lit "Date")) (cell (lit "Time"))
       (cell (lit "Close")).
  unfold Contract.required. cbv [forallb].
  destruct (existsb (streq (lit "Symbol")) header),
           (existsb (streq (lit "Date")) header),
           (existsb (streq (lit "Time")) header),
           (existsb (streq (lit "Close")) header);
    try reflexivity.
  unfold throwIf, bind. simpl negb.
  destruct (isEmpty (cell (lit "Symbol")) || streq (cell (lit "Symbol")) NA);
    [reflexivity|].
  destruct (isEmpty (cell (lit "Date")) || isEmpty (cell (lit "Time")));
    [reflexivity|].
  destruct (isEmpty (cell (lit "Close")) || streq (cell (lit "Close")) NA);
    [reflexivity|].
  destruct (Num.isNaN (Num.parseFloat (cell (lit "Close")))); reflexivity.
Qed.

(** The code and the contract agree on every text. *)
Lemma parseQuote_contract (csv : str) : parseQuote csv = Contract.parse csv.
Proof.
  unfold Contract.parse, Contract.firstFailure, Contract.priority.
  cbv [find]. cbv [Contract.applies].
  destruct (trim csv) as [|c r] eqn:E.
  - rewrite parseQuote_blank by assumption. reflexivity.
  - rewrite parseQuote_lines by congruence. simpl isEmpty. cbv iota.
    destruct (length (Contract.lines csv) <? 2)%nat; [reflexivity|].
    rewrite parseHeaderAndRow_tests. cbv zeta.
    unfold Contract.quoteOf, Contract.field, Contract.hasColumn,
      Contract.headerCells, Contract.dataCells.
    repeat match goal with
           | |- (if ?b then _ else _) = _ => destruct b; [reflexivity|]
           end.
    reflexivity.
Qed.

End ParserFacts.

Module ParserClaims.
Import Js Stooq JsFacts ParserFacts.

(** [find] returns the first element that passes the test. *)
Lemma find_first {A} (f : A -> bool) (l : list A) (x : A) :
  find f l = Some x <->
  exists before after,
    l = before ++ x :: after /\ f x = true
    /\ forall y, In y before -> f y = false.
Proof.
  induction l as [|a l IH]; simpl.
  - split; [discriminate|].
    intros [[|? ?] [after [E _]]]; discriminate.
  - destruct (f a) eqn:Fa; split.
    + intros H; injection H as <-. exists [], l. simpl. tauto.
    + intros [[|y before] [after [E [Fx Hb]]]]; simpl in E; injection E.
      * intros _ <-. reflexivity.
      * intros _ <-. rewrite (Hb a (or_introl eq_refl)) in Fa. discriminate.
    + intros H. apply IH in H. destruct H as [before [after [-> [Fx Hb]]]].
      exists (a :: before), after. simpl. repeat split; auto.
      intros y [<- | Hy]; auto.
    + intros [[|y before] [after [E [Fx Hb]]]]; simpl in E; injection E.
      * intros _ <-. congruence.
      * intros -> <-. apply IH. exists before, after.
        repeat split; auto. intros z Hz. apply Hb. right; assumption.
Qed.

Lemma contract_passes (csv : str) :
  Contract.firstFailure csv = None ->
  forall reason, Contract.applies reason csv = false.
Proof.
  intros H reason.
  apply (find_none _ _ H). destruct reason; simpl; tauto.
Qed.

(** *** C1 *)

(** C1, as stated, fails: a data row whose Close field reads "-1.5"
    parses, and the [close] of the quote is -1.5, which is not greater
    than 0: [close > 0] is false on it, and its exact value is negative. *)
Lemma close_not_always_positive :
  parseQuote Scenario.negativeClose
  = Ok (mkQuote (lit "AAPL.US") (lit "2024-01-02") (lit "16:00:00")
                Scenario.minus1_5)
  /\ Num.gt Scenario.minus1_5 Num.zero = false
  /\ (Num.units Scenario.minus1_5 < 0)%Z
  /\ ~ (forall csv q, parseQuote csv = Ok q -> Num.gt (close q) Num.zero = true).
Proof.
  assert (E : parseQuote Scenario.negativeClose
              = Ok (mkQuote (lit "AAPL.US") (lit "2024-01-02")
                            (lit "16:00:00") Scenario.minus1_5))
    by (vm_compute; reflexivity).
  split; [exact E|]. split; [reflexivity|]. split; [reflexivity|].
  intros H. specialize (H _ _ E). discriminate H.
Qed.

(** C1, amended: for every raw response text on which the parser
    succeeds, the [close] of the returned quote is the number that
    [parseFloat] reads from the trimmed Close field, and it is not
    NaN.  (It may be zero, negative or infinite.) *)
Theorem close_is_a_number (csv : str) (q : Quote) :
  parseQuote csv = Ok q ->
  close q = Num.parseFloat (Contract.field csv (lit "Close"))
  /\ Num.isNaN (close q) = false.
Proof.
  rewrite parseQuote_contract. unfold Contract.parse.
  destruct (Contract.firstFailure csv) eqn:F; [discriminate|].
  intros H; injection H as <-.
  split; [reflexivity|].
  exact (contract_passes csv F InvalidPrice).
Qed.

Lemma close_is_a_number_witness :
  close Scenario.appleQuote
  = Num.parseFloat (Contract.field Scenario.apple (lit "Close"))
  /\ Num.isNaN (close Scenario.appleQuote) = false.
Proof.
  apply (close_is_a_number Scenario.apple Scenario.appleQuote).
  vm_compute. reflexivity.
Defined.

(** *** C2 *)

(** C2, as stated, fails: a body that is a single space is one line,
    and parsing it fails with EmptyResponse, not MalformedStructure. *)
Lemma one_blank_line_is_empty_response :
  length (Contract.lines Scenario.oneSpace) = 1
  /\ parseQuote Scenario.oneSpace = Err EmptyResponse
  /\ ~ (forall csv, length (Contract.lines csv) = 1 ->
                    parseQuote csv = Err MalformedStructure).
Proof.
  split; [reflexivity|]. split; [reflexivity|].
  intros H. specialize (H Scenario.oneSpace eq_refl). discriminate H.
Qed.

(** C2, amended: for every input body that is not blank and contains
    only one line, parsing fails with MalformedStructure, regardless
    of the line's content. *)
Theorem one_line_is_malformed (csv : str) :
  trim csv <> [] ->
  length (Contract.lines csv) = 1 ->
  parseQuote csv = Err MalformedStructure.
Proof.
  intros H L. rewrite parseQuote_lines by assumption.
  rewrite L. reflexivity.
Qed.

Lemma one_line_is_malformed_witness :
  parseQuote (lit "Symbol,Date,Time,Close") = Err MalformedStructure.
Proof.
  apply one_line_is_malformed.
  - vm_compute. discriminate.
  - vm_compute. reflexivity.
Defined.

(** *** C3 *)

(** C3: for every raw response text the parser fails with the first of
    the seven reasons, in the stated priority order, that applies to
    the text, and succeeds when none applies; a body whose header has
    no "Close" cell fails with MissingColumn whatever its data row
    holds; the row "N/A,N/A,N/A,N/A" under a complete header fails
    with InvalidSymbol. *)
Theorem failure_reasons_in_priority_order :
  (forall csv reason,
      parseQuote csv = Err reason <->
      exists before after,
        Contract.priority = before ++ reason :: after
        /\ Contract.applies reason csv = true
        /\ forall earlier, In earlier before ->
                           Contract.applies earlier csv = false)
  /\ (forall csv q,
         parseQuote csv = Ok q <->
         q = Contract.quoteOf csv
         /\ forall reason, Contract.applies reason csv = false)
  /\ (forall csv,
         trim csv <> [] ->
         2 <= length (Contract.lines csv) ->
         ~ In (lit "Close") (Contract.headerCells csv) ->
         parseQuote csv = Err MissingColumn)
  /\ parseQuote Scenario.noCloseColumn = Err MissingColumn
  /\ parseQuote Scenario.unavailable = Err InvalidSymbol.
Proof.
  split; [|split; [|split; [|split]]].
  - intros csv reason. rewrite parseQuote_contract.
    unfold Contract.parse, Contract.firstFailure.
    pose proof (find_first (fun r => Contract.applies r csv)
                           Contract.priority reason) as FF.
    cbv beta in FF. rewrite <- FF.
    destruct (find _ Contract.priority); split; congruence.
  - intros csv q. rewrite parseQuote_contract. unfold Contract.parse.
    destruct (Contract.firstFailure csv) as [r|] eqn:F; split.
    + discriminate.
    + intros [_ H]. apply find_some in F. destruct F as [_ F].
      rewrite H in F. discriminate.
    + intros H; injection H as <-. split; [reflexivity|].
      exact (contract_passes csv F).
    + intros [-> _]. reflexivity.
  - intros csv Hne Hlen Hclose.
    rewrite parseQuote_lines by assumption.
    destruct (Nat.ltb_spec (length (Contract.lines csv)) 2); [lia|].
    rewrite parseHeaderAndRow_tests. cbv zeta.
    fold (Contract.headerCells csv).
    destruct (existsb (streq (lit "Close")) (Contract.headerCells csv)) eqn:E.
    + apply existsb_streq in E. contradiction.
    + unfold Contract.required. cbv [forallb]. rewrite E.
      rewrite !andb_false_r. reflexivity.
  - vm_compute. reflexivity.
  - vm_compute. reflexivity.
Qed.

Lemma failure_reasons_in_priority_order_witness :
  parseQuote Scenario.noCloseColumn = Err MissingColumn.
Proof.
  apply (proj1 (proj2 (proj2 failure_reasons_in_priority_order))).
  - vm_compute. discriminate.
  - vm_compute. lia.
  - rewrite <- existsb_streq. vm_compute. discriminate.
Defined.

(** *** C6 *)

Lemma reaches_header (csv : str) :
  trim csv <> [] ->
  2 <= length (Contract.lines csv) ->
  Contract.applies EmptyResponse csv = false
  /\ Contract.applies MalformedStructure csv = false.
Proof.
  intros Hne Hlen. simpl. split.
  - destruct (trim csv); [contradiction | reflexivity].
  - apply Nat.ltb_ge. assumption.
Qed.

Lemma usable_spec (v : str) :
  Contract.usable v = true -> isEmpty v = false /\ streq v NA = false.
Proof.
  unfold Contract.usable. rewrite andb_true_iff, !negb_true_iff. tauto.
Qed.

(** C6, as stated, fails: under a complete header, the row
    "AAPL.US,2024-01-02,16:00:00,abc" has four non-empty, non-sentinel
    values, and parsing fails with InvalidPrice. *)
Lemma word_close_is_invalid_price :
  Contract.validTwoLineInput Scenario.wordClose = true
  /\ parseQuote Scenario.wordClose = Err InvalidPrice
  /\ ~ (forall csv, Contract.validTwoLineInput csv = true ->
                    exists q, parseQuote csv = Ok q).
Proof.
  assert (V : Contract.validTwoLineInput Scenario.wordClose = true)
    by (vm_compute; reflexivity).
  assert (E : parseQuote Scenario.wordClose = Err InvalidPrice)
    by (vm_compute; reflexivity).
  split; [exact V|]. split; [exact E|].
  intros H. destruct (H _ V) as [q Hq]. rewrite E in Hq. discriminate.
Qed.

(** C6, amended: for every two-line input with a complete header and
    non-sentinel, non-empty field values whose Close text starts with a
    numeric literal ([parseFloat] of it is not NaN), parsing succeeds
    and returns the trimmed Symbol, Date and Time values with [close]
    equal to [parseFloat] of the Close text, the leading-numeric-prefix
    parse; the body "Symbol,Date,Time,Close" followed by
    "AAPL.US,2024-01-02,16:00:00,185.64" yields
    Quote{AAPL.US, 2024-01-02, 16:00:00, 185.64}, and so does the same
    row with the price written "185.64USD". *)
Theorem valid_input_parses :
  (forall csv,
      Contract.validTwoLineInput csv = true ->
      Num.isNaN (Num.parseFloat (Contract.field csv (lit "Close"))) = false ->
      parseQuote csv
      = Ok (mkQuote (Contract.field csv (lit "Symbol"))
                    (Contract.field csv (lit "Date"))
                    (Contract.field csv (lit "Time"))
                    (Num.parseFloat (Contract.field csv (lit "Close")))))
  /\ (forall d ip fp garbage,
         forallb Num.isDigit (d :: ip) = true ->
         forallb Num.isDigit fp = true ->
         Num.endsLiteral garbage = true ->
         Num.parseFloat ((d :: ip) ++ 46%N :: fp ++ garbage)
         = Num.parseFloat ((d :: ip) ++ 46%N :: fp))
  /\ parseQuote Scenario.apple = Ok Scenario.appleQuote
  /\ parseQuote Scenario.trailingGarbage = Ok Scenario.appleQuote.
Proof.
  split; [|split; [exact NumFacts.parseFloat_ignores_trailing|
                   split; vm_compute; reflexivity]].
  intros csv V N. unfold Contract.validTwoLineInput in V.
  rewrite !andb_true_iff, negb_true_iff in V.
  destruct V as [[[Hne Hlen] Hcols] Hvals].
  rewrite parseQuote_contract. unfold Contract.parse, Contract.firstFailure.
  unfold Contract.priority. cbv [find Contract.applies].
  rewrite Hne. apply Nat.eqb_eq in Hlen. rewrite Hlen. simpl Nat.ltb.
  rewrite Hcols. simpl negb.
  unfold Contract.required in Hvals. cbv [forallb] in Hvals.
  rewrite !andb_true_iff in Hvals.
  destruct Hvals as (Hs & Hd & Ht & Hc & _).
  apply usable_spec in Hs, Hd, Ht, Hc.
  destruct Hs as [-> ->], Hd as [-> _], Ht as [-> _], Hc as [-> ->].
  rewrite N. reflexivity.
Qed.

Lemma valid_input_parses_witness :
  parseQuote Scenario.paddedRow = Ok Scenario.appleQuote
  /\ Num.parseFloat (lit "185.64USD") = Num.parseFloat (lit "185.64").
Proof.
  split.
  - apply (proj1 valid_input_parses Scenario.paddedRow);
      vm_compute; reflexivity.
  - apply (proj1 (proj2 valid_input_parses)
                 49%N (lit "85") (lit "64") (lit "USD"));
      reflexivity.
Defined.

(** *** C9 *)

Lemma field_out_of_range (csv name : str) :
  (Z.of_nat (length (Contract.dataCells csv))
   <= indexOf (Contract.headerCells csv) name)%Z ->
  Contract.field csv name = [].
Proof.
  intros H. unfold Contract.field. rewrite at_out_of_range by assumption.
  reflexivity.
Qed.

(** C9: for every input that reaches the data row (not blank, two lines
    or more, complete header) and whose data row is too short to hold
    the cell of a required column, the value of that column is read as
    missing and the parser returns a missing-field failure: InvalidSymbol
    when the column is Symbol; MissingTimestamp when it is Date or Time
    and the symbol passed; MissingPrice when it is Close and symbol,
    date and time passed. *)
Theorem short_row_fails_with_missing_field (csv name : str) :
  trim csv <> [] ->
  2 <= length (Contract.lines csv) ->
  forallb (Contract.hasColumn csv) Contract.required = true ->
  In name Contract.required ->
  (Z.of_nat (length (Contract.dataCells csv))
   <= indexOf (Contract.headerCells csv) name)%Z ->
  Contract.field csv name = []
  /\ (parseQuote csv = Err InvalidSymbol
      \/ parseQuote csv = Err MissingTimestamp
      \/ parseQuote csv = Err MissingPrice)
  /\ (name = lit "Symbol" -> parseQuote csv = Err InvalidSymbol)
  /\ (name = lit "Date" \/ name = lit "Time" ->
      Contract.applies InvalidSymbol csv = false ->
      parseQuote csv = Err MissingTimestamp)
  /\ (name = lit "Close" ->
      Contract.applies InvalidSymbol csv = false ->
      Contract.applies MissingTimestamp csv = false ->
      parseQuote csv = Err MissingPrice).
Proof.
  intros Hne Hlen Hcols Hname Hshort.
  pose proof (field_out_of_range csv name Hshort) as F.
  destruct (reaches_header csv Hne Hlen) as [A1 A2].
  assert (P : parseQuote csv =
              if Contract.applies InvalidSymbol csv then Err InvalidSymbol
              else if Contract.applies MissingTimestamp csv
                   then Err MissingTimestamp
              else if Contract.applies MissingPrice csv then Err MissingPrice
              else if Contract.applies InvalidPrice csv then Err InvalidPrice
              else Ok (Contract.quoteOf csv)).
  { rewrite parseQuote_contract.
    unfold Contract.parse, Contract.firstFailure, Contract.priority.
    cbv [find]. rewrite A1, A2.
    change (Contract.applies MissingColumn csv)
      with (negb (forallb (Contract.hasColumn csv) Contract.required)).
    rewrite Hcols. cbv [negb]. cbv iota.
    destruct (Contract.applies InvalidSymbol csv); [reflexivity|].
    destruct (Contract.applies MissingTimestamp csv); [reflexivity|].
    destruct (Contract.applies MissingPrice csv); [reflexivity|].
    destruct (Contract.applies InvalidPrice csv); reflexivity. }
  split; [exact F|].
  rewrite P. clear P. simpl Contract.applies.
  destruct Hname as [<- | [<- | [<- | [<- | []]]]]; rewrite F; simpl isEmpty;
    rewrite ?orb_true_l, ?orb_true_r;
    destruct (isEmpty (Contract.field csv (lit "Symbol"))
              || streq (Contract.field csv (lit "Symbol")) NA);
    try destruct (isEmpty (Contract.field csv (lit "Date"))
                  || isEmpty (Contract.field csv (lit "Time")));
    repeat split; auto; try discriminate;
    try (intros [H | H]; vm_compute in H; discriminate H);
    try (intros H; vm_compute in H; discriminate H).
Qed.

Lemma short_row_fails_with_missing_field_witness :
  parseQuote Scenario.shortRow = Err MissingPrice.
Proof.
  apply (short_row_fails_with_missing_field Scenario.shortRow (lit "Close")).
  - vm_compute. discriminate.
  - vm_compute. lia.
  - vm_compute. reflexivity.
  - vm_compute. tauto.
  - vm_compute. discriminate.
  - reflexivity.
  - vm_compute. reflexivity.
  - vm_compute. reflexivity.
Defined.

(** *** C10 *)

(** C10, as stated, fails: in the input the Symbol cell of the header
    reads " Symbol", no cell reads exactly "Symbol", and parsing
    succeeds, because the white space that leads the whole body is
    trimmed away before the header is split. *)
Lemma leading_space_before_header_is_accepted :
  2 <= length (Contract.lines Scenario.leadingSpace)
  /\ In (lit " Symbol") (Contract.receivedHeaderCells Scenario.leadingSpace)
  /\ trim (lit " Symbol") = lit "Symbol"
  /\ ~ In (lit "Symbol") (Contract.receivedHeaderCells Scenario.leadingSpace)
  /\ parseQuote Scenario.leadingSpace = Ok Scenario.appleQuote
  /\ ~ (forall csv name cell,
          2 <= length (Contract.lines csv) ->
          In name Contract.required ->
          In cell (Contract.receivedHeaderCells csv) ->
          trim cell = name ->
          ~ In name (Contract.receivedHeaderCells csv) ->
          parseQuote csv = Err MissingColumn).
Proof.
  assert (L : 2 <= length (Contract.lines Scenario.leadingSpace))
    by (vm_compute; lia).
  assert (C : In (lit " Symbol")
                 (Contract.receivedHeaderCells Scenario.leadingSpace))
    by (vm_compute; tauto).
  assert (M : ~ In (lit "Symbol")
                   (Contract.receivedHeaderCells Scenario.leadingSpace))
    by (rewrite <- existsb_streq; vm_compute; discriminate).
  assert (P : parseQuote Scenario.leadingSpace = Ok Scenario.appleQuote)
    by (vm_compute; reflexivity).
  repeat (split; [assumption || reflexivity|]).
  intros H.
  specialize (H Scenario.leadingSpace (lit "Symbol") (lit " Symbol") L
                ltac:(vm_compute; tauto) C eq_refl M).
  rewrite P in H. discriminate H.
Qed.

(** C10, amended: header cells are matched as split from the first line
    of the trimmed body, without trimming the cells themselves.  For
    every input of two lines or more in which a required column name
    occurs in that header only with white space around it (" Close"
    instead of exactly "Close"), parsing fails with MissingColumn;
    data-row values, in contrast, are trimmed.  White space that leads
    the first header cell belongs to the body's own leading white space
    and is removed with it. *)
Theorem padded_header_cell_is_missing_column :
  (forall csv name cell,
      trim csv <> [] ->
      2 <= length (Contract.lines csv) ->
      In name Contract.required ->
      In cell (Contract.headerCells csv) ->
      trim cell = name ->
      ~ In name (Contract.headerCells csv) ->
      parseQuote csv = Err MissingColumn)
  /\ parseQuote Scenario.paddedCloseHeader = Err MissingColumn
  /\ parseQuote Scenario.paddedRow = Ok Scenario.appleQuote.
Proof.
  split; [|split; vm_compute; reflexivity].
  intros csv name cell Hne Hlen Hname _ _ Hmiss.
  rewrite parseQuote_lines by assumption.
  destruct (Nat.ltb_spec (length (Contract.lines csv)) 2); [lia|].
  rewrite parseHeaderAndRow_tests. cbv zeta.
  fold (Contract.headerCells csv).
  assert (E : existsb (streq name) (Contract.headerCells csv) = false).
  { destruct (existsb (streq name) (Contract.headerCells csv)) eqn:E;
      [|reflexivity].
    apply existsb_streq in E. contradiction. }
  unfold Contract.required in *. cbv [forallb].
  destruct Hname as [<- | [<- | [<- | [<- | []]]]]; rewrite E;
    rewrite ?andb_false_r; reflexivity.
Qed.

Lemma padded_header_cell_is_missing_column_witness :
  parseQuote Scenario.paddedCloseHeader = Err MissingColumn.
Proof.
  apply (proj1 padded_header_cell_is_missing_column
               Scenario.paddedCloseHeader (lit "Close") (lit " Close")).
  - vm_compute. discriminate.
  - vm_compute. lia.
  - vm_compute. tauto.
  - vm_compute. tauto.
  - reflexivity.
  - rewrite <- existsb_streq. vm_compute. discriminate.
Defined.

End ParserClaims.

(** ** Which lines the parser reads *)

Module LinesFacts.
Import Js Stooq JsFacts ParserFacts.

Lemma trimEnd_nil_blank (s : str) (c : char) :
  trimEnd s = [] -> In c s -> isWhiteSpace c = true.
Proof.
  induction s as [|x r IH]; simpl; [tauto|].
  destruct (trimEnd r) as [|y r'] eqn:E; [|discriminate].
  destruct (isWhiteSpace x) eqn:W; [|discriminate].
  intros _ [<- | Hin]; auto.
Qed.

Lemma trimEnd_cons_congruence (c : char) (a b : str) :
  trimEnd a = trimEnd b -> trimEnd (c :: a) = trimEnd (c :: b).
Proof. intros E. simpl. rewrite E. reflexivity. Qed.

Section Separator.

(** A separator that [trim] does not strip, as the comma is. *)
Variable sep : char.
Hypothesis sep_kept : isWhiteSpace sep = false.

Lemma blank_without_separator (s : str) : trimEnd s = [] -> split sep s = [s].
Proof.
  intros E. apply split_without. intros Hin.
  rewrite (trimEnd_nil_blank s sep E Hin) in sep_kept. discriminate.
Qed.

(** Trimming the end of a line only touches the end of its last cell. *)
Lemma split_trimEnd (s : str) :
  map trimEnd (split sep (trimEnd s)) = map trimEnd (split sep s).
Proof.
  induction s as [|c r IH]; [reflexivity|].
  destruct (trimEnd r) as [|y r'] eqn:E.
  - simpl split at 2. rewrite (blank_without_separator r E).
    destruct (c =? sep)%N eqn:C.
    + apply N.eqb_eq in C. subst c.
      simpl trimEnd. rewrite E, sep_kept. simpl. rewrite N.eqb_refl.
      simpl. rewrite E. reflexivity.
    + assert (S1 : split sep (trimEnd (c :: r)) = [trimEnd (c :: r)]).
      { simpl trimEnd. rewrite E.
        destruct (isWhiteSpace c); simpl; [reflexivity|].
        rewrite C. reflexivity. }
      rewrite S1. cbn [map]. rewrite trimEnd_idempotent. reflexivity.
  - assert (T : trimEnd (c :: r) = c :: trimEnd r)
      by (simpl; rewrite E; reflexivity).
    rewrite T. rewrite <- E in IH. clear E T. cbn [split].
    destruct (c =? sep)%N.
    + cbn [map]. f_equal. exact IH.
    + destruct (split sep (trimEnd r)) as [|h' t'] eqn:S1;
        [exfalso; exact (split_nonempty _ _ S1)|].
      destruct (split sep r) as [|h t] eqn:S2;
        [exfalso; exact (split_nonempty _ _ S2)|].
      cbn [map] in *. injection IH as Hh Ht.
      rewrite Ht. f_equal. apply trimEnd_cons_congruence. exact Hh.
Qed.

Lemma split_trim_cells (s : str) :
  map trim (split sep (trimEnd s)) = map trim (split sep s).
Proof.
  unfold trim. rewrite <- !(map_map trimEnd trimStart).
  rewrite split_trimEnd. reflexivity.
Qed.

End Separator.

(** The data line is read through its trimmed cells only. *)
Lemma parseHeaderAndRow_cells (l0 l1 l1' : str) :
  map trim (split COMMA l1) = map trim (split COMMA l1') ->
  parseHeaderAndRow l0 l1 = parseHeaderAndRow l0 l1'.
Proof.
  intros E. unfold parseHeaderAndRow, optTrim.
  rewrite <- !at_map. rewrite E. reflexivity.
Qed.

Lemma split_single_empty (sep : char) (s : str) :
  firstn 2 (split sep s) = [[]] -> s = [].
Proof.
  destruct (split sep s) as [|a [|b rest]] eqn:E; simpl; try discriminate.
  intros H; injection H as ->.
  destruct (split_inv _ _ _ _ E) as [_ [[_ ->] | [s' [_ Hs]]]];
    [reflexivity | exfalso; exact (split_nonempty _ _ Hs)].
Qed.

Lemma lines_of_blank (csv : str) : trim csv = [] -> Contract.lines csv = [[]].
Proof. intros E. unfold Contract.lines. rewrite E. reflexivity. Qed.

(** The result is a function of the first two lines of the trimmed text. *)
Lemma parseQuote_first_two (csv csv' : str) :
  firstn 2 (Contract.lines csv) = firstn 2 (Contract.lines csv') ->
  parseQuote csv = parseQuote csv'.
Proof.
  intros H.
  destruct (trim csv) as [|c r] eqn:E; destruct (trim csv') as [|c' r'] eqn:E'.
  - rewrite !parseQuote_blank by assumption. reflexivity.
  - rewrite (lines_of_blank csv E) in H. symmetry in H.
    apply split_single_empty in H. congruence.
  - rewrite (lines_of_blank csv' E') in H.
    apply split_single_empty in H. congruence.
  - rewrite !parseQuote_lines by congruence.
    destruct (Contract.lines csv) as [|l0 [|l1 rest]];
      destruct (Contract.lines csv') as [|l0' [|l1' rest']];
      simpl in H; try discriminate; try reflexivity.
    injection H as -> ->. reflexivity.
Qed.

Lemma parseQuote_trim (csv : str) : parseQuote (trim csv) = parseQuote csv.
Proof.
  apply parseQuote_first_two. unfold Contract.lines.
  rewrite trim_idempotent. reflexivity.
Qed.

(** The text made of a header line and a data line that is not blank:
    trimming it trims the end of the data line and nothing else. *)
Lemma parseQuote_two_lines (c : char) (l0 l1 : str) :
  isWhiteSpace c = false ->
  ~ In LF (c :: l0) ->
  ~ In LF l1 ->
  trim l1 <> [] ->
  parseQuote ((c :: l0) ++ LF :: l1) = parseHeaderAndRow (c :: l0) l1.
Proof.
  intros Hc H0 H1 Hl1.
  pose proof (trim_nonempty_trimEnd l1 Hl1) as Hend.
  assert (T : trim ((c :: l0) ++ LF :: l1) = (c :: l0) ++ LF :: trimEnd l1).
  { unfold trim.
    assert (E : trimEnd (LF :: l1) = LF :: trimEnd l1).
    { simpl. destruct (trimEnd l1); [contradiction | reflexivity]. }
    rewrite trimEnd_app by (rewrite E; discriminate).
    rewrite E. apply (trimStart_fixed c _ Hc). }
  rewrite (parseQuote_rows _ (c :: l0) (trimEnd l1) []).
  - apply parseHeaderAndRow_cells.
    apply split_trim_cells. exact isWhiteSpace_COMMA.
  - rewrite T. discriminate.
  - rewrite T. rewrite split_app by assumption.
    rewrite split_without; [reflexivity|].
    intros Hin. apply H1. exact (trimEnd_incl _ _ Hin).
Qed.

End LinesFacts.

Module LinesClaims.
Import Js Stooq JsFacts ParserFacts LinesFacts.

(** *** C8 *)

(** C8, as stated, fails: with a blank second line the full text is
    parsed with that blank line as its data row (InvalidSymbol), and the
    text made of its first two lines alone is, once trimmed, a single
    line (MalformedStructure). *)
Lemma blank_second_line_counts :
  parseQuote Scenario.blankSecondLine = Err InvalidSymbol
  /\ parseQuote (Contract.firstTwoLines Scenario.blankSecondLine)
     = Err MalformedStructure
  /\ ~ (forall csv, parseQuote csv = parseQuote (Contract.firstTwoLines csv)).
Proof.
  assert (E1 : parseQuote Scenario.blankSecondLine = Err InvalidSymbol)
    by (vm_compute; reflexivity).
  assert (E2 : parseQuote (Contract.firstTwoLines Scenario.blankSecondLine)
               = Err MalformedStructure)
    by (vm_compute; reflexivity).
  split; [exact E1|]. split; [exact E2|].
  intros H. specialize (H Scenario.blankSecondLine).
  rewrite E1, E2 in H. discriminate H.
Qed.

(** C8, amended: for every raw response text only the first and second
    lines of the trimmed text are consulted: two texts that agree on
    these two lines parse to the same result, whatever further lines
    they have; and when the second line is not blank, parsing the full
    text yields the same result as parsing just its first two lines. *)
Theorem further_lines_ignored :
  (forall csv csv',
      firstn 2 (Contract.lines csv) = firstn 2 (Contract.lines csv') ->
      parseQuote csv = parseQuote csv')
  /\ (forall csv,
         (forall l1, nth_error (Contract.lines csv) 1 = Some l1 ->
                     trim l1 <> []) ->
         parseQuote csv = parseQuote (Contract.firstTwoLines csv)).
Proof.
  split; [exact parseQuote_first_two|].
  intros csv Hsecond. unfold Contract.firstTwoLines.
  destruct (trim csv) as [|c r] eqn:E.
  - rewrite (lines_of_blank csv E). simpl.
    rewrite parseQuote_blank by assumption. reflexivity.
  - pose proof (trim_head csv c r E) as Hc.
    unfold Contract.lines in *. rewrite E in *.
    destruct (split LF (c :: r)) as [|l0 [|l1 rest]] eqn:S.
    + exfalso. exact (split_nonempty _ _ S).
    + destruct (split_inv _ _ _ _ S) as [_ [[_ <-] | [s' [_ Hs]]]];
        [|exfalso; exact (split_nonempty _ _ Hs)].
      simpl. rewrite <- E. symmetry. apply parseQuote_trim.
    + destruct (split_inv _ _ _ _ S) as [H0 [[Hnil _] | [s' [Hs Hrest]]]];
        [discriminate|].
      destruct (split_inv _ _ _ _ Hrest) as [H1 _].
      assert (E0 : exists l0', l0 = c :: l0').
      { destruct l0 as [|x l0']; simpl in Hs; injection Hs as -> _.
        - rewrite isWhiteSpace_LF in Hc. discriminate.
        - exists l0'. reflexivity. }
      destruct E0 as [l0' ->].
      rewrite (parseQuote_rows csv (c :: l0') l1 rest)
        by (rewrite ?E; congruence).
      simpl firstn. change (join LF [c :: l0'; l1])
        with ((c :: l0') ++ LF :: l1).
      symmetry. apply parseQuote_two_lines; auto.
Qed.

Lemma further_lines_ignored_witness :
  let longer :=
    Scenario.apple ++ LF :: lit "MSFT.US,2024-01-02,16:00:00,370.87" in
  parseQuote longer = parseQuote Scenario.apple
  /\ parseQuote longer = parseQuote (Contract.firstTwoLines longer).
Proof.
  intros longer. split.
  - apply (proj1 further_lines_ignored longer Scenario.apple).
    vm_compute. reflexivity.
  - apply (proj2 further_lines_ignored longer).
    intros l1 H. vm_compute in H. injection H as <-.
    vm_compute. discriminate.
Defined.

End LinesClaims.

(** ** The alert loop *)

Module AlertFacts.
Import Js Alert NumFacts.

Lemma fetchCount_app (xs ys : list Event) :
  fetchCount (xs ++ ys) = fetchCount xs + fetchCount ys.
Proof. unfold fetchCount. rewrite filter_app, length_app. reflexivity. Qed.

Section Loop.

Variable config : AlertConfig.

(** A cycle whose outcome does not cross the threshold fetches once and
    goes back to [POLLING] after sleeping the interval. *)
Lemma pollCycle_quiet outcome :
  crosses config outcome = false ->
  snd (pollCycle config outcome) = POLLING
  /\ fetchCount (fst (pollCycle config outcome)) = 1
  /\ exists events,
      fst (pollCycle config outcome) = events ++ [Sleep (intervalMs config)].
Proof.
  destruct outcome as [quote | e]; simpl.
  - intros ->. simpl. repeat split; auto.
    exists [FetchQuote (symbol config); LogPrice quote]. reflexivity.
  - intros _. repeat split; auto.
    exists [FetchQuote (symbol config); LogError e;
            LogRetry (intervalMs config)].
    reflexivity.
Qed.

Lemma pollCycle_crossing quote :
  crosses config (Ok quote) = true ->
  pollCycle config (Ok quote)
  = ([FetchQuote (symbol config); LogPrice quote;
      LogAlert quote (target config); LogTriggeredAt quote], TRIGGERED).
Proof. simpl. intros ->. reflexivity. Qed.

Lemma pollLoop_cons_crossing quote rest :
  crosses config (Ok quote) = true ->
  pollLoop config (Ok quote :: rest)
  = ([FetchQuote (symbol config); LogPrice quote;
      LogAlert quote (target config); LogTriggeredAt quote], TRIGGERED).
Proof.
  intros C. cbn [pollLoop]. rewrite pollCycle_crossing by assumption.
  reflexivity.
Qed.

Lemma pollLoop_cons_quiet outcome rest :
  crosses config outcome = false ->
  pollLoop config (outcome :: rest)
  = (fst (pollCycle config outcome) ++ fst (pollLoop config rest),
     snd (pollLoop config rest)).
Proof.
  intros H. destruct (pollCycle_quiet outcome H) as [S _].
  simpl. destruct (pollCycle config outcome) as [events st].
  simpl in S. subst st.
  destruct (pollLoop config rest); reflexivity.
Qed.

Lemma pollLoop_quiet_prefix before rest :
  quiet config before = true ->
  pollLoop config (before ++ rest)
  = (fst (pollLoop config before) ++ fst (pollLoop config rest),
     snd (pollLoop config rest)).
Proof.
  induction before as [|o before IH]; intros Q.
  - simpl. destruct (pollLoop config rest); reflexivity.
  - simpl in Q. apply andb_true_iff in Q. destruct Q as [Ho Q].
    apply negb_true_iff in Ho.
    rewrite <- app_comm_cons. rewrite !pollLoop_cons_quiet by assumption.
    rewrite (IH Q). simpl. rewrite app_assoc. reflexivity.
Qed.

Lemma pollLoop_quiet outcomes :
  quiet config outcomes = true ->
  snd (pollLoop config outcomes) = POLLING
  /\ fetchCount (fst (pollLoop config outcomes)) = length outcomes.
Proof.
  induction outcomes as [|o rest IH]; intros Q; [split; reflexivity|].
  simpl in Q. apply andb_true_iff in Q. destruct Q as [Ho Q].
  apply negb_true_iff in Ho.
  rewrite pollLoop_cons_quiet by assumption. simpl.
  destruct (IH Q) as [S C]. split; [assumption|].
  rewrite fetchCount_app, C.
  destruct (pollCycle_quiet o Ho) as (_ & -> & _). reflexivity.
Qed.

Lemma pollLoop_triggered outcomes :
  snd (pollLoop config outcomes) = TRIGGERED ->
  exists before quote after,
    outcomes = before ++ Ok quote :: after
    /\ quiet config before = true
    /\ crosses config (Ok quote) = true.
Proof.
  induction outcomes as [|o rest IH]; [discriminate|].
  destruct (crosses config o) eqn:C.
  - intros _. destruct o as [quote | e]; [|discriminate].
    exists [], quote, rest. auto.
  - rewrite pollLoop_cons_quiet by assumption. simpl. intros H.
    destruct (IH H) as (before & quote & after & -> & Q & Cq).
    exists (o :: before), quote, after. repeat split; auto.
    simpl. rewrite C. assumption.
Qed.

Lemma quiet_errors e n :
  quiet config (repeat (Err e) n) = true.
Proof. induction n; simpl; auto. Qed.

End Loop.

End AlertFacts.

Module AlertClaims.
Import Js Alert NumFacts AlertFacts.

(** *** C4 *)

(** C4: for every close price and target price, the threshold predicate
    holds for direction above if and only if close >= target, and for
    direction below if and only if close <= target, in the order of
    IEEE 754; a close equal to the target is crossed for both
    directions.  On binary64 values that are finite this order is the
    order of the exact values; when either is NaN nothing is crossed. *)
Theorem threshold_predicate (closePrice targetPrice : Num.number) :
  (thresholdCrossed above closePrice targetPrice = true
   <-> Num.Ge closePrice targetPrice)
  /\ (thresholdCrossed below closePrice targetPrice = true
      <-> Num.Le closePrice targetPrice)
  /\ (Num.Equal closePrice targetPrice ->
      thresholdCrossed above closePrice targetPrice = true
      /\ thresholdCrossed below closePrice targetPrice = true)
  /\ (Num.valid closePrice -> Num.valid targetPrice ->
      Num.finite closePrice = true -> Num.finite targetPrice = true ->
      (thresholdCrossed above closePrice targetPrice = true
       <-> (Num.units targetPrice <= Num.units closePrice)%Z)
      /\ (thresholdCrossed below closePrice targetPrice = true
          <-> (Num.units closePrice <= Num.units targetPrice)%Z))
  /\ (Num.isNaN closePrice = true \/ Num.isNaN targetPrice = true ->
      thresholdCrossed above closePrice targetPrice = false
      /\ thresholdCrossed below closePrice targetPrice = false).
Proof.
  split; [|split; [|split; [|split]]].
  - apply ge_spec.
  - apply le_spec.
  - intros E. destruct (Equal_Ge_Le _ _ E) as [G L].
    split; [apply ge_spec | apply le_spec]; assumption.
  - intros Vc Vt Fc Ft. simpl. split.
    + rewrite ge_spec. apply Ge_units; assumption.
    + rewrite le_spec. apply Le_units; assumption.
  - intros N. split; [apply ge_nan | apply le_nan]; assumption.
Qed.

Lemma threshold_predicate_witness :
  (thresholdCrossed above (Num.ofZ 100) (Num.ofZ 100) = true
   /\ thresholdCrossed below (Num.ofZ 100) (Num.ofZ 100) = true)
  /\ (thresholdCrossed above (Num.ofZ 99) (Num.ofZ 100) = true
      <-> (Num.units (Num.ofZ 100) <= Num.units (Num.ofZ 99))%Z)
  /\ (thresholdCrossed above Num.NaN (Num.ofZ 100) = false
      /\ thresholdCrossed below Num.NaN (Num.ofZ 100) = false).
Proof.
  split; [|split].
  - apply (proj1 (proj2 (proj2 (threshold_predicate (Num.ofZ 100)
                                                    (Num.ofZ 100))))).
    reflexivity.
  - apply (proj1 (proj2 (proj2 (proj2 (threshold_predicate (Num.ofZ 99)
                                                           (Num.ofZ 100)))))
                 eq_refl eq_refl eq_refl eq_refl).
  - apply (proj2 (proj2 (proj2 (proj2 (threshold_predicate Num.NaN
                                                           (Num.ofZ 100)))))).
    left. reflexivity.
Defined.

(** *** C5 *)

(** C5: for every alert configuration and every sequence of fetch
    outcomes, a cycle whose fetch fails (transport, HTTP status or any
    parse failure) logs the error, sleeps the full interval and is back
    in POLLING; the loop reaches TRIGGERED exactly at the first
    successful quote whose close crosses the threshold, with one fetch
    per outcome up to it and the alert as its last output; as long as no
    outcome crosses it stays in POLLING, however many failures there
    are; with direction below, target 100 and closes 105, 102, 99 it
    triggers on the third observation only; over a transport that
    fails, answers 503, answers a blank body and answers "N/A" before
    it answers a quote above the target, each failure is logged and
    retried and the quote triggers. *)
Theorem alert_loop_runs_until_first_crossing :
  (forall config e,
      pollCycle config (Err e)
      = ([FetchQuote (symbol config); LogError e;
          LogRetry (intervalMs config); Sleep (intervalMs config)],
         POLLING))
  /\ (forall config before quote after,
         quiet config before = true ->
         crosses config (Ok quote) = true ->
         pollLoop config (before ++ Ok quote :: after)
         = (fst (pollLoop config before)
              ++ [FetchQuote (symbol config); LogPrice quote;
                  LogAlert quote (target config); LogTriggeredAt quote],
            TRIGGERED)
         /\ fetchCount (fst (pollLoop config (before ++ Ok quote :: after)))
            = length before + 1)
  /\ (forall config outcomes,
         quiet config outcomes = true ->
         snd (pollLoop config outcomes) = POLLING
         /\ fetchCount (fst (pollLoop config outcomes)) = length outcomes)
  /\ (forall config outcomes,
         snd (pollLoop config outcomes) = TRIGGERED ->
         exists before quote after,
           outcomes = before ++ Ok quote :: after
           /\ quiet config before = true
           /\ crosses config (Ok quote) = true)
  /\ (forall config e n,
         snd (pollLoop config (repeat (Err e) n)) = POLLING
         /\ fetchCount (fst (pollLoop config (repeat (Err e) n))) = n)
  /\ (forall config outcomes,
         validate config = Ok tt ->
         runAlert config outcomes
         = (LogStart config :: fst (pollLoop config outcomes),
            Ok (snd (pollLoop config outcomes))))
  /\ (forall sym interval,
         let config := mkConfig sym (Num.ofZ 100) below interval in
         let quote price :=
           Stooq.mkQuote sym (lit "2024-01-02") (lit "16:00:00")
                         (Num.ofZ price) in
         snd (pollLoop config [observed config 105]) = POLLING
         /\ snd (pollLoop config [observed config 105; observed config 102])
            = POLLING
         /\ pollLoop config [observed config 105; observed config 102;
                             observed config 99]
            = ([FetchQuote sym; LogPrice (quote 105%Z); Sleep interval;
                FetchQuote sym; LogPrice (quote 102%Z); Sleep interval;
                FetchQuote sym; LogPrice (quote 99%Z);
                LogAlert (quote 99%Z) (Num.ofZ 100);
                LogTriggeredAt (quote 99%Z)],
               TRIGGERED))
  /\ runAlertOverNetwork Scenario.watch Scenario.answers
     = (let retry e :=
          [FetchQuote (lit "aapl.us"); LogError e;
           LogRetry (Num.ofZ 10000); Sleep (Num.ofZ 10000)] in
        LogStart Scenario.watch
          :: retry Stooq.NetworkError
          ++ retry (Stooq.HttpError 503)
          ++ retry (Stooq.ParseFailure Stooq.EmptyResponse)
          ++ retry (Stooq.ParseFailure Stooq.InvalidSymbol)
          ++ [FetchQuote (lit "aapl.us"); LogPrice Scenario.appleQuote;
              LogAlert Scenario.appleQuote (Num.ofZ 150);
              LogTriggeredAt Scenario.appleQuote],
        Ok TRIGGERED).
Proof.
  split; [|split; [|split; [|split; [|split; [|split; [|split]]]]]].
  - reflexivity.
  - intros config before quote after Q C.
    rewrite pollLoop_quiet_prefix by assumption.
    rewrite pollLoop_cons_crossing by assumption.
    cbn [fst snd]. split; [reflexivity|].
    rewrite fetchCount_app.
    destruct (pollLoop_quiet config before Q) as [_ ->]. reflexivity.
  - exact pollLoop_quiet.
  - exact pollLoop_triggered.
  - intros config e n.
    destruct (pollLoop_quiet config _ (quiet_errors config e n)) as [S C].
    rewrite repeat_length in C. split; assumption.
  - intros config outcomes V. unfold runAlert. rewrite V.
    destruct (pollLoop config outcomes); reflexivity.
  - intros sym interval. cbv zeta. repeat split; reflexivity.
  - vm_compute. reflexivity.
Qed.

Lemma alert_loop_runs_until_first_crossing_witness :
  let config := Scenario.watch in
  let failures : list (result Stooq.FetchError Stooq.Quote) :=
    [Err Stooq.NetworkError; Err (Stooq.ParseFailure Stooq.InvalidPrice)] in
  (pollLoop config (failures ++ [Ok Scenario.appleQuote])
   = (fst (pollLoop config failures)
        ++ [FetchQuote (symbol config); LogPrice Scenario.appleQuote;
            LogAlert Scenario.appleQuote (target config);
            LogTriggeredAt Scenario.appleQuote],
      TRIGGERED)
   /\ fetchCount (fst (pollLoop config (failures ++ [Ok Scenario.appleQuote])))
      = length failures + 1)
  /\ (snd (pollLoop config failures) = POLLING
      /\ fetchCount (fst (pollLoop config failures)) = length failures)
  /\ (exists before quote after,
         failures ++ [Ok Scenario.appleQuote] = before ++ Ok quote :: after
         /\ quiet config before = true
         /\ crosses config (Ok quote) = true)
  /\ runAlert config failures
     = (LogStart config :: fst (pollLoop config failures),
        Ok (snd (pollLoop config failures))).
Proof.
  intros config failures.
  pose proof alert_loop_runs_until_first_crossing
    as (_ & Hfirst & Hquiet & Hstop & _ & Hrun & _).
  split; [|split; [|split]].
  - apply (Hfirst config failures Scenario.appleQuote []); reflexivity.
  - apply (Hquiet config failures). reflexivity.
  - apply (Hstop config (failures ++ [Ok Scenario.appleQuote])). reflexivity.
  - apply (Hrun config failures). reflexivity.
Defined.

(** *** C7 *)

(** C7: for every configuration with intervalMs <= 0 or target <= 0,
    [runAlert] fails with a configuration error having emitted nothing:
    the loop is not entered and no fetch occurs, whatever the network
    would have answered.  ([<=] is the order of IEEE 754; on a finite
    binary64 value it says that the exact value is at most 0.) *)
Theorem invalid_config_rejected_before_any_fetch :
  (forall config outcomes,
      Num.Le (intervalMs config) Num.zero \/ Num.Le (target config) Num.zero ->
      (exists e, runAlert config outcomes = ([], Err e))
      /\ fetchCount (fst (runAlert config outcomes)) = 0)
  /\ (forall x,
         Num.valid x -> Num.finite x = true ->
         Num.Le x Num.zero <-> (Num.units x <= 0)%Z).
Proof.
  split.
  - intros config outcomes H. unfold runAlert, validate, throwIf, bind.
    destruct (Num.le (intervalMs config) Num.zero) eqn:I.
    + split; [exists IntervalNotPositive|]; reflexivity.
    + destruct (Num.le (target config) Num.zero) eqn:T.
      * split; [exists TargetNotPositive|]; reflexivity.
      * exfalso. destruct H as [H | H]; apply le_spec in H; congruence.
  - intros x V F. exact (Le_units x Num.zero V eq_refl F eq_refl).
Qed.

Lemma invalid_config_rejected_before_any_fetch_witness :
  let config :=
    mkConfig (lit "aapl.us") (Num.ofZ 100) above (Num.ofZ (-1)) in
  ((exists e, runAlert config [Ok Scenario.appleQuote] = ([], Err e))
   /\ fetchCount (fst (runAlert config [Ok Scenario.appleQuote])) = 0)
  /\ (Num.Le (Num.ofZ (-1)) Num.zero <-> (Num.units (Num.ofZ (-1)) <= 0)%Z).
Proof.
  intros config. split.
  - apply (proj1 invalid_config_rejected_before_any_fetch config).
    left. left. reflexivity.
  - apply (proj2 invalid_config_rejected_before_any_fetch (Num.ofZ (-1)));
      reflexivity.
Defined.

End AlertClaims.

(** * Further properties of the code *)

(** ** What a parsed quote looks like *)

Module QuoteFacts.
Import Js Stooq JsFacts ParserFacts ParserClaims.

Lemma trimStart_incl (s : str) (c : char) : In c (trimStart s) -> In c s.
Proof.
  induction s as [|x r IH]; simpl; [tauto|].
  destruct (isWhiteSpace x); simpl; tauto.
Qed.

Lemma trim_incl (s : str) (c : char) : In c (trim s) -> In c s.
Proof. intros H. apply trimEnd_incl, trimStart_incl. exact H. Qed.

Lemma split_cells_incl (sep : char) (s x : str) (c : char) :
  In x (split sep s) -> In c x -> In c s.
Proof.
  revert x. induction s as [|y r IH]; simpl; intros x.
  - intros [<- | []]. tauto.
  - destruct (y =? sep)%N.
    + intros [<- | Hx] Hc; [contradiction | right; exact (IH x Hx Hc)].
    + destruct (split sep r) as [|h t] eqn:S;
        [exfalso; exact (split_nonempty _ _ S)|].
      intros [<- | Hx] Hc.
      * destruct Hc as [-> | Hc]; [left; reflexivity|].
        right. apply (IH h); [left; reflexivity | exact Hc].
      * right. apply (IH x); [right; exact Hx | exact Hc].
Qed.

Lemma at_In {A} (xs : list A) (i : Z) (x : A) : at_ xs i = Some x -> In x xs.
Proof.
  unfold at_. destruct (i <? 0)%Z; [discriminate|]. apply nth_error_In.
Qed.

Lemma nth_lines_In (csv : str) (n : nat) :
  n < length (Contract.lines csv) ->
  In (nth n (Contract.lines csv) []) (Contract.lines csv).
Proof. apply nth_In. Qed.

(** A value read from the data row is empty or the trimmed text of one
    of its cells. *)
Lemma field_cases (csv name : str) :
  Contract.field csv name = []
  \/ exists cell, In cell (Contract.dataCells csv)
                  /\ Contract.field csv name = trim cell.
Proof.
  unfold Contract.field.
  destruct (at_ (Contract.dataCells csv)
                (indexOf (Contract.headerCells csv) name)) as [cell|] eqn:E.
  - right. exists cell. split; [exact (at_In _ _ _ E) | reflexivity].
  - left. reflexivity.
Qed.

Lemma field_clean (csv name : str) :
  2 <= length (Contract.lines csv) ->
  trim (Contract.field csv name) = Contract.field csv name
  /\ ~ In COMMA (Contract.field csv name)
  /\ ~ In LF (Contract.field csv name).
Proof.
  intros L. destruct (field_cases csv name) as [-> | [cell [Hin ->]]].
  - repeat split; simpl; tauto.
  - split; [apply trim_idempotent|]. split.
    + intros H. apply trim_incl in H.
      exact (split_cells_without _ _ _ Hin H).
    + intros H. apply trim_incl in H.
      unfold Contract.dataCells in Hin.
      pose proof (split_cells_incl _ _ _ _ Hin H) as Hline.
      assert (Hl : In (nth 1 (Contract.lines csv) []) (Contract.lines csv))
        by (apply nth_In; lia).
      exact (split_cells_without _ _ _ Hl Hline).
Qed.

Lemma parsed (csv : str) (q : Quote) :
  parseQuote csv = Ok q ->
  q = Contract.quoteOf csv
  /\ (forall reason, Contract.applies reason csv = false).
Proof.
  rewrite parseQuote_contract. unfold Contract.parse.
  destruct (Contract.firstFailure csv) eqn:F; [discriminate|].
  intros H; injection H as <-.
  split; [reflexivity | exact (contract_passes csv F)].
Qed.

Lemma parsed_two_lines (csv : str) (q : Quote) :
  parseQuote csv = Ok q -> 2 <= length (Contract.lines csv).
Proof.
  intros H. destruct (parsed csv q H) as [_ A].
  specialize (A MalformedStructure). simpl in A.
  apply Nat.ltb_ge in A. exact A.
Qed.

Lemma required_field_present (csv : str) (q : Quote) (name : str) :
  parseQuote csv = Ok q ->
  In name Contract.required ->
  Contract.field csv name <> [].
Proof.
  intros H Hn E. destruct (parsed csv q H) as [_ A].
  pose proof (A InvalidSymbol) as S.
  pose proof (A MissingTimestamp) as T.
  pose proof (A MissingPrice) as P.
  simpl in S, T, P. apply orb_false_iff in S, T, P.
  destruct Hn as [<- | [<- | [<- | [<- | []]]]]; rewrite E in *;
    intuition discriminate.
Qed.

(** Whenever the parser succeeds, the symbol, date and time of the
    quote are not empty, and neither the symbol nor the text the close
    was read from is the sentinel "N/A". *)
Theorem quote_fields_present (csv : str) (q : Quote) :
  parseQuote csv = Ok q ->
  symbol q <> [] /\ symbol q <> NA
  /\ date q <> [] /\ time q <> []
  /\ Contract.field csv (lit "Close") <> []
  /\ Contract.field csv (lit "Close") <> NA.
Proof.
  intros H. destruct (parsed csv q H) as [-> A].
  pose proof (A InvalidSymbol) as S.
  pose proof (A MissingTimestamp) as T.
  pose proof (A MissingPrice) as P.
  simpl in S, T, P. apply orb_false_iff in S, T, P.
  destruct S as [S1 S2], T as [T1 T2], P as [P1 P2].
  unfold Contract.quoteOf. simpl.
  repeat split; intros E; rewrite E in *; discriminate.
Qed.

Lemma quote_fields_present_witness :
  symbol Scenario.appleQuote <> [] /\ symbol Scenario.appleQuote <> NA
  /\ date Scenario.appleQuote <> [] /\ time Scenario.appleQuote <> []
  /\ Contract.field Scenario.apple (lit "Close") <> []
  /\ Contract.field Scenario.apple (lit "Close") <> NA.
Proof.
  apply (quote_fields_present Scenario.apple Scenario.appleQuote).
  vm_compute. reflexivity.
Defined.

(** Whenever the parser succeeds, the symbol, date and time of the
    quote carry no white space at either end and hold no comma and no
    line feed. *)
Theorem quote_fields_clean (csv : str) (q : Quote) (f : str) :
  parseQuote csv = Ok q ->
  In f [symbol q; date q; time q] ->
  trim f = f /\ ~ In COMMA f /\ ~ In LF f.
Proof.
  intros H Hf. pose proof (parsed_two_lines csv q H) as L.
  destruct (parsed csv q H) as [-> _].
  unfold Contract.quoteOf in Hf. simpl in Hf.
  destruct Hf as [<- | [<- | [<- | []]]]; apply field_clean; exact L.
Qed.

Lemma quote_fields_clean_witness :
  trim (lit "AAPL.US") = lit "AAPL.US"
  /\ ~ In COMMA (lit "AAPL.US") /\ ~ In LF (lit "AAPL.US").
Proof.
  apply (quote_fields_clean Scenario.paddedRow Scenario.appleQuote).
  - vm_compute. reflexivity.
  - left. reflexivity.
Defined.

End QuoteFacts.

(** ** White space around the body, column lookup, CR LF line ends *)

Module BodyFacts.
Import Js Stooq Csv JsFacts ParserFacts LinesFacts QuoteFacts.

Lemma trimEnd_blank (ws : str) : blank ws = true -> trimEnd ws = [].
Proof.
  induction ws as [|c r IH]; simpl; [reflexivity|].
  rewrite andb_true_iff. intros [Hc Hr]. rewrite (IH Hr), Hc. reflexivity.
Qed.

Lemma blank_trimEnd (s : str) : trimEnd s = [] -> blank s = true.
Proof.
  intros E. apply forallb_forall. intros c Hc.
  exact (trimEnd_nil_blank s c E Hc).
Qed.

Lemma blank_app (a b : str) : blank (a ++ b) = blank a && blank b.
Proof. apply forallb_app. Qed.

Lemma trimEnd_app_blank (s ws : str) :
  blank ws = true -> trimEnd (s ++ ws) = trimEnd s.
Proof.
  intros B. induction s as [|c r IH]; simpl.
  - apply trimEnd_blank. exact B.
  - rewrite IH. reflexivity.
Qed.

Lemma trimStart_app_blank (ws s : str) :
  blank ws = true -> trimStart (ws ++ s) = trimStart s.
Proof.
  induction ws as [|c r IH]; simpl; [reflexivity|].
  rewrite andb_true_iff. intros [-> Hr]. exact (IH Hr).
Qed.

Lemma trim_padded (lead s trail : str) :
  blank lead = true -> blank trail = true ->
  trim (lead ++ s ++ trail) = trim s.
Proof.
  intros Bl Bt. unfold trim.
  rewrite app_assoc, (trimEnd_app_blank _ _ Bt).
  destruct (trimEnd s) as [|c r] eqn:E.
  - assert (B : blank (lead ++ s) = true)
      by (rewrite blank_app, Bl, (blank_trimEnd s E); reflexivity).
    rewrite (trimEnd_blank _ B). reflexivity.
  - rewrite trimEnd_app by (rewrite E; discriminate).
    rewrite E. apply trimStart_app_blank. exact Bl.
Qed.

(** White space before and after the response body, line ends
    included, never changes what the parser returns. *)
Theorem padding_around_body_ignored (lead csv trail : str) :
  blank lead = true -> blank trail = true ->
  parseQuote (lead ++ csv ++ trail) = parseQuote csv.
Proof.
  intros Bl Bt. apply parseQuote_first_two. unfold Contract.lines.
  rewrite (trim_padded lead csv trail Bl Bt). reflexivity.
Qed.

Lemma padding_around_body_ignored_witness :
  parseQuote ([CR; LF; 32%N] ++ Scenario.apple ++ [CR; LF; CR; LF])
  = parseQuote Scenario.apple.
Proof.
  apply padding_around_body_ignored; reflexivity.
Defined.

(** *** Columns are looked up by name *)

Lemma lookup_from (name : str) (header row : list str) (i : Z) :
  (0 <= i)%Z ->
  (if (indexOfFrom name header i <? 0)%Z then None
   else nth_error row (Z.to_nat (indexOfFrom name header i - i)))
  = option_map snd
      (find (fun pair => streq (fst pair) name) (combine header row)).
Proof.
  revert row i. induction header as [|y r IH]; intros row i Hi.
  - reflexivity.
  - simpl indexOfFrom. destruct (streq y name) eqn:E.
    + destruct (Z.ltb_spec i 0); [lia|].
      rewrite Z.sub_diag. destruct row as [|d row]; simpl.
      * reflexivity.
      * rewrite E. reflexivity.
    + destruct row as [|d row].
      * simpl. destruct (indexOfFrom name r (i + 1) <? 0)%Z; [reflexivity|].
        destruct (Z.to_nat _); reflexivity.
      * simpl combine. simpl find. rewrite E.
        rewrite <- (IH row (i + 1)%Z) by lia.
        destruct (indexOfFrom_bounds name r (i + 1) ltac:(lia))
          as [[-> _] | [B _]]; [reflexivity|].
        destruct (Z.ltb_spec (indexOfFrom name r (i + 1)) 0); [lia|].
        replace (Z.to_nat (indexOfFrom name r (i + 1) - i))
          with (S (Z.to_nat (indexOfFrom name r (i + 1) - (i + 1)))) by lia.
        reflexivity.
Qed.

(** [row[header.indexOf(name)]?.trim()] is the association-list lookup
    of [name] in the header paired with the row. *)
Lemma cell_by_name (header row : list str) (name : str) :
  optTrim (at_ row (indexOf header name)) = lookupColumn header row name.
Proof.
  unfold lookupColumn, optTrim, at_, indexOf.
  pose proof (lookup_from name header row 0 ltac:(lia)) as L.
  rewrite Z.sub_0_r in L. rewrite L.
  destruct (find _ (combine header row)); reflexivity.
Qed.

(** Whenever the parser succeeds, each value of the quote is the
    trimmed row cell paired with the first header cell equal to the
    column's name: columns may come in any order, further columns are
    skipped, and a repeated column name never overrides the first. *)
Theorem values_come_from_first_matching_column (csv : str) (q : Quote) :
  parseQuote csv = Ok q ->
  let column :=
    lookupColumn (Contract.headerCells csv) (Contract.dataCells csv) in
  column (lit "Symbol") = Some (symbol q)
  /\ column (lit "Date") = Some (date q)
  /\ column (lit "Time") = Some (time q)
  /\ exists closeText,
      column (lit "Close") = Some closeText
      /\ close q = Num.parseFloat closeText.
Proof.
  intros H column.
  pose proof (required_field_present csv q (lit "Symbol") H
                ltac:(simpl; tauto)) as S.
  pose proof (required_field_present csv q (lit "Date") H
                ltac:(simpl; tauto)) as D.
  pose proof (required_field_present csv q (lit "Time") H
                ltac:(simpl; tauto)) as T.
  pose proof (required_field_present csv q (lit "Close") H
                ltac:(simpl; tauto)) as C.
  destruct (parsed csv q H) as [-> _].
  unfold Contract.quoteOf in *. simpl in *.
  unfold Contract.field in *. unfold column.
  rewrite !cell_by_name in *.
  destruct (lookupColumn _ _ (lit "Symbol")); [|contradiction].
  destruct (lookupColumn _ _ (lit "Date")); [|contradiction].
  destruct (lookupColumn _ _ (lit "Time")); [|contradiction].
  destruct (lookupColumn _ _ (lit "Close")) as [c|]; [|contradiction].
  repeat split. exists c. split; reflexivity.
Qed.

Lemma values_come_from_first_matching_column_witness :
  lookupColumn (Contract.headerCells Scenario.shuffled)
               (Contract.dataCells Scenario.shuffled) (lit "Close")
  = Some (lit "185.64")
  /\ parseQuote Scenario.shuffled = Ok Scenario.appleQuote.
Proof.
  assert (P : parseQuote Scenario.shuffled = Ok Scenario.appleQuote)
    by (vm_compute; reflexivity).
  split; [|exact P].
  destruct (values_come_from_first_matching_column Scenario.shuffled
              Scenario.appleQuote P) as (_ & _ & _ & c & E & _).
  rewrite E. vm_compute in E. exact (eq_sym E).
Defined.

(** *** CR LF line ends *)

(** A code unit does not occur in a given text. *)
Ltac absent_char :=
  let F := fresh "F" in
  intros F; vm_compute in F;
  repeat (destruct F as [F | F]; [discriminate F|]); exact F.

Lemma split_snoc (sep c : char) (s : str) :
  c <> sep ->
  split sep (s ++ [c])
  = removelast (split sep s) ++ [last (split sep s) [] ++ [c]].
Proof.
  intros Hc. induction s as [|x r IH].
  - simpl. destruct (N.eqb_spec c sep); [contradiction | reflexivity].
  - simpl app. simpl split. rewrite IH.
    destruct (split sep r) as [|h t] eqn:S;
      [exfalso; exact (split_nonempty _ _ S)|].
    destruct (x =? sep)%N.
    + reflexivity.
    + destruct t as [|h2 t]; reflexivity.
Qed.

Lemma indexOfFrom_snoc_miss (name y : str) (pre : list str) (i : Z) :
  streq y name = false ->
  indexOfFrom name (pre ++ [y]) i = indexOfFrom name pre i.
Proof.
  intros Hy. revert i. induction pre as [|x pre IH]; intros i; simpl.
  - rewrite Hy. reflexivity.
  - destruct (streq x name); [reflexivity | apply IH].
Qed.

Lemma streq_false (a b : str) : a <> b -> streq a b = false.
Proof.
  intros H. destruct (streq a b) eqn:E; [|reflexivity].
  apply streq_spec in E. contradiction.
Qed.

Lemma required_not_ending_in_CR (name l : str) :
  In name Contract.required -> l ++ [CR] <> name.
Proof.
  intros Hn E. apply (f_equal (fun s => last s 0%N)) in E.
  rewrite last_last in E.
  destruct Hn as [<- | [<- | [<- | [<- | []]]]]; vm_compute in E;
    discriminate E.
Qed.

(** A CR at the end of the header line only touches its last cell. *)
Lemma header_cells_with_CR (h : str) :
  split COMMA (h ++ [CR])
  = removelast (split COMMA h) ++ [last (split COMMA h) [] ++ [CR]].
Proof. apply split_snoc. discriminate. Qed.

Lemma indexOf_header_with_CR (h name : str) :
  In name Contract.required ->
  ~ In (last (split COMMA h) []) Contract.required ->
  indexOf (split COMMA (h ++ [CR])) name = indexOf (split COMMA h) name.
Proof.
  intros Hn Hlast. unfold indexOf. rewrite header_cells_with_CR.
  set (cells := split COMMA h) in *.
  pose proof (app_removelast_last [] (split_nonempty COMMA h)) as EX.
  fold cells in EX.
  transitivity (indexOfFrom name (removelast cells) 0).
  - apply indexOfFrom_snoc_miss. apply streq_false.
    apply required_not_ending_in_CR. exact Hn.
  - symmetry.
    transitivity (indexOfFrom name (removelast cells ++ [last cells []]) 0).
    + f_equal. exact EX.
    + apply indexOfFrom_snoc_miss. apply streq_false.
      intros E. apply Hlast. rewrite E. exact Hn.
Qed.

Lemma parseHeaderAndRow_header_with_CR (h d : str) :
  ~ In (last (split COMMA h) []) Contract.required ->
  parseHeaderAndRow (h ++ [CR]) d = parseHeaderAndRow h d.
Proof.
  intros Hlast. unfold parseHeaderAndRow.
  rewrite !indexOf_header_with_CR by (assumption || (simpl; tauto)).
  reflexivity.
Qed.

(** A body with CR LF line ends is read as the header line with a CR
    at its end, and the data line as it is. *)
Lemma parseQuote_crlf (c : char) (h d : str) :
  isWhiteSpace c = false ->
  ~ In LF (c :: h) ->
  ~ In LF d ->
  trim d <> [] ->
  parseQuote (crlfBody (c :: h) d) = parseHeaderAndRow ((c :: h) ++ [CR]) d.
Proof.
  intros Hc Hh Hd Hne.
  assert (E : crlfBody (c :: h) d
              = [] ++ ((c :: h ++ [CR]) ++ LF :: d) ++ [CR; LF]).
  { unfold crlfBody. simpl. rewrite <- !app_assoc. reflexivity. }
  rewrite E.
  rewrite (parseQuote_first_two _ ((c :: h ++ [CR]) ++ LF :: d))
    by (unfold Contract.lines; rewrite trim_padded; reflexivity).
  rewrite parseQuote_two_lines; auto.
  simpl. intros [F | F]; [apply Hh; left; exact F|].
  apply in_app_or in F. destruct F as [F | [F | []]].
  - apply Hh. right. exact F.
  - discriminate F.
Qed.

Lemma parseQuote_lf (c : char) (h d : str) :
  isWhiteSpace c = false ->
  ~ In LF (c :: h) ->
  ~ In LF d ->
  trim d <> [] ->
  parseQuote (lfBody (c :: h) d) = parseHeaderAndRow (c :: h) d.
Proof. intros. apply parseQuote_two_lines; assumption. Qed.

(** A body sent with CR LF line ends parses to the same result as with
    LF line ends, as long as the last cell of the header is not one of
    the four required columns. *)
Theorem crlf_body_parses_like_lf (c : char) (h d : str) :
  isWhiteSpace c = false ->
  ~ In LF (c :: h) ->
  ~ In LF d ->
  trim d <> [] ->
  ~ In (last (split COMMA (c :: h)) []) Contract.required ->
  parseQuote (crlfBody (c :: h) d) = parseQuote (lfBody (c :: h) d).
Proof.
  intros Hc Hh Hd Hne Hlast.
  rewrite parseQuote_crlf, parseQuote_lf by assumption.
  apply parseHeaderAndRow_header_with_CR. exact Hlast.
Qed.

Lemma crlf_body_parses_like_lf_witness :
  parseQuote (crlfBody Scenario.stooqHeader Scenario.stooqRow)
  = parseQuote (lfBody Scenario.stooqHeader Scenario.stooqRow)
  /\ parseQuote (lfBody Scenario.stooqHeader Scenario.stooqRow)
     = Ok Scenario.appleQuote.
Proof.
  split; [|vm_compute; reflexivity].
  apply (crlf_body_parses_like_lf 83%N (lit "ymbol,Date,Time,Open,High,Low,Close,Volume,Name")
                                  Scenario.stooqRow).
  - reflexivity.
  - absent_char.
  - absent_char.
  - vm_compute. discriminate.
  - rewrite <- existsb_streq. vm_compute. discriminate.
Defined.

(** With CR LF line ends, a header whose last cell is the only one that
    names a required column fails with MissingColumn: the cell is read
    with the CR attached. *)
Theorem crlf_header_ending_in_required_column
        (c : char) (h d name : str) (pre : list str) :
  isWhiteSpace c = false ->
  ~ In LF (c :: h) ->
  ~ In LF d ->
  trim d <> [] ->
  split COMMA (c :: h) = pre ++ [name] ->
  In name Contract.required ->
  ~ In name pre ->
  parseQuote (crlfBody (c :: h) d) = Err MissingColumn.
Proof.
  intros Hc Hh Hd Hne Hcells Hn Hpre.
  rewrite parseQuote_crlf by assumption.
  rewrite parseHeaderAndRow_tests. cbv zeta.
  rewrite header_cells_with_CR, Hcells, removelast_last, last_last.
  assert (E : existsb (streq name) (pre ++ [name ++ [CR]]) = false).
  { destruct (existsb (streq name) (pre ++ [name ++ [CR]])) eqn:E;
      [|reflexivity].
    apply existsb_streq in E. apply in_app_or in E.
    destruct E as [E | [E | []]]; [contradiction|].
    exfalso. exact (required_not_ending_in_CR name name Hn E). }
  unfold Contract.required in *. cbv [forallb].
  destruct Hn as [<- | [<- | [<- | [<- | []]]]]; rewrite E;
    rewrite ?andb_false_r; reflexivity.
Qed.

Lemma crlf_header_ending_in_required_column_witness :
  parseQuote (crlfBody (lit "Symbol,Date,Time,Close")
                       (lit "AAPL.US,2024-01-02,16:00:00,185.64"))
  = Err MissingColumn.
Proof.
  apply (crlf_header_ending_in_required_column
           83%N (lit "ymbol,Date,Time,Close") _ (lit "Close")
           [lit "Symbol"; lit "Date"; lit "Time"]).
  - reflexivity.
  - absent_char.
  - absent_char.
  - vm_compute. discriminate.
  - reflexivity.
  - vm_compute. tauto.
  - rewrite <- existsb_streq. vm_compute. discriminate.
Defined.

End BodyFacts.

(** ** Which price texts are numbers *)

Module PriceFacts.
Import Js Num Stooq Csv JsFacts NumFacts ParserFacts ParserClaims QuoteFacts.

Lemma shr_1_nonneg (mrs : shr_record) :
  (0 <= shr_m mrs)%Z -> (0 <= shr_m (shr_1 mrs))%Z.
Proof.
  destruct mrs as [m r s0]. simpl.
  destruct m as [|[p|p|]|p]; simpl; lia.
Qed.

Lemma iter_pos_preserves {A} (P : A -> Prop) (f : A -> A) :
  (forall x, P x -> P (f x)) ->
  forall n x, P x -> P (iter_pos f n x).
Proof.
  intros Hf. induction n as [n IH | n IH |]; intros x Hx; simpl; auto.
Qed.

Lemma shr_nonneg (mrs : shr_record) (e n : Z) :
  (0 <= shr_m mrs)%Z -> (0 <= shr_m (fst (shr mrs e n)))%Z.
Proof.
  intros H. unfold shr. destruct n; simpl; auto.
  apply (iter_pos_preserves (fun x => 0 <= shr_m x)%Z); auto.
  apply shr_1_nonneg.
Qed.

Lemma shr_fexp_nonneg (m e : Z) (l : location) :
  (0 <= m)%Z -> (0 <= shr_m (fst (shr_fexp prec emax m e l)))%Z.
Proof.
  intros H. unfold shr_fexp. apply shr_nonneg.
  destruct l as [|[| |]]; exact H.
Qed.

Lemma round_nearest_even_nonneg (m : Z) (l : location) :
  (0 <= m)%Z -> (0 <= round_nearest_even m l)%Z.
Proof.
  intros H. destruct l as [|[| |]]; simpl; try lia.
  destruct (Z.even m); lia.
Qed.

(** Rounding a non-negative mantissa gives a zero, a finite number or
    an infinity, never NaN. *)
Lemma binary_round_aux_number (sx : bool) (mx ex : Z) (lx : location) :
  (0 <= mx)%Z -> isNaN (binary_round_aux prec emax sx mx ex lx) = false.
Proof.
  intros H. unfold binary_round_aux.
  pose proof (shr_fexp_nonneg mx ex lx H) as H1.
  destruct (shr_fexp prec emax mx ex lx) as [mrs' e'].
  simpl in H1.
  pose proof (shr_fexp_nonneg _ e' loc_Exact
                (round_nearest_even_nonneg (shr_m mrs')
                   (loc_of_shr_record mrs') H1)) as H2.
  destruct (shr_fexp prec emax _ e' loc_Exact) as [mrs'' e''].
  simpl in H2.
  destruct (shr_m mrs'') as [|p|p]; [reflexivity | | lia].
  destruct (e'' <=? emax - prec)%Z; reflexivity.
Qed.

Lemma binary_round_number (sx : bool) (m : positive) (e : Z) :
  isNaN (binary_round prec emax sx m e) = false.
Proof.
  unfold binary_round.
  destruct (shl_align m e _) as [mz ez].
  apply binary_round_aux_number. lia.
Qed.

Lemma SFdiv_number (sx : bool) (m1 m2 : positive) :
  isNaN (SFdiv prec emax (S754_finite sx m1 0) (S754_finite false m2 0))
  = false.
Proof.
  unfold SFdiv, SFdiv_core_binary.
  match goal with
  | |- context [Z.div_eucl ?a ?b] =>
      assert (Q : (0 <= fst (Z.div_eucl a b))%Z);
      [ change (fst (Z.div_eucl a b)) with (a / b)%Z;
        apply Z.div_pos; [|lia]
      | destruct (Z.div_eucl a b) as [q r] ]
  end.
  - match goal with
    | |- (0 <= match ?s with _ => _ end)%Z => destruct s
    end; try lia.
    apply Z.shiftl_nonneg. lia.
  - simpl in Q. apply binary_round_aux_number. exact Q.
Qed.

Lemma roundDecimal_number (neg : bool) (m : N) (e10 : Z) :
  isNaN (roundDecimal neg m e10) = false.
Proof.
  unfold roundDecimal. destruct m as [|p]; [reflexivity|].
  destruct e10; [apply binary_round_number .. | apply SFdiv_number].
Qed.

(** A run that starts with a digit counts at least one digit; one that
    does not is left where it is. *)
Lemma digitsFrom_count (acc : N) (n : nat) (s : str) :
  n <= snd (fst (digitsFrom acc n s)).
Proof.
  revert acc n. induction s as [|c r IH]; intros acc n; cbn [digitsFrom].
  - simpl. lia.
  - destruct (isDigit c); [|simpl; lia].
    specialize (IH (10 * acc + (c - 48))%N (S n)). lia.
Qed.

Lemma digitsFrom_some (acc : N) (c : char) (r : str) :
  isDigit c = true ->
  exists v k rest, digitsFrom acc 0 (c :: r) = (v, S k, rest).
Proof.
  intros H. cbn [digitsFrom]. rewrite H.
  pose proof (digitsFrom_count (10 * acc + (c - 48))%N 1 r) as C.
  destruct (digitsFrom _ 1 r) as [[v k] rest]. simpl in C.
  destruct k as [|k]; [lia|]. exists v, k, rest. reflexivity.
Qed.

Lemma digitsFrom_none (acc : N) (s : str) :
  noDigitAhead s = true -> digitsFrom acc 0 s = (acc, 0, s).
Proof.
  destruct s as [|c r]; [reflexivity|].
  simpl. intros H. apply negb_true_iff in H. rewrite H. reflexivity.
Qed.

(** [parseFloat] is NaN exactly on the texts that do not start a
    numeric literal. *)
Lemma parseFloat_NaN (s : str) :
  isNaN (parseFloat s) = negb (hasNumericPrefix s).
Proof.
  unfold parseFloat, hasNumericPrefix.
  destruct (readSign (trimStart s)) as [neg r].
  destruct (startsWith (lit "Infinity") r); [reflexivity|].
  rewrite orb_false_l.
  destruct r as [|c r'].
  - reflexivity.
  - destruct (isDigit c) eqn:D.
    + destruct (digitsFrom_some 0 c r' D) as (v & k & rest & ->).
      destruct (match rest with
                | 46%N :: r1' => digitsFrom v 0 r1'
                | _ => (v, 0, rest)
                end) as [[m nf] r2].
      apply roundDecimal_number.
    + rewrite (digitsFrom_none 0 (c :: r')) by (simpl; rewrite D; reflexivity).
      rewrite orb_false_l.
      destruct (N.eqb_spec c 46) as [-> | Hc].
      * destruct r' as [|c' r''].
        -- reflexivity.
        -- simpl andb. destruct (isDigit c') eqn:D'.
           ++ destruct (digitsFrom_some 0 c' r'' D') as (v & k & rest & ->).
              apply roundDecimal_number.
           ++ rewrite (digitsFrom_none 0 (c' :: r''))
                by (simpl; rewrite D'; reflexivity).
              reflexivity.
      * simpl andb. clear D.
        destruct c as [|p]; [reflexivity|].
        do 6 (try (destruct p as [p | p |]; try reflexivity)).
        congruence.
Qed.

Lemma parseQuote_cascade (csv : str) :
  parseQuote csv =
    if Contract.applies EmptyResponse csv then Err EmptyResponse
    else if Contract.applies MalformedStructure csv then Err MalformedStructure
    else if Contract.applies MissingColumn csv then Err MissingColumn
    else if Contract.applies InvalidSymbol csv then Err InvalidSymbol
    else if Contract.applies MissingTimestamp csv then Err MissingTimestamp
    else if Contract.applies MissingPrice csv then Err MissingPrice
    else if Contract.applies InvalidPrice csv then Err InvalidPrice
    else Ok (Contract.quoteOf csv).
Proof.
  rewrite parseQuote_contract.
  unfold Contract.parse, Contract.firstFailure, Contract.priority.
  cbv [find].
  destruct (Contract.applies EmptyResponse csv); [reflexivity|].
  destruct (Contract.applies MalformedStructure csv); [reflexivity|].
  destruct (Contract.applies MissingColumn csv); [reflexivity|].
  destruct (Contract.applies InvalidSymbol csv); [reflexivity|].
  destruct (Contract.applies MissingTimestamp csv); [reflexivity|].
  destruct (Contract.applies MissingPrice csv); [reflexivity|].
  destruct (Contract.applies InvalidPrice csv); reflexivity.
Qed.

(** A Close text is accepted as a price exactly when it starts a
    numeric literal: after an optional sign, "Infinity", a digit, or a
    point and a digit.  A text with anything else in front, a currency
    sign for instance, fails with InvalidPrice, whatever follows. *)
Theorem price_accepted_iff_numeric_prefix :
  (forall csv q,
      parseQuote csv = Ok q ->
      hasNumericPrefix (Contract.field csv (lit "Close")) = true)
  /\ (forall csv,
         parseQuote csv = Err InvalidPrice <->
         (forall reason, reason <> InvalidPrice ->
                         Contract.applies reason csv = false)
         /\ hasNumericPrefix (Contract.field csv (lit "Close")) = false).
Proof.
  split.
  - intros csv q H. destruct (parsed csv q H) as [_ A].
    specialize (A InvalidPrice). simpl in A.
    rewrite parseFloat_NaN in A. apply negb_false_iff in A. exact A.
  - intros csv. rewrite parseQuote_cascade. split.
    + intros H.
      destruct (Contract.applies EmptyResponse csv) eqn:A1; [discriminate|].
      destruct (Contract.applies MalformedStructure csv) eqn:A2;
        [discriminate|].
      destruct (Contract.applies MissingColumn csv) eqn:A3; [discriminate|].
      destruct (Contract.applies InvalidSymbol csv) eqn:A4; [discriminate|].
      destruct (Contract.applies MissingTimestamp csv) eqn:A5;
        [discriminate|].
      destruct (Contract.applies MissingPrice csv) eqn:A6; [discriminate|].
      destruct (Contract.applies InvalidPrice csv) eqn:A7; [|discriminate].
      split.
      * intros [] N; try assumption. contradiction.
      * simpl in A7. rewrite parseFloat_NaN in A7.
        apply negb_true_iff in A7. exact A7.
    + intros [A N].
      rewrite (A EmptyResponse), (A MalformedStructure), (A MissingColumn),
        (A InvalidSymbol), (A MissingTimestamp), (A MissingPrice)
        by discriminate.
      simpl Contract.applies. rewrite parseFloat_NaN, N. reflexivity.
Qed.

Lemma price_accepted_iff_numeric_prefix_witness :
  hasNumericPrefix (Contract.field Scenario.trailingGarbage (lit "Close"))
  = true
  /\ parseQuote Scenario.dollarClose = Err InvalidPrice.
Proof.
  split.
  - apply (proj1 price_accepted_iff_numeric_prefix Scenario.trailingGarbage
                 Scenario.appleQuote).
    vm_compute. reflexivity.
  - apply (proj2 price_accepted_iff_numeric_prefix Scenario.dollarClose).
    split; [|vm_compute; reflexivity].
    intros [] N; try (vm_compute; reflexivity). contradiction.
Defined.

End PriceFacts.

(** ** Further properties of the alert loop *)

Module LoopFacts.
Import Js Alert NumFacts AlertFacts.

(** *** A target or interval that is NaN *)

Lemma crosses_nan_target (config : AlertConfig) outcome :
  Num.isNaN (target config) = true -> crosses config outcome = false.
Proof.
  intros N. destruct outcome as [quote | e]; [|reflexivity].
  simpl. destruct (direction config); simpl;
    [apply ge_nan | apply le_nan]; right; exact N.
Qed.

Lemma quiet_nan_target (config : AlertConfig) outcomes :
  Num.isNaN (target config) = true -> quiet config outcomes = true.
Proof.
  intros N. unfold quiet. apply forallb_forall. intros o _.
  rewrite (crosses_nan_target config o N). reflexivity.
Qed.

(** A target that is NaN passes the validation, and the alert then
    never triggers: whatever quotes arrive, every outcome is consumed
    by one more fetch and the loop is still polling. *)
Theorem nan_target_never_triggers (config : AlertConfig) outcomes :
  Num.isNaN (target config) = true ->
  Num.le (intervalMs config) Num.zero = false ->
  validate config = Ok tt
  /\ runAlert config outcomes
     = (LogStart config :: fst (pollLoop config outcomes), Ok POLLING)
  /\ fetchCount (fst (pollLoop config outcomes)) = length outcomes.
Proof.
  intros N I.
  assert (V : validate config = Ok tt).
  { unfold validate, throwIf, bind. rewrite I.
    rewrite (le_nan (target config) Num.zero (or_introl N)). reflexivity. }
  destruct (pollLoop_quiet config outcomes (quiet_nan_target config outcomes N))
    as [S C].
  split; [exact V|]. split; [|exact C].
  unfold runAlert. rewrite V.
  destruct (pollLoop config outcomes) as [events final].
  simpl in S. rewrite S. reflexivity.
Qed.

Lemma nan_target_never_triggers_witness :
  let config :=
    mkConfig (lit "aapl.us") Num.NaN below (Num.ofZ 10000) in
  validate config = Ok tt
  /\ runAlert config [Ok Scenario.appleQuote; observed config 0]
     = (LogStart config
          :: fst (pollLoop config [Ok Scenario.appleQuote; observed config 0]),
        Ok POLLING)
  /\ fetchCount (fst (pollLoop config
                               [Ok Scenario.appleQuote; observed config 0]))
     = 2.
Proof.
  intros config.
  apply (nan_target_never_triggers config
           [Ok Scenario.appleQuote; observed config 0]); reflexivity.
Defined.

(** *** Fetches are spaced by the interval *)

Section Spacing.

Variable config : AlertConfig.

(** What a cycle emits after its fetch. *)
Lemma pollCycle_shape outcome :
  exists rest,
    fst (pollCycle config outcome) = FetchQuote (symbol config) :: rest
    /\ (forall e, In e rest -> isFetch e = false)
    /\ (snd (pollCycle config outcome) = POLLING ->
        In (Sleep (intervalMs config)) rest).
Proof.
  destruct outcome as [quote | e]; simpl.
  - destruct (thresholdCrossed _ _ _); simpl; eexists; split;
      try reflexivity; split.
    + intros e [<- | [<- | [<- | []]]]; reflexivity.
    + discriminate.
    + intros e [<- | [<- | []]]; reflexivity.
    + intros _. simpl. tauto.
  - eexists. split; [reflexivity|]. split.
    + intros x [<- | [<- | [<- | []]]]; reflexivity.
    + intros _. simpl. tauto.
Qed.

(** A fetch found behind events that are not fetches lies behind all
    of them. *)
Lemma fetch_after_others (s : str) (others a x r : list Event) :
  (forall e, In e others -> isFetch e = false) ->
  a ++ FetchQuote s :: x = others ++ r ->
  exists a', a = others ++ a' /\ r = a' ++ FetchQuote s :: x.
Proof.
  revert a. induction others as [|t tl IH]; intros a Hno E.
  - exists a. split; [reflexivity | symmetry; exact E].
  - destruct a as [|y a]; simpl in E; injection E as Ey E.
    + subst t. specialize (Hno (FetchQuote s) (or_introl eq_refl)).
      discriminate Hno.
    + subst y.
      destruct (IH a (fun e H => Hno e (or_intror H)) E) as [a' [-> ->]].
      exists a'. split; reflexivity.
Qed.

Lemma pollLoop_trace outcome rest :
  fst (pollLoop config (outcome :: rest))
  = fst (pollCycle config outcome)
      ++ match snd (pollCycle config outcome) with
         | POLLING => fst (pollLoop config rest)
         | TRIGGERED => []
         end.
Proof.
  simpl. destruct (pollCycle config outcome) as [events [|]]; simpl.
  - destruct (pollLoop config rest); reflexivity.
  - rewrite app_nil_r. reflexivity.
Qed.

Lemma sleep_between_fetches outcomes :
  forall a b c s s',
    fst (pollLoop config outcomes)
    = a ++ FetchQuote s :: b ++ FetchQuote s' :: c ->
    In (Sleep (intervalMs config)) b.
Proof.
  induction outcomes as [|o rest IH]; intros a b c s s' E.
  - destruct a; discriminate E.
  - rewrite pollLoop_trace in E.
    destruct (pollCycle_shape o) as (tail & Ec & Hno & Hsleep).
    rewrite Ec in E. simpl in E.
    destruct a as [|y a]; simpl in E; injection E as Ey E; symmetry in E.
    + (* the first fetch of the trace *)
      destruct (fetch_after_others s' tail b c _ Hno E) as [b' [-> Er]].
      apply in_or_app. left. apply Hsleep.
      destruct (snd (pollCycle config o)); [reflexivity|].
      destruct b'; discriminate Er.
    + destruct (fetch_after_others s tail a _ _ Hno E) as [a' [-> Er]].
      destruct (snd (pollCycle config o)).
      * exact (IH a' b c s s' Er).
      * destruct a'; discriminate Er.
Qed.

Lemma trace_events outcomes e :
  In e (fst (pollLoop config outcomes)) ->
  (forall s, e = FetchQuote s -> s = symbol config)
  /\ (forall ms, e = Sleep ms -> ms = intervalMs config).
Proof.
  induction outcomes as [|o rest IH]; [intros []|].
  rewrite pollLoop_trace. intros H. apply in_app_or in H.
  destruct H as [H | H].
  - destruct o as [quote | err]; simpl in H;
      [destruct (thresholdCrossed _ _ _); simpl in H|];
      repeat (destruct H as [<- | H]);
      try (split; intros ? Q; inversion Q; reflexivity);
      destruct H.
  - destruct (snd (pollCycle config o)); [exact (IH H) | destruct H].
Qed.

End Spacing.

(** The loop never fetches twice in a row: between any two fetches of
    a run lies a sleep, every sleep lasts the configured interval, and
    every fetch asks for the configured symbol. *)
Theorem fetches_spaced_by_interval (config : AlertConfig) outcomes :
  (forall a b c s s',
      fst (pollLoop config outcomes)
      = a ++ FetchQuote s :: b ++ FetchQuote s' :: c ->
      In (Sleep (intervalMs config)) b)
  /\ (forall s, In (FetchQuote s) (fst (pollLoop config outcomes)) ->
                s = symbol config)
  /\ (forall ms, In (Sleep ms) (fst (pollLoop config outcomes)) ->
                 ms = intervalMs config).
Proof.
  split; [exact (sleep_between_fetches config outcomes)|].
  split.
  - intros s H. exact (proj1 (trace_events config outcomes _ H) s eq_refl).
  - intros ms H. exact (proj2 (trace_events config outcomes _ H) ms eq_refl).
Qed.

Lemma fetches_spaced_by_interval_witness :
  In (Sleep (Num.ofZ 10000))
     [LogError Stooq.NetworkError; LogRetry (Num.ofZ 10000);
      Sleep (Num.ofZ 10000)].
Proof.
  apply (proj1 (fetches_spaced_by_interval Scenario.watch
                  [Err Stooq.NetworkError; Ok Scenario.appleQuote])
               [] _ [LogPrice Scenario.appleQuote;
                     LogAlert Scenario.appleQuote (Num.ofZ 150);
                     LogTriggeredAt Scenario.appleQuote]
               (lit "aapl.us") (lit "aapl.us")).
  reflexivity.
Defined.

End LoopFacts.

(** ** The request URL *)

Module UriFacts.
Import Js Uri JsFacts.

Lemma plain_not_delimiter (c : char) : plain c = true -> delimiter c = false.
Proof.
  intros H. destruct (delimiter c) eqn:D; [exfalso | reflexivity].
  unfold plain, unescaped, isAlnum, delimiter in *. cbn [existsb] in *.
  rewrite !orb_true_iff, !andb_true_iff, !N.eqb_eq, !N.leb_le in *. lia.
Qed.

Lemma hexDigit_plain (n : N) : (n < 16)%N -> plain (hexDigit n) = true.
Proof.
  intros H. unfold plain, unescaped, isAlnum, hexDigit.
  destruct (N.ltb_spec n 10).
  - replace ((48 <=? 48 + n) && (48 + n <=? 57))%N with true; [reflexivity|].
    symmetry. rewrite andb_true_iff, !N.leb_le. lia.
  - replace ((65 <=? 55 + n) && (55 + n <=? 90))%N with true.
    + rewrite orb_true_r. reflexivity.
    + symmetry. rewrite andb_true_iff, !N.leb_le. lia.
Qed.

Lemma percent_plain (octet : N) (c : char) :
  (octet < 256)%N -> In c (percent octet) -> plain c = true.
Proof.
  intros H [<- | [<- | [<- | []]]].
  - reflexivity.
  - apply hexDigit_plain. apply N.Div0.div_lt_upper_bound. lia.
  - apply hexDigit_plain. apply N.mod_lt. lia.
Qed.

Lemma utf8_octets (cp o : N) :
  (cp < 1114112)%N -> In o (utf8 cp) -> (o < 256)%N.
Proof.
  intros H. unfold utf8.
  assert (M : forall x, (x mod 64 < 64)%N) by (intros; apply N.mod_lt; lia).
  destruct (N.ltb_spec cp 128); [intros [<- | []]; lia|].
  destruct (N.ltb_spec cp 2048).
  - assert (cp / 64 < 32)%N by (apply N.Div0.div_lt_upper_bound; lia).
    intros [<- | [<- | []]]; [lia | specialize (M cp); lia].
  - destruct (N.ltb_spec cp 65536).
    + assert (cp / 4096 < 16)%N by (apply N.Div0.div_lt_upper_bound; lia).
      intros [<- | [<- | [<- | []]]];
        [lia | specialize (M (cp / 64)%N); lia | specialize (M cp); lia].
    + assert (cp / 262144 < 5)%N by (apply N.Div0.div_lt_upper_bound; lia).
      intros [<- | [<- | [<- | [<- | []]]]];
        [lia | specialize (M (cp / 4096)%N); lia
         | specialize (M (cp / 64)%N); lia | specialize (M cp); lia].
Qed.

Lemma escape_plain (cp : N) (c : char) :
  (cp < 1114112)%N -> In c (flat_map percent (utf8 cp)) -> plain c = true.
Proof.
  intros H Hin. apply in_flat_map in Hin. destruct Hin as [o [Ho Hc]].
  exact (percent_plain o c (utf8_octets cp o H Ho) Hc).
Qed.

Lemma encode_plain_bounded (n : nat) :
  forall s e,
    length s <= n -> codeUnits s ->
    encodeURIComponent s = Some e ->
    forall c, In c e -> plain c = true.
Proof.
  induction n as [|n IH]; intros s e L U E c Hc.
  - destruct s; [|simpl in L; lia].
    injection E as <-. destruct Hc.
  - destruct s as [|x r]; [injection E as <-; destruct Hc|].
    simpl in L. cbn [encodeURIComponent] in E.
    assert (Ur : codeUnits r) by (intros y Hy; apply U; right; exact Hy).
    destruct (unescaped x) eqn:Ux.
    + destruct (encodeURIComponent r) as [er|] eqn:Er; [|discriminate].
      injection E as <-. destruct Hc as [<- | Hc].
      * unfold plain. rewrite Ux. reflexivity.
      * exact (IH r er ltac:(lia) Ur Er c Hc).
    + destruct (isLeadSurrogate x) eqn:Lx.
      * destruct r as [|x2 r2]; [discriminate|].
        destruct (isTrailSurrogate x2) eqn:Tx; [|discriminate].
        destruct (encodeURIComponent r2) as [er|] eqn:Er; [|discriminate].
        injection E as <-. apply in_app_or in Hc. destruct Hc as [Hc | Hc].
        -- eapply escape_plain; [|exact Hc].
           unfold isLeadSurrogate, isTrailSurrogate in *.
           rewrite andb_true_iff, !N.leb_le in Lx, Tx. lia.
        -- simpl in L.
           apply (IH r2 er ltac:(lia)
                     (fun y Hy => Ur y (or_intror Hy)) Er c Hc).
      * destruct (isTrailSurrogate x); [discriminate|].
        destruct (encodeURIComponent r) as [er|] eqn:Er; [|discriminate].
        injection E as <-. apply in_app_or in Hc. destruct Hc as [Hc | Hc].
        -- apply (escape_plain x c); [|exact Hc].
           specialize (U x (or_introl eq_refl)). lia.
        -- exact (IH r er ltac:(lia) Ur Er c Hc).
Qed.

Lemma encode_unescaped (s : str) :
  forallb unescaped s = true -> encodeURIComponent s = Some s.
Proof.
  induction s as [|c r IH]; [reflexivity|].
  simpl forallb. rewrite andb_true_iff. intros [Hc Hr].
  cbn [encodeURIComponent]. rewrite Hc, (IH Hr). reflexivity.
Qed.

(** The URL [fetchQuote] asks for is the fixed address with the encoded
    symbol as the value of [s]: whatever the symbol, the encoded value
    holds no [&], [=], [#], [?], [/], [+], [:], [;], [@] and no space, so
    a symbol can neither add a query parameter nor change the address;
    a symbol of letters, digits and [- _ . ! ~ * ' ( )] is sent as it is. *)
Theorem request_url_is_safe (symbol url : str) :
  codeUnits symbol ->
  requestUrl symbol = Some url ->
  exists encoded,
    url = lit "https://stooq.com/q/l/?s=" ++ encoded
              ++ lit "&f=sd2t2ohlcvn&h&e=csv"
    /\ (forall c, In c encoded -> delimiter c = false)
    /\ (forallb unescaped symbol = true -> encoded = symbol).
Proof.
  intros U E. unfold requestUrl in E.
  destruct (encodeURIComponent symbol) as [encoded|] eqn:En; [|discriminate].
  injection E as <-. exists encoded. split; [reflexivity|]. split.
  - intros c Hc. apply plain_not_delimiter.
    exact (encode_plain_bounded (length symbol) symbol encoded
             (le_n _) U En c Hc).
  - intros P. rewrite (encode_unescaped symbol P) in En.
    injection En as <-. reflexivity.
Qed.

Lemma request_url_is_safe_witness :
  exists encoded,
    lit "https://stooq.com/q/l/?s=x%26f%3D1&f=sd2t2ohlcvn&h&e=csv"
    = lit "https://stooq.com/q/l/?s=" ++ encoded
          ++ lit "&f=sd2t2ohlcvn&h&e=csv"
    /\ (forall c, In c encoded -> delimiter c = false)
    /\ (forallb unescaped (lit "x&f=1") = true -> encoded = lit "x&f=1").
Proof.
  apply (request_url_is_safe (lit "x&f=1")).
  - intros c H. vm_compute in H.
    repeat (destruct H as [<- | H]; [reflexivity|]). destruct H.
  - reflexivity.
Defined.

End UriFacts.

(** ** The relay *)

Module ServerFacts.
Import Js Stooq Server Csv JsFacts ParserFacts QuoteFacts BodyFacts.

Lemma blank_test (s : str) :
  isEmpty s || (length (trim s) =? 0)%nat = isEmpty (trim s).
Proof. apply emptyTest. Qed.

Lemma fetchQuote_inv (symbol : str) (net : option Response) (q : Quote) :
  fetchQuote symbol net = Ok q ->
  trim symbol <> []
  /\ exists response,
      net = Some response /\ ok response = true
      /\ parseQuote (text response) = Ok q.
Proof.
  unfold fetchQuote, throwIf, bind. rewrite blank_test.
  destruct (trim symbol) eqn:T; [discriminate|]. simpl isEmpty. cbv iota.
  destruct net as [response|]; [|discriminate].
  destruct (ok response) eqn:K; simpl; [|discriminate].
  destruct (parseQuote (text response)) as [q'|e] eqn:P; [|discriminate].
  intros H; injection H as <-. split; [discriminate|].
  exists response. auto.
Qed.

Lemma fetchQuote_trimmed_not_empty (s : str) (net : option Response) :
  trim s <> [] -> fetchQuote (trim s) net <> Err EmptySymbol.
Proof.
  intros H. unfold fetchQuote, throwIf, bind.
  rewrite blank_test, trim_idempotent.
  destruct (trim s) eqn:T; [contradiction|]. simpl isEmpty. cbv iota.
  destruct net as [response|]; [|discriminate].
  destruct (negb (ok response)); [discriminate|].
  destruct (parseQuote (text response)); discriminate.
Qed.

(** The relay answers 400 exactly when the symbol parameter is absent,
    not a string, or blank; otherwise it asks Stooq for the trimmed
    symbol and answers 200 with the quote when [fetchQuote] succeeds and
    502 with the failure when it fails.  It has no other answer. *)
Theorem relay_answers (symbol : QueryValue) (net : option Response) :
  (status (handleQuote symbol net) = 400%N
   <-> forall s, symbol = Text s -> trim s = [])
  /\ (status (handleQuote symbol net) = 200%N
      <-> exists s quote,
          symbol = Text s /\ trim s <> []
          /\ fetchQuote (trim s) net = Ok quote
          /\ body (handleQuote symbol net)
             = QuoteJson (Stooq.symbol quote) (date quote) (time quote)
                         (jsonNumber (close quote)))
  /\ (status (handleQuote symbol net) = 502%N
      <-> exists s e,
          symbol = Text s /\ trim s <> []
          /\ fetchQuote (trim s) net = Err e
          /\ body (handleQuote symbol net) = UpstreamFailureJson e)
  /\ In (status (handleQuote symbol net)) [200; 400; 502]%N.
Proof.
  assert (NoText : forall q : QueryValue,
             (forall s, q <> Text s) ->
             (forall s, q = Text s -> trim s = [])
             /\ ~ (exists s (quote : Quote),
                     q = Text s /\ trim s <> []
                     /\ fetchQuote (trim s) net = Ok quote
                     /\ body (handleQuote q net)
                        = QuoteJson (Stooq.symbol quote) (date quote)
                                    (time quote) (jsonNumber (close quote)))
             /\ ~ (exists s e,
                     q = Text s /\ trim s <> []
                     /\ fetchQuote (trim s) net = Err e
                     /\ body (handleQuote q net) = UpstreamFailureJson e)).
  { intros q H. split; [|split].
    - intros s E. destruct (H s E).
    - intros (s & x & E & _). exact (H s E).
    - intros (s & x & E & _). exact (H s E). }
  destruct symbol as [|s|]; cbn [handleQuote].
  - destruct (NoText Absent ltac:(discriminate)) as (A & B & C).
    cbn [status].
    split; [split; auto|]. split; [split; [discriminate | tauto]|].
    split; [split; [discriminate | tauto]|]. simpl; auto.
  - rewrite blank_test.
    destruct (trim s) as [|c r] eqn:T; simpl isEmpty; cbv iota.
    + cbn [status]. split; [split; auto|].
      { intros _ s' E. injection E as <-. exact T. }
      split; [split; [discriminate|]|].
      { intros (s' & x & E & N & _). injection E as <-. contradiction. }
      split; [split; [discriminate|]|].
      { intros (s' & x & E & N & _). injection E as <-. contradiction. }
      simpl; auto.
    + rewrite <- T.
      assert (N : trim s <> []) by (rewrite T; discriminate).
      destruct (fetchQuote (trim s) net) as [quote|e] eqn:F; cbn [status body].
      * split; [split; [discriminate|]|].
        { intros H. specialize (H s eq_refl). contradiction. }
        split; [split; auto|].
        { intros _. exists s, quote. auto. }
        split; [split; [discriminate|]|].
        { intros (s' & x & E & _ & F' & _). injection E as <-. congruence. }
        simpl; auto.
      * split; [split; [discriminate|]|].
        { intros H. specialize (H s eq_refl). contradiction. }
        split; [split; [discriminate|]|].
        { intros (s' & x & E & _ & F' & _). injection E as <-. congruence. }
        split; [split; auto|].
        { intros _. exists s, e. auto. }
        simpl; auto.
  - destruct (NoText Structured ltac:(discriminate)) as (A & B & C).
    cbn [status].
    split; [split; auto|]. split; [split; [discriminate | tauto]|].
    split; [split; [discriminate | tauto]|]. simpl; auto.
Qed.

Lemma relay_answers_witness :
  status (handleQuote Structured (Some (mkResponse true 200 Scenario.apple)))
  = 400%N
  /\ In (status (handleQuote (Text (lit " aapl.us "))
                             (Some (mkResponse true 200 Scenario.apple))))
        [200; 400; 502]%N.
Proof.
  split.
  - apply (proj1 (relay_answers Structured _)). intros s E. discriminate E.
  - apply (proj2 (proj2 (proj2 (relay_answers _ _)))).
Defined.

(** The relay never reports "Symbol cannot be empty": a symbol that
    reaches [fetchQuote] has been trimmed and is not blank, so the
    emptiness check of [fetchQuote] cannot fire behind the relay. *)
Theorem relay_never_reports_empty_symbol
        (symbol : QueryValue) (net : option Response) :
  body (handleQuote symbol net) <> UpstreamFailureJson EmptySymbol.
Proof.
  destruct symbol as [|s|]; cbn [handleQuote]; try discriminate.
  rewrite blank_test.
  destruct (trim s) as [|c r] eqn:T; simpl isEmpty; cbv iota;
    [discriminate|].
  rewrite <- T.
  pose proof (fetchQuote_trimmed_not_empty s net
                ltac:(rewrite T; discriminate)) as N.
  destruct (fetchQuote (trim s) net) as [quote|e]; simpl; [discriminate|].
  intros E. injection E as ->. contradiction.
Qed.

(** White space around the symbol parameter makes no difference to the
    relay's answer. *)
Theorem relay_ignores_padding
        (lead s trail : str) (net : option Response) :
  blank lead = true -> blank trail = true ->
  handleQuote (Text (lead ++ s ++ trail)) net = handleQuote (Text s) net.
Proof.
  intros Bl Bt. cbn [handleQuote]. rewrite !blank_test.
  rewrite (trim_padded lead s trail Bl Bt). reflexivity.
Qed.

Lemma relay_ignores_padding_witness :
  handleQuote (Text (lit "  " ++ lit "aapl.us" ++ [CR; LF]))
              (Some (mkResponse true 200 Scenario.apple))
  = handleQuote (Text (lit "aapl.us"))
                (Some (mkResponse true 200 Scenario.apple)).
Proof.
  apply relay_ignores_padding; reflexivity.
Defined.

(** A 200 answer of the relay carries a non-empty symbol, date and
    time, and a close that is a finite number or [null]: [null] stands
    for a price text that overflowed to an infinity, and NaN is never
    sent. *)
Theorem relay_quote_document
        (symbol : QueryValue) (net : option Response)
        (sym date time : str) (closeJson : option Num.number) :
  body (handleQuote symbol net) = QuoteJson sym date time closeJson ->
  sym <> [] /\ date <> [] /\ time <> []
  /\ (forall x, closeJson = Some x -> Num.finite x = true)
  /\ (closeJson = None ->
      exists response sign quote,
        net = Some response
        /\ parseQuote (text response) = Ok quote
        /\ close quote = S754_infinity sign).
Proof.
  destruct symbol as [|s|]; cbn [handleQuote]; try discriminate.
  rewrite blank_test.
  destruct (trim s) as [|c r] eqn:T; simpl isEmpty; cbv iota;
    [discriminate|].
  rewrite <- T.
  destruct (fetchQuote (trim s) net) as [quote|e] eqn:F; simpl;
    [|discriminate].
  intros E. injection E as <- <- <- <-.
  destruct (fetchQuote_inv _ _ _ F) as (_ & response & -> & _ & P).
  pose proof (required_field_present _ _ (lit "Symbol") P
                ltac:(simpl; tauto)) as S1.
  pose proof (required_field_present _ _ (lit "Date") P
                ltac:(simpl; tauto)) as D1.
  pose proof (required_field_present _ _ (lit "Time") P
                ltac:(simpl; tauto)) as T1.
  destruct (parsed _ _ P) as [Eq A].
  pose proof (A InvalidPrice) as NN. simpl in NN.
  assert (C : close quote
              = Num.parseFloat (Contract.field (text response) (lit "Close")))
    by (rewrite Eq; reflexivity).
  rewrite <- C in NN.
  split; [rewrite Eq; exact S1|].
  split; [rewrite Eq; exact D1|].
  split; [rewrite Eq; exact T1|].
  unfold jsonNumber.
  destruct (close quote) as [sg|sg| |sg m e] eqn:Cq; try discriminate NN.
  - split; [|discriminate]. intros x H. injection H as <-. reflexivity.
  - split; [discriminate|]. intros _. exists response, sg, quote. auto.
  - split; [|discriminate]. intros x H. injection H as <-. reflexivity.
Qed.

Lemma relay_quote_document_witness :
  lit "AAPL.US" <> [] /\ lit "2024-01-02" <> [] /\ lit "16:00:00" <> []
  /\ (forall x, Some Scenario.n185_64 = Some x -> Num.finite x = true)
  /\ (Some Scenario.n185_64 = None ->
      exists response sign quote,
        Some (mkResponse true 200 Scenario.apple) = Some response
        /\ parseQuote (text response) = Ok quote
        /\ close quote = S754_infinity sign).
Proof.
  apply (relay_quote_document (Text (lit "aapl.us"))).
  reflexivity.
Defined.

End ServerFacts.

(** ** Rounding never loses a positive number *)

Module RoundingFacts.
Import Num NumFacts Arith.
Local Open Scope Z_scope.

Lemma shr_1_half (mrs : shr_record) :
  0 <= shr_m mrs -> shr_m (shr_1 mrs) = shr_m mrs / 2.
Proof.
  destruct mrs as [m r s0]. simpl.
  destruct m as [|[p|p|]|p]; cbn [shr_m]; intros H;
    try reflexivity; try lia.
  - apply Z.div_unique with (r := 1); lia.
  - apply Z.div_unique with (r := 0); lia.
Qed.

(** Shifting right by [p] places divides the mantissa by [2^p]. *)
Lemma iter_shr_1 (p : positive) :
  forall mrs, 0 <= shr_m mrs ->
              shr_m (iter_pos shr_1 p mrs) = shr_m mrs / 2 ^ Zpos p.
Proof.
  assert (N : forall m k, 0 <= m -> 0 <= m / 2 ^ Zpos k).
  { intros m k H. apply Z.div_pos; [exact H|]. apply Z.pow_pos_nonneg; lia. }
  induction p as [p IH | p IH |]; intros mrs H; cbn [iter_pos].
  - rewrite IH, IH, shr_1_half by
      (try rewrite IH; try rewrite shr_1_half; try apply N;
       try apply Z.div_pos; lia).
    rewrite !Z.div_div by (try apply Z.pow_pos_nonneg; lia).
    f_equal. replace (Zpos p~1) with (1 + Zpos p + Zpos p) by lia.
    rewrite !Z.pow_add_r by lia. lia.
  - rewrite IH, IH by (try rewrite IH; try apply N; lia).
    rewrite !Z.div_div by (try apply Z.pow_pos_nonneg; lia).
    f_equal. replace (Zpos p~0) with (Zpos p + Zpos p) by lia.
    rewrite !Z.pow_add_r by lia. lia.
  - rewrite shr_1_half by exact H. reflexivity.
Qed.

Lemma shr_record_of_loc_m (m : Z) (l : location) :
  shr_m (shr_record_of_loc m l) = m.
Proof. destruct l as [|[| |]]; reflexivity. Qed.

(** The exponent a shift to the format ends with is one of the
    format's. *)
Lemma shr_fexp_exponent (m e : Z) (l : location) :
  -1074 <= snd (shr_fexp prec emax m e l).
Proof.
  unfold shr_fexp, shr, fexp, emin, prec, emax.
  destruct (Z.max (Zdigits2 m + e - 53) (3 - 1024 - 53) - e) eqn:N;
    cbn [snd]; lia.
Qed.

(** A mantissa worth at least the smallest positive number is not
    shifted away. *)
Lemma shr_fexp_positive (m : positive) (e : Z) (l : location) :
  -1073 <= Zdigits2 (Zpos m) + e ->
  0 < shr_m (fst (shr_fexp prec emax (Zpos m) e l)).
Proof.
  intros H. unfold shr_fexp, shr.
  destruct (fexp prec emax (Zdigits2 (Zpos m) + e) - e) as [|n|n] eqn:N;
    cbn [fst]; rewrite ?shr_record_of_loc_m; try lia.
  rewrite iter_shr_1 by (rewrite shr_record_of_loc_m; lia).
  rewrite shr_record_of_loc_m.
  apply Z.div_str_pos. split; [apply Z.pow_pos_nonneg; lia|].
  pose proof (digits2_pos_bounds m) as B.
  cbn [Zdigits2] in H, N.
  transitivity (2 ^ (Zpos (digits2_pos m) - 1)); [|lia].
  apply Z.pow_le_mono_r; [lia|].
  unfold fexp, emin, prec, emax in N. lia.
Qed.

Lemma round_nearest_even_grows (m : Z) (l : location) :
  m <= round_nearest_even m l.
Proof.
  destruct l as [|[| |]]; simpl; try lia.
  destruct (Z.even m); lia.
Qed.

Lemma binary_round_aux_scaled (sx : bool) (mx ex : Z) (lx : location) :
  scaled (binary_round_aux prec emax sx mx ex lx).
Proof.
  unfold binary_round_aux.
  destruct (shr_fexp prec emax mx ex lx) as [mrs' e'].
  pose proof (shr_fexp_exponent
                (round_nearest_even (shr_m mrs') (loc_of_shr_record mrs'))
                e' loc_Exact) as E.
  destruct (shr_fexp prec emax _ e' loc_Exact) as [mrs'' e''].
  cbn [snd] in E.
  destruct (shr_m mrs''); try exact I.
  destruct (e'' <=? emax - prec); [exact E | exact I].
Qed.

(** Rounding a positive mantissa worth at least the smallest positive
    number gives a positive number or the positive infinity: it does
    not underflow to zero. *)
Lemma binary_round_aux_positive (m : positive) (e : Z) :
  -1073 <= Zdigits2 (Zpos m) + e ->
  gt (binary_round_aux prec emax false (Zpos m) e loc_Exact) zero = true.
Proof.
  intros H. unfold binary_round_aux.
  pose proof (shr_fexp_positive m e loc_Exact H) as P1.
  pose proof (shr_fexp_exponent (Zpos m) e loc_Exact) as E1.
  destruct (shr_fexp prec emax (Zpos m) e loc_Exact) as [mrs' e'].
  cbn [fst snd] in P1, E1.
  pose proof (round_nearest_even_grows (shr_m mrs') (loc_of_shr_record mrs'))
    as G.
  destruct (round_nearest_even (shr_m mrs') (loc_of_shr_record mrs'))
    as [|m1|m1] eqn:R; try lia.
  assert (H1 : -1073 <= Zdigits2 (Zpos m1) + e') by (cbn [Zdigits2]; lia).
  pose proof (shr_fexp_positive m1 e' loc_Exact H1) as P2.
  destruct (shr_fexp prec emax (Zpos m1) e' loc_Exact) as [mrs'' e''].
  cbn [fst] in P2.
  destruct (shr_m mrs''); try lia.
  destruct (e'' <=? emax - prec); reflexivity.
Qed.

(** The numbers above zero. *)
Lemma gt_zero_inv (x : number) :
  gt x zero = true ->
  x = S754_infinity false \/ exists m e, x = S754_finite false m e.
Proof.
  destruct x as [s|[|]| |[|] m e]; try discriminate; eauto.
Qed.

Lemma gt_zero_checks (x : number) :
  isNaN x = false -> le x zero = false -> gt x zero = true.
Proof.
  destruct x as [s|[|]| |[|] m e]; try discriminate; reflexivity.
Qed.

Lemma gt_zero_passes (x : number) :
  gt x zero = true -> isNaN x = false /\ le x zero = false.
Proof.
  destruct x as [s|[|]| |[|] m e]; try discriminate; split; reflexivity.
Qed.

(** Seconds to milliseconds: a positive number of seconds is a positive
    number of milliseconds. *)
Lemma times_1000_positive (x : number) :
  scaled x -> gt x zero = true -> gt (times x (ofZ 1000)) zero = true.
Proof.
  intros S P.
  change (ofZ 1000) with (S754_finite false 8796093022208000 (-43)).
  destruct (gt_zero_inv x P) as [-> | (m & e & ->)]; [reflexivity|].
  simpl in S. unfold times. cbn [SFmul xorb].
  apply binary_round_aux_positive.
  cbn [Zdigits2].
  pose proof (digits2_pos_bounds (m * 8796093022208000)) as B.
  assert (53 <= Zpos (digits2_pos (m * 8796093022208000))).
  { destruct (Z.le_gt_cases 53 (Zpos (digits2_pos (m * 8796093022208000))))
      as [L | L]; [exact L | exfalso].
    assert (2 ^ Zpos (digits2_pos (m * 8796093022208000)) <= 2 ^ 52)
      by (apply Z.pow_le_mono_r; lia).
    rewrite Pos2Z.inj_mul in B.
    change (2 ^ 52) with 4503599627370496 in *. lia. }
  lia.
Qed.

Lemma roundDecimal_scaled (neg : bool) (m : N) (e10 : Z) :
  scaled (roundDecimal neg m e10).
Proof.
  unfold roundDecimal. destruct m as [|p]; [exact I|].
  destruct e10.
  - unfold binary_round. destruct (shl_align p 0 _) as [mz ez].
    apply binary_round_aux_scaled.
  - unfold binary_round. destruct (shl_align _ 0 _) as [mz ez].
    apply binary_round_aux_scaled.
  - unfold SFdiv.
    destruct (SFdiv_core_binary _ _ _ _ _ _) as [[mz ez] lz].
    apply binary_round_aux_scaled.
Qed.

Lemma parseFloat_scaled (s : Js.str) : scaled (parseFloat s).
Proof.
  unfold parseFloat.
  destruct (readSign (Js.trimStart s)) as [neg r].
  destruct (startsWith (Js.lit "Infinity") r); [exact I|].
  destruct (digitsFrom 0 0 r) as [[ip ni] r1].
  destruct (match r1 with
            | 46%N :: r1' => digitsFrom ip 0 r1'
            | _ => (ip, 0%nat, r1)
            end) as [[m nf] r2].
  destruct ni, nf; try exact I; apply roundDecimal_scaled.
Qed.

(** *** Rounding gives binary64 values *)

Lemma fexp_eq (k : Z) : fexp prec emax k = Z.max (k - 53) (-1074).
Proof. reflexivity. Qed.

Lemma fexp_mono (a b : Z) : a <= b -> fexp prec emax a <= fexp prec emax b.
Proof. rewrite !fexp_eq. lia. Qed.

Lemma digits_unique (m : positive) (d : Z) :
  2 ^ (d - 1) <= Zpos m < 2 ^ d -> Zpos (digits2_pos m) = d.
Proof.
  intros [L U]. pose proof (digits2_pos_bounds m) as [L' U'].
  destruct (Z.lt_trichotomy (Zpos (digits2_pos m)) d) as [C | [C | C]];
    [exfalso | exact C | exfalso].
  - assert (2 ^ Zpos (digits2_pos m) <= 2 ^ (d - 1))
      by (apply Z.pow_le_mono_r; lia).
    lia.
  - assert (2 ^ d <= 2 ^ (Zpos (digits2_pos m) - 1))
      by (apply Z.pow_le_mono_r; lia).
    lia.
Qed.

Lemma Zdigits2_nonneg (m : Z) : 0 <= Zdigits2 m.
Proof. destruct m; simpl; lia. Qed.

Lemma Zdigits2_bounds (m : Z) :
  0 < m -> 2 ^ (Zdigits2 m - 1) <= m < 2 ^ Zdigits2 m.
Proof.
  destruct m as [|p|p]; try lia. intros _. apply digits2_pos_bounds.
Qed.

Lemma Zdigits2_lower (m k : Z) : 0 <= k -> 2 ^ k <= m -> k < Zdigits2 m.
Proof.
  intros K H.
  assert (0 < m) by (pose proof (Z.pow_pos_nonneg 2 k); lia).
  pose proof (Zdigits2_bounds m H0) as [_ U].
  destruct (Z.lt_ge_cases k (Zdigits2 m)) as [C | C]; [exact C | exfalso].
  assert (2 ^ Zdigits2 m <= 2 ^ k) by (apply Z.pow_le_mono_r; lia).
  lia.
Qed.

Lemma Zdigits2_mono (a b : Z) : 0 <= a <= b -> Zdigits2 a <= Zdigits2 b.
Proof.
  intros [A B]. destruct (Z.eq_dec a 0) as [-> | N].
  - apply Zdigits2_nonneg.
  - pose proof (Zdigits2_bounds a ltac:(lia)) as [L _].
    pose proof (Zdigits2_nonneg a).
    assert (1 <= Zdigits2 a).
    { destruct a; simpl in *; lia. }
    pose proof (Zdigits2_lower b (Zdigits2 a - 1) ltac:(lia) ltac:(lia)).
    lia.
Qed.

Lemma Zdigits2_div (m n : Z) :
  0 < m -> 0 < n -> n < Zdigits2 m ->
  Zdigits2 (m / 2 ^ n) = Zdigits2 m - n.
Proof.
  intros M N D. pose proof (Zdigits2_bounds m M) as [L U].
  assert (P : 0 < 2 ^ n) by (apply Z.pow_pos_nonneg; lia).
  assert (Lq : 2 ^ (Zdigits2 m - n - 1) <= m / 2 ^ n).
  { apply Z.div_le_lower_bound; [exact P|].
    rewrite <- Z.pow_add_r by lia.
    replace (n + (Zdigits2 m - n - 1)) with (Zdigits2 m - 1) by lia.
    exact L. }
  assert (Uq : m / 2 ^ n < 2 ^ (Zdigits2 m - n)).
  { apply Z.div_lt_upper_bound; [exact P|].
    rewrite <- Z.pow_add_r by lia.
    replace (n + (Zdigits2 m - n)) with (Zdigits2 m) by lia.
    exact U. }
  assert (0 < 2 ^ (Zdigits2 m - n - 1)) by (apply Z.pow_pos_nonneg; lia).
  destruct (m / 2 ^ n) as [|q|q] eqn:Q; try lia.
  cbn [Zdigits2]. apply digits_unique. split; [|exact Uq].
  replace (Zdigits2 m - n - 1) with (Zdigits2 m - n - 1) by lia. exact Lq.
Qed.

(** Shifting a mantissa that has at least the digits of the format
    leaves it in canonical form. *)
Lemma shr_fexp_canonical (m e : Z) (l : location) :
  0 <= m -> e <= fexp prec emax (Zdigits2 m + e) ->
  canonical (shr_m (fst (shr_fexp prec emax m e l)))
            (snd (shr_fexp prec emax m e l)).
Proof.
  intros M E. unfold shr_fexp, shr, canonical.
  destruct (fexp prec emax (Zdigits2 m + e) - e) as [|n|n] eqn:N;
    cbn [fst snd]; try lia.
  - rewrite shr_record_of_loc_m. split; [exact M | lia].
  - rewrite iter_shr_1 by (rewrite shr_record_of_loc_m; exact M).
    rewrite shr_record_of_loc_m.
    assert (P : 0 < 2 ^ Zpos n) by (apply Z.pow_pos_nonneg; lia).
    split; [apply Z.div_pos; lia|].
    destruct (Z.lt_ge_cases (Zpos n) (Zdigits2 m)) as [C | C].
    + assert (0 < m) by (destruct m; simpl in C; lia).
      rewrite Zdigits2_div by lia.
      replace (Zdigits2 m - Zpos n + (e + Zpos n)) with (Zdigits2 m + e)
        by lia.
      lia.
    + assert (Q : m / 2 ^ Zpos n = 0).
      { destruct (Z.eq_dec m 0) as [-> | Nz]; [reflexivity|].
        apply Z.div_small. split; [exact M|].
        pose proof (Zdigits2_bounds m ltac:(lia)) as [_ U].
        assert (2 ^ Zdigits2 m <= 2 ^ Zpos n)
          by (apply Z.pow_le_mono_r; lia).
        lia. }
      rewrite Q. cbn [Zdigits2]. rewrite fexp_eq in *. lia.
Qed.

Lemma round_nearest_even_bounds (m : Z) (l : location) :
  m <= round_nearest_even m l <= m + 1.
Proof.
  destruct l as [|[| |]]; simpl; try lia.
  destruct (Z.even m); lia.
Qed.

(** Rounding a mantissa that has at least the digits of the format
    gives a binary64 value. *)
Lemma binary_round_aux_valid (sx : bool) (mx ex : Z) (lx : location) :
  0 <= mx -> ex <= fexp prec emax (Zdigits2 mx + ex) ->
  valid_binary prec emax (binary_round_aux prec emax sx mx ex lx) = true.
Proof.
  intros M E. unfold binary_round_aux.
  pose proof (shr_fexp_canonical mx ex lx M E) as [M1 C1].
  destruct (shr_fexp prec emax mx ex lx) as [mrs' e']. cbn [fst snd] in M1, C1.
  pose proof (round_nearest_even_bounds (shr_m mrs') (loc_of_shr_record mrs'))
    as [R1 R2].
  set (m2 := round_nearest_even (shr_m mrs') (loc_of_shr_record mrs')) in *.
  assert (E2 : e' <= fexp prec emax (Zdigits2 m2 + e')).
  { rewrite <- C1 at 1. apply fexp_mono.
    pose proof (Zdigits2_mono (shr_m mrs') m2 ltac:(lia)). lia. }
  pose proof (shr_fexp_canonical m2 e' loc_Exact ltac:(lia) E2) as [M2 C2].
  destruct (shr_fexp prec emax m2 e' loc_Exact) as [mrs'' e''].
  cbn [fst snd] in M2, C2.
  destruct (shr_m mrs'') as [|m|m]; try reflexivity.
  destruct (e'' <=? emax - prec) eqn:B; [|reflexivity].
  cbn [valid_binary]. unfold bounded, canonical_mantissa.
  cbn [Zdigits2] in C2. rewrite C2, Z.eqb_refl, B. reflexivity.
Qed.

Lemma iter_xO (d m : positive) :
  Zpos (Pos.iter xO m d) = Zpos m * 2 ^ Zpos d.
Proof.
  change (Pos.iter xO m d) with (shift_pos d m).
  rewrite shift_pos_correct, Z.pow_pos_fold. lia.
Qed.

Lemma binary_round_valid (sx : bool) (m : positive) (e : Z) :
  valid_binary prec emax (binary_round prec emax sx m e) = true.
Proof.
  unfold binary_round, shl_align.
  destruct (fexp prec emax (Zpos (digits2_pos m) + e) - e) as [|d|d] eqn:D.
  - apply binary_round_aux_valid; [lia|]. cbn [Zdigits2]. lia.
  - apply binary_round_aux_valid; [lia|]. cbn [Zdigits2]. lia.
  - apply binary_round_aux_valid; [lia|]. cbn [Zdigits2].
    assert (Q : Zpos (digits2_pos (Pos.iter xO m d))
                = Zpos (digits2_pos m) + Zpos d).
    { apply digits_unique. rewrite iter_xO.
      pose proof (digits2_pos_bounds m) as [L U].
      assert (0 < 2 ^ Zpos d) by (apply Z.pow_pos_nonneg; lia).
      replace (Zpos (digits2_pos m) + Zpos d - 1)
        with ((Zpos (digits2_pos m) - 1) + Zpos d) by lia.
      rewrite !Z.pow_add_r by lia. nia. }
    rewrite Q.
    replace (Zpos (digits2_pos m) + Zpos d
             + fexp prec emax (Zpos (digits2_pos m) + e))
      with (Zpos (digits2_pos m) + e) by lia.
    lia.
Qed.

Lemma SFdiv_core_binary_digits (m1 m2 : positive) (e1 e2 : Z) :
  let '(q, e', _) := SFdiv_core_binary prec emax (Zpos m1) e1 (Zpos m2) e2 in
  0 <= q /\ e' <= fexp prec emax (Zdigits2 q + e').
Proof.
  unfold SFdiv_core_binary.
  set (d1 := Zdigits2 (Zpos m1)). set (d2 := Zdigits2 (Zpos m2)).
  set (e' := Z.min (fexp prec emax (d1 + e1 - (d2 + e2))) (e1 - e2)).
  set (s := e1 - e2 - e').
  assert (S0 : 0 <= s) by (unfold s, e'; lia).
  set (m' := match s with
             | 0 => Zpos m1
             | Zpos _ => Z.shiftl (Zpos m1) s
             | Zneg _ => 0
             end).
  assert (Em : m' = Zpos m1 * 2 ^ s).
  { unfold m'. destruct s as [|p|p] eqn:Es; try lia.
    rewrite Z.shiftl_mul_pow2 by lia. reflexivity. }
  pose proof (Z.pow_pos_nonneg 2 s ltac:(lia) S0) as P2.
  assert (Q : fst (Z.div_eucl m' (Zpos m2)) = m' / Zpos m2) by reflexivity.
  destruct (Z.div_eucl m' (Zpos m2)) as [q r]. cbn [fst] in Q. subst q.
  assert (Q0 : 0 <= m' / Zpos m2) by (apply Z.div_pos; nia).
  split; [exact Q0|].
  transitivity (fexp prec emax (d1 + e1 - (d2 + e2))); [unfold e'; lia|].
  apply fexp_mono.
  pose proof (digits2_pos_bounds m1) as [L1 U1].
  pose proof (digits2_pos_bounds m2) as [L2 U2].
  fold (Zdigits2 (Zpos m1)) in L1, U1. fold d1 in L1, U1.
  fold (Zdigits2 (Zpos m2)) in L2, U2. fold d2 in L2, U2.
  assert (D1 : 1 <= d1) by (unfold d1; simpl; lia).
  assert (D2 : 1 <= d2) by (unfold d2; simpl; lia).
  pose proof (Zdigits2_nonneg (m' / Zpos m2)) as Dq.
  destruct (Z.le_gt_cases (d1 - d2 + s) 0) as [K | K].
  { assert (Es : s = e1 - e2 - e') by reflexivity.
    revert Dq K Es. generalize (Zdigits2 (m' / Zpos m2)). intros dq Dq K Es.
    lia. }
  assert (Lq : 2 ^ (d1 - d2 + s - 1) <= m' / Zpos m2).
  { apply Z.div_le_lower_bound; [lia|].
    transitivity (2 ^ d2 * 2 ^ (d1 - d2 + s - 1)).
    - apply Z.mul_le_mono_nonneg_r; [apply Z.pow_nonneg; lia | lia].
    - rewrite <- Z.pow_add_r by lia.
      replace (d2 + (d1 - d2 + s - 1)) with ((d1 - 1) + s) by lia.
      rewrite Z.pow_add_r by lia. rewrite Em. nia. }
  assert (K' : 0 <= d1 - d2 + s - 1) by lia.
  pose proof (Zdigits2_lower _ _ K' Lq) as Hd.
  assert (Es : s = e1 - e2 - e') by reflexivity.
  revert Hd Es. generalize (Zdigits2 (m' / Zpos m2)). intros dq Hd Es. lia.
Qed.

Lemma roundDecimal_valid (neg : bool) (m : N) (e10 : Z) :
  valid (roundDecimal neg m e10).
Proof.
  unfold valid, roundDecimal. destruct m as [|p]; [reflexivity|].
  destruct e10; try apply binary_round_valid.
  unfold SFdiv.
  pose proof (SFdiv_core_binary_digits p (Pos.pow 10 p0) 0 0) as H.
  destruct (SFdiv_core_binary _ _ _ _ _ _) as [[mz ez] lz].
  destruct H as [H0 H1]. apply binary_round_aux_valid; assumption.
Qed.

(** Whatever the text, [parseFloat] gives a binary64 value. *)
Lemma parseFloat_valid (s : Js.str) : valid (parseFloat s).
Proof.
  unfold parseFloat.
  destruct (readSign (Js.trimStart s)) as [neg r].
  destruct (startsWith (Js.lit "Infinity") r); [reflexivity|].
  destruct (digitsFrom 0 0 r) as [[ip ni] r1].
  destruct (match r1 with
            | 46%N :: r1' => digitsFrom ip 0 r1'
            | _ => (ip, 0%nat, r1)
            end) as [[m nf] r2].
  destruct ni, nf; try reflexivity; apply roundDecimal_valid.
Qed.

End RoundingFacts.

(** ** Prices are binary64 values *)

Module ValueFacts.
Import Js Num Stooq Alert Arith JsFacts NumFacts QuoteFacts RoundingFacts.

(** The close of a parsed quote is a binary64 value: its mantissa and
    exponent are in the format's canonical form.  The threshold test on
    it is therefore the comparison of exact values, whenever the close
    and the target are finite. *)
Theorem parsed_close_is_binary64 (csv : str) (q : Quote) :
  parseQuote csv = Ok q ->
  valid (close q)
  /\ forall targetPrice,
      valid targetPrice -> finite targetPrice = true ->
      finite (close q) = true ->
      (thresholdCrossed above (close q) targetPrice = true
       <-> (units targetPrice <= units (close q))%Z)
      /\ (thresholdCrossed below (close q) targetPrice = true
          <-> (units (close q) <= units targetPrice)%Z).
Proof.
  intros P. destruct (parsed csv q P) as [Eq _].
  assert (V : valid (close q)).
  { rewrite Eq. cbn [close Contract.quoteOf]. apply parseFloat_valid. }
  split; [exact V|].
  intros targetPrice Vt Ft Fc. cbn [thresholdCrossed]. split.
  - rewrite ge_spec. apply Ge_units; assumption.
  - rewrite le_spec. apply Le_units; assumption.
Qed.

Lemma parsed_close_is_binary64_witness :
  valid Scenario.n185_64
  /\ forall targetPrice,
      valid targetPrice -> finite targetPrice = true ->
      finite Scenario.n185_64 = true ->
      (thresholdCrossed above Scenario.n185_64 targetPrice = true
       <-> (units targetPrice <= units Scenario.n185_64)%Z)
      /\ (thresholdCrossed below Scenario.n185_64 targetPrice = true
          <-> (units Scenario.n185_64 <= units targetPrice)%Z).
Proof.
  apply (parsed_close_is_binary64 Scenario.apple Scenario.appleQuote).
  vm_compute. reflexivity.
Defined.

End ValueFacts.

(** ** The command line *)

Module CliFacts.
Import Js Num Stooq Alert Arith Cli JsFacts NumFacts RoundingFacts.

(** What a prompt loop returns, and what it has said by then. *)
Lemma promptLoop_returns {A} (body : str -> result Complaint A) :
  forall lines said v rest,
    promptLoop body lines = (said, Some (v, rest)) <->
    exists refused answer,
      lines = refused ++ answer :: rest
      /\ body (trim answer) = Ok v
      /\ map (fun line => body (trim line)) refused = map Err said.
Proof.
  induction lines as [|l lines IH]; intros said v rest; cbn [promptLoop].
  - split; [discriminate|]. intros ([|x refused] & answer & E & _); discriminate.
  - unfold askQuestion. destruct (body (trim l)) as [w | c] eqn:B.
    + split.
      * intros E. injection E as <- <- <-. exists [], l. auto.
      * intros ([|x refused] & answer & E & Ba & M).
        -- injection E as <- <-. destruct said; [|discriminate].
           congruence.
        -- injection E as <- _. destruct said; simpl in M; congruence.
    + destruct (promptLoop body lines) as [said' r] eqn:P. split.
      * intros E. injection E as <- ->.
        destruct (proj1 (IH said' v rest) eq_refl)
          as (refused & answer & -> & Ba & M).
        exists (l :: refused), answer. simpl. rewrite B, M. auto.
      * intros ([|x refused] & answer & E & Ba & M).
        -- injection E as <- <-. congruence.
        -- injection E as <- ->. destruct said as [|c' said]; simpl in M;
             [discriminate|].
           injection M as M0 M. rewrite B in M0. injection M0 as <-.
           assert (Q : (said', r) = (said, Some (v, rest))).
           { apply IH. exists refused, answer. auto. }
           injection Q as -> ->. reflexivity.
Qed.

Lemma promptLoop_waits {A} (body : str -> result Complaint A) :
  forall lines said,
    promptLoop body lines = (said, None) <->
    map (fun line => body (trim line)) lines = map Err said.
Proof.
  induction lines as [|l lines IH]; intros said; cbn [promptLoop].
  - split.
    + intros E. injection E as <-. reflexivity.
    + destruct said; [reflexivity | discriminate].
  - unfold askQuestion. cbn [map]. destruct (body (trim l)) as [w | c] eqn:B.
    + split; [discriminate|]. destruct said; discriminate.
    + destruct (promptLoop body lines) as [said' r] eqn:P. split.
      * intros E. injection E as <- ->.
        rewrite (proj1 (IH said') eq_refl). reflexivity.
      * destruct said as [|c' said]; [discriminate|]. cbn [map].
        intros M. injection M as <- M.
        apply IH in M. injection M as -> ->. reflexivity.
Qed.

(** A prompt returns the value of the first line it accepts, after one
    complaint about each line before it, and leaves the later lines
    unread; as long as no line is accepted it keeps asking, with one
    complaint per line.  This is how [promptSymbol],
    [promptTargetPrice], [promptDirection] and [promptInterval] read the
    terminal. *)
Theorem prompt_returns_first_accepted_answer
        {A} (body : str -> result Complaint A) (lines : list str) :
  (forall said v rest,
      promptLoop body lines = (said, Some (v, rest)) <->
      exists refused answer,
        lines = refused ++ answer :: rest
        /\ body (trim answer) = Ok v
        /\ map (fun line => body (trim line)) refused = map Err said)
  /\ (forall said,
         promptLoop body lines = (said, None) <->
         map (fun line => body (trim line)) lines = map Err said).
Proof.
  split.
  - intros said v rest. apply promptLoop_returns.
  - intros said. apply promptLoop_waits.
Qed.

Lemma prompt_returns_first_accepted_answer_witness :
  promptSymbol Session.typed
  = ([SymbolIsEmpty],
     Some (lit "aapl.us", [lit "abc"; lit "150"; lit "Above"; []])).
Proof.
  apply (proj1 (prompt_returns_first_accepted_answer _ Session.typed)).
  exists [[]], (lit " aapl.us "). repeat split.
Defined.

(** What each prompt hands to [main]. *)
Lemma promptSymbol_value lines said symbol rest :
  promptSymbol lines = (said, Some (symbol, rest)) ->
  trim symbol = symbol /\ symbol <> [].
Proof.
  intros H. apply promptLoop_returns in H.
  destruct H as (refused & answer & _ & B & _).
  unfold throwIf, bind in B.
  destruct (trim answer) as [|c r] eqn:T; [discriminate|].
  injection B as <-. split; [|discriminate].
  rewrite <- T. apply trim_idempotent.
Qed.

Lemma promptTargetPrice_value lines said target rest :
  promptTargetPrice lines = (said, Some (target, rest)) ->
  gt target zero = true.
Proof.
  intros H. apply promptLoop_returns in H.
  destruct H as (refused & answer & _ & B & _).
  unfold throwIf, bind in B.
  destruct (isNaN (parseFloat (trim answer))) eqn:N; [discriminate|].
  destruct (le (parseFloat (trim answer)) zero) eqn:L; [discriminate|].
  injection B as <-. apply gt_zero_checks; assumption.
Qed.

Lemma promptInterval_value lines said interval rest :
  promptInterval lines = (said, Some (interval, rest)) ->
  gt interval zero = true /\ scaled interval.
Proof.
  intros H. apply promptLoop_returns in H.
  destruct H as (refused & answer & _ & B & _).
  destruct (length (trim answer) =? 0)%nat.
  - injection B as <-. split; [reflexivity | vm_compute; discriminate].
  - unfold throwIf, bind in B.
    destruct (isNaN (parseFloat (trim answer))) eqn:N; [discriminate|].
    destruct (le (parseFloat (trim answer)) zero) eqn:L; [discriminate|].
    injection B as <-. split; [apply gt_zero_checks; assumption|].
    apply parseFloat_scaled.
Qed.

Lemma andThen_returns {A B} (p : Prompt A) (k : A -> Prompt B)
      lines said v rest :
  andThen p k lines = (said, Some (v, rest)) ->
  exists said1 a rest1 said2,
    p lines = (said1, Some (a, rest1))
    /\ k a rest1 = (said2, Some (v, rest)).
Proof.
  unfold andThen. destruct (p lines) as [said1 [[a rest1]|]]; [|discriminate].
  destruct (k a rest1) as [said2 r] eqn:K. intros E. injection E as <- ->.
  exists said1, a, rest1, said2. auto.
Qed.

Section Words.

Variable toLowerCase : str -> str.

Lemma configure_inv lines said config rest :
  configure toLowerCase lines = (said, Some (config, rest)) ->
  trim (symbol config) = symbol config /\ symbol config <> []
  /\ gt (target config) zero = true
  /\ gt (intervalMs config) zero = true.
Proof.
  unfold configure. intros H.
  apply andThen_returns in H. destruct H as (s1 & sym & r1 & s1' & P1 & H).
  apply andThen_returns in H. destruct H as (s2 & tgt & r2 & s2' & P2 & H).
  apply andThen_returns in H. destruct H as (s3 & dir & r3 & s3' & P3 & H).
  apply andThen_returns in H. destruct H as (s4 & secs & r4 & s4' & P4 & H).
  injection H as _ <- _.
  destruct (promptSymbol_value _ _ _ _ P1) as [T N].
  destruct (promptInterval_value _ _ _ _ P4) as [G S].
  cbn [symbol target intervalMs].
  split; [exact T|]. split; [exact N|].
  split; [exact (promptTargetPrice_value _ _ _ _ P2)|].
  apply times_1000_positive; assumption.
Qed.

Lemma configure_valid lines said config rest :
  configure toLowerCase lines = (said, Some (config, rest)) ->
  validate config = Ok tt.
Proof.
  intros H. destruct (configure_inv _ _ _ _ H) as (_ & _ & T & I).
  unfold validate, throwIf, bind.
  rewrite (proj2 (gt_zero_passes _ I)), (proj2 (gt_zero_passes _ T)).
  reflexivity.
Qed.

Lemma pollLoop_errors config outcomes e :
  In (LogError e) (fst (pollLoop config outcomes)) -> In (Err e) outcomes.
Proof.
  induction outcomes as [|o rest IH]; [intros []|].
  cbn [pollLoop]. destruct o as [quote | err]; cbn [pollCycle].
  - destruct (thresholdCrossed _ _ _).
    + intros [F | [F | [F | [F | []]]]]; discriminate F.
    + destruct (pollLoop config rest) as [events final]. cbn [fst app].
      intros [F | [F | [F | H]]]; try discriminate F.
      right. exact (IH H).
  - destruct (pollLoop config rest) as [events final]. cbn [fst app].
    intros [F | [F | [F | [F | H]]]]; try discriminate F.
    + injection F as ->. left. reflexivity.
    + right. exact (IH H).
Qed.

End Words.

(** A configuration built from the prompts always passes the
    validation of [runAlert]: its symbol is trimmed and not empty, and
    its target and its interval in milliseconds are above zero, so
    neither is NaN. *)
Theorem cli_config_is_valid
        (toLowerCase : str -> str) (lines : list str)
        (said : list Complaint) (config : AlertConfig) (rest : list str) :
  configure toLowerCase lines = (said, Some (config, rest)) ->
  validate config = Ok tt
  /\ trim (symbol config) = symbol config /\ symbol config <> []
  /\ gt (target config) zero = true
  /\ gt (intervalMs config) zero = true.
Proof.
  intros H. split; [exact (configure_valid _ _ _ _ _ H)|].
  exact (configure_inv _ _ _ _ _ H).
Qed.

Lemma cli_config_is_valid_witness :
  let config := mkConfig (lit "aapl.us") (ofZ 150) above (ofZ 10000) in
  validate config = Ok tt
  /\ trim (symbol config) = symbol config /\ symbol config <> []
  /\ gt (target config) zero = true
  /\ gt (intervalMs config) zero = true.
Proof.
  apply (cli_config_is_valid Session.lowerAscii Session.typed
           [SymbolIsEmpty; PriceIsNoNumber] _ []).
  vm_compute. reflexivity.
Defined.

(** The command line never takes its error exit: whatever is typed and
    whatever the network answers, [main] does not end with exit code 1,
    and [fetchQuote] never fails there with "Symbol cannot be empty". *)
Theorem cli_never_exits_with_error
        (toLowerCase : str -> str)
        (lines : list str) (stimuli : list Stimulus) :
  process (main toLowerCase lines stimuli) <> Exited 1
  /\ ~ In (LogError EmptySymbol) (events (main toLowerCase lines stimuli)).
Proof.
  unfold main.
  destruct (configure toLowerCase lines) as [said [[config rest]|]] eqn:C;
    [|split; [discriminate | intros []]].
  destruct (untilQuit toLowerCase stimuli) as [answers quit].
  pose proof (configure_valid _ _ _ _ _ C) as V.
  destruct (configure_inv _ _ _ _ _ C) as (T & N & _).
  unfold runAlertOverNetwork, runAlert. rewrite V.
  destruct (pollLoop config (map (fetchQuote (symbol config)) answers))
    as [evs final] eqn:P.
  assert (Q : ~ In (LogError EmptySymbol) (LogStart config :: evs)).
  { intros [F | F]; [discriminate F|].
    assert (F' : In (LogError EmptySymbol)
                    (fst (pollLoop config
                            (map (fetchQuote (symbol config)) answers))))
      by (rewrite P; exact F).
    apply pollLoop_errors in F'. apply in_map_iff in F'.
    destruct F' as (net & F' & _). revert F'.
    unfold fetchQuote, throwIf, bind.
    rewrite ParserFacts.emptyTest, T.
    destruct (symbol config); [contradiction|]. simpl isEmpty. cbv iota.
    destruct net as [response|]; [|discriminate].
    destruct (negb (ok response)); [discriminate|].
    destruct (parseQuote (text response)); discriminate. }
  destruct final; [destruct quit|]; cbn [process events]; split;
    try discriminate; exact Q.
Qed.

End CliFacts.

(** ** The page *)

Module PageFacts.
Import Js Num Arith Page JsFacts NumFacts RoundingFacts.

(** *** Polls and intervals *)

Lemma orTen_positive (x : number) :
  scaled x -> le (orTen x) zero = false ->
  gt (orTen x) zero = true /\ scaled (orTen x).
Proof.
  intros S L.
  destruct x as [s|[|]| |[|] m e]; try discriminate L;
    (split; [reflexivity|]); try exact S; vm_compute; discriminate.
Qed.

Lemma without_Forall {A} (P : A -> Prop) (k : nat) :
  forall l, Forall P l -> Forall P (without k l).
Proof.
  induction k as [|k IH]; intros [|x l] H; simpl; try constructor.
  - inversion H; assumption.
  - inversion H; assumption.
  - apply IH. inversion H; assumption.
Qed.

Lemma steady_withView (f : View -> View) (p : Page) :
  (forall v, startDisabled (f v) = startDisabled v) ->
  steady p -> steady (withView f p).
Proof.
  intros Hf (T & F & P). unfold steady, withView. cbn [pollingIntervalId
    timers pending view]. split; [|split; assumption].
  destruct (pollingIntervalId p) as [id|]; [|exact T].
  destruct T as (t & Et & Ei & D). exists t. rewrite Hf. auto.
Qed.

Lemma steady_poll (w : Watch) (p : Page) :
  sound w -> steady p -> steady (poll w p).
Proof.
  intros W H. unfold poll.
  destruct (negb (isActive w)); [exact H|].
  destruct (Uri.encodeURIComponent (symbol w)).
  - destruct H as (T & F & P). unfold steady.
    cbn [pollingIntervalId timers pending view].
    split; [exact T|]. split; [exact F|].
    apply Forall_app. split; [exact P|]. constructor; [exact W | constructor].
  - apply steady_withView; [reflexivity | exact H].
Qed.

Lemma steady_stopPolling (p : Page) : steady p -> steady (stopPolling p).
Proof.
  intros (T & F & P). unfold stopPolling, steady, withView, clearInterval.
  destruct (pollingIntervalId p) as [id|] eqn:Id;
    cbn [pollingIntervalId timers pending view].
  - destruct T as (t & -> & <- & _). cbn [filter].
    rewrite Nat.eqb_refl. cbn [negb]. auto.
  - rewrite Id, T. auto.
Qed.

Lemma steady_resume (w : Watch) (reply : option Server.Reply) (p : Page) :
  steady p -> steady (resume w reply p).
Proof.
  intros H. unfold resume.
  destruct reply as [r|]; [|apply steady_withView; [reflexivity | exact H]].
  destruct (negb (isOk (Server.status r)));
    [apply steady_withView; [reflexivity | exact H]|].
  destruct (Server.body r) as [sym date time close| |];
    try (apply steady_withView; [reflexivity | exact H]).
  destruct (thresholdCrossed (direction w) close (target w));
    [|apply steady_withView; [reflexivity | exact H]].
  destruct close as [currentPrice|].
  - apply steady_stopPolling.
    apply steady_withView; [reflexivity|].
    apply steady_withView; [reflexivity | exact H].
  - apply steady_withView; [reflexivity|].
    apply steady_withView; [reflexivity | exact H].
Qed.

Lemma steady_say (d : Dialog) (p : Page) : steady p -> steady (say d p).
Proof. intros H. exact H. Qed.

Lemma steady_startPolling (p : Page) :
  startDisabled (view p) = false -> steady p -> steady (startPolling p).
Proof.
  intros D H. unfold startPolling.
  destruct (isEmpty (trim (symbolInput (inputs p)))) eqn:E;
    [exact H|].
  destruct (isNaN (parseFloat (targetInput (inputs p)))) eqn:N;
    [exact H|].
  destruct (le (parseFloat (targetInput (inputs p))) zero) eqn:L;
    [exact H|].
  cbn [orb].
  destruct (le (orTen (parseFloat (intervalInput (inputs p)))) zero) eqn:I;
    [exact H|].
  destruct (orTen_positive _ (parseFloat_scaled _) I) as [G S].
  pose proof (times_1000_positive _ S G) as M.
  assert (W : sound (mkWatch (trim (symbolInput (inputs p)))
                             (parseFloat (targetInput (inputs p)))
                             (directionSelect (inputs p)) true)).
  { unfold sound. cbn [symbol target isActive].
    split; [apply trim_idempotent|].
    split; [intros Q; rewrite Q in E; discriminate E|].
    split; [apply gt_zero_checks; assumption | reflexivity]. }
  destruct H as (T & F & P).
  destruct (pollingIntervalId p) as [id|] eqn:Id.
  { destruct T as (t & _ & _ & D'). congruence. }
  unfold poll. cbn [isActive symbol negb].
  destruct (Uri.encodeURIComponent (trim (symbolInput (inputs p))));
    unfold steady, setInterval, withView;
    cbn [pollingIntervalId timers pending view startDisabled setButtons
         updateUI];
    rewrite T; cbn [app].
  - split; [eexists; split; [reflexivity|]; split; reflexivity|].
    split; [constructor; [split; assumption | constructor]|].
    apply Forall_app. split; [exact P|]. constructor; [exact W | constructor].
  - split; [eexists; split; [reflexivity|]; split; reflexivity|].
    split; [constructor; [split; assumption | constructor]|]. exact P.
Qed.

Lemma steady_step (p : Page) (s : Stimulus) : steady p -> steady (step p s).
Proof.
  intros H. destruct s as [field value| | |id|k reply]; cbn [step].
  - exact H.
  - destruct (startDisabled (view p)) eqn:D; [exact H|].
    apply steady_startPolling; assumption.
  - destruct (stopDisabled (view p)); [exact H|].
    apply steady_stopPolling; exact H.
  - destruct (find _ (timers p)) as [t|] eqn:Ft; [|exact H].
    apply steady_poll; [|exact H].
    apply find_some in Ft. destruct Ft as [Ft _].
    destruct H as (_ & F & _). rewrite Forall_forall in F.
    exact (proj1 (F t Ft)).
  - destruct (nth_error (pending p) k) as [w|] eqn:Nw; [|exact H].
    apply steady_resume.
    destruct H as (T & F & P). unfold steady.
    cbn [pollingIntervalId timers pending view].
    split; [exact T|]. split; [exact F|]. apply without_Forall. exact P.
Qed.

Lemma steady_run (stimuli : list Stimulus) :
  forall p, steady p -> steady (run p stimuli).
Proof.
  induction stimuli as [|s rest IH]; intros p H; [exact H|].
  apply IH. apply steady_step. exact H.
Qed.

Lemma loaded_steady (p : Page) : loaded p -> steady p.
Proof.
  intros (I & T & P). unfold steady. rewrite I, T, P. auto.
Qed.

(** The page never polls twice over: whatever is clicked, typed and
    answered, at most one interval is set, it is the one a click on
    Stop clears, and while it is set the start button is disabled. *)
Theorem page_sets_one_interval_at_most
        (p : Page) (stimuli : list Stimulus) :
  loaded p ->
  (length (timers (run p stimuli)) <= 1)%nat
  /\ map timerId (timers (run p stimuli))
     = match pollingIntervalId (run p stimuli) with
       | Some id => [id]
       | None => []
       end
  /\ (timers (run p stimuli) <> [] ->
      startDisabled (view (run p stimuli)) = true)
  /\ timers (stopPolling (run p stimuli)) = [].
Proof.
  intros L.
  pose proof (steady_run stimuli p (loaded_steady p L)) as H.
  pose proof (steady_stopPolling _ H) as Hs.
  destruct H as (T & _), Hs as (Ts & _).
  assert (Es : timers (stopPolling (run p stimuli)) = []).
  { revert Ts. unfold stopPolling.
    destruct (pollingIntervalId (run p stimuli)); cbn; auto. }
  destruct (pollingIntervalId (run p stimuli)) as [id|].
  - destruct T as (t & -> & <- & D). cbn. auto.
  - rewrite T. cbn. split; [lia|]. split; [reflexivity|].
    split; [intros Q; contradiction | assumption].
Qed.

Lemma page_sets_one_interval_at_most_witness :
  (length (timers (run Session.page Session.clicks)) <= 1)%nat
  /\ map timerId (timers (run Session.page Session.clicks))
     = match pollingIntervalId (run Session.page Session.clicks) with
       | Some id => [id]
       | None => []
       end
  /\ (timers (run Session.page Session.clicks) <> [] ->
      startDisabled (view (run Session.page Session.clicks)) = true)
  /\ timers (stopPolling (run Session.page Session.clicks)) = [].
Proof.
  apply (page_sets_one_interval_at_most Session.page Session.clicks).
  repeat split; reflexivity.
Defined.

(** Every poll of the page, whether its interval is set or its request
    is out, watches a symbol that is trimmed and not empty for a target
    above zero, with its guard open; and every interval has a delay
    above zero. *)
Theorem page_polls_are_sound (p : Page) (stimuli : list Stimulus) :
  loaded p ->
  (forall t, In t (timers (run p stimuli)) ->
             sound (callback t) /\ gt (delay t) zero = true)
  /\ (forall w, In w (pending (run p stimuli)) -> sound w).
Proof.
  intros L.
  destruct (steady_run stimuli p (loaded_steady p L)) as (_ & F & P).
  rewrite Forall_forall in F, P. auto.
Qed.

Lemma page_polls_are_sound_witness :
  (forall t, In t (timers (run Session.page [ClickStart; Tick 1])) ->
             sound (callback t) /\ gt (delay t) zero = true)
  /\ (forall w, In w (pending (run Session.page [ClickStart; Tick 1])) ->
                sound w).
Proof.
  apply (page_polls_are_sound Session.page [ClickStart; Tick 1]).
  repeat split; reflexivity.
Defined.

(** *** The alert *)

Lemma silent_updateUI price status (v : View) :
  status <> AlertTriggered -> silent v -> silent (updateUI price status v).
Proof.
  intros S (A & _ & C). unfold silent. cbn. auto.
Qed.

Lemma silent_hideAlert (v : View) :
  statusText v <> AlertTriggered -> silent (hideAlert v).
Proof.
  intros S. unfold silent. cbn. split; [reflexivity|].
  split; [exact S | discriminate].
Qed.

Lemma silent_stopPolling (p : Page) : silent (view (stopPolling p)).
Proof.
  unfold stopPolling, withView, clearInterval, silent.
  destruct (pollingIntervalId p); cbn;
    (split; [reflexivity|]; split; discriminate).
Qed.

Lemma silent_poll (w : Watch) (p : Page) :
  silent (view p) -> silent (view (poll w p)).
Proof.
  intros H. unfold poll. destruct (negb (isActive w)); [exact H|].
  destruct (Uri.encodeURIComponent (symbol w)); [exact H|].
  apply silent_updateUI; [discriminate | exact H].
Qed.

Lemma silent_resume (w : Watch) (reply : option Server.Reply) (p : Page) :
  silent (view p) -> silent (view (resume w reply p)).
Proof.
  intros H. unfold resume.
  destruct reply as [r|];
    [|apply silent_updateUI; [discriminate | exact H]].
  destruct (negb (isOk (Server.status r)));
    [apply silent_updateUI; [discriminate | exact H]|].
  destruct (Server.body r) as [sym date time close| |];
    try (apply silent_updateUI; [discriminate | exact H]).
  destruct (thresholdCrossed (direction w) close (target w));
    [|apply silent_updateUI; [discriminate | exact H]].
  destruct close as [currentPrice|].
  - apply silent_stopPolling.
  - apply silent_updateUI; [discriminate|].
    apply silent_updateUI; [discriminate | exact H].
Qed.

Lemma silent_startPolling (p : Page) :
  silent (view p) -> silent (view (startPolling p)).
Proof.
  intros H. unfold startPolling.
  destruct (isEmpty _); [exact H|].
  destruct (_ || _); [exact H|].
  destruct (le _ zero); [exact H|].
  unfold poll. cbn [isActive negb].
  destruct (Uri.encodeURIComponent _); unfold silent; cbn;
    (split; [reflexivity|]; split; discriminate).
Qed.

Lemma silent_step (p : Page) (s : Stimulus) :
  silent (view p) -> silent (view (step p s)).
Proof.
  intros H. destruct s as [field value| | |id|k reply]; cbn [step].
  - exact H.
  - destruct (startDisabled (view p)); [exact H|].
    apply silent_startPolling; exact H.
  - destruct (stopDisabled (view p)); [exact H|]. apply silent_stopPolling.
  - destruct (find _ (timers p)); [|exact H]. apply silent_poll; exact H.
  - destruct (nth_error (pending p) k); [|exact H].
    apply silent_resume. exact H.
Qed.

(** The page never displays its alert: if the page as loaded shows no
    alert, then whatever is clicked, typed and answered, the alert
    element stays hidden and without a message and the status never
    reads "Alert triggered!".  A crossing shows the alert and hides it
    again in the same turn. *)
Theorem page_never_displays_the_alert
        (p : Page) (stimuli : list Stimulus) :
  silent (view p) -> silent (view (run p stimuli)).
Proof.
  revert p. induction stimuli as [|s rest IH]; intros p H; [exact H|].
  apply IH. apply silent_step. exact H.
Qed.

Lemma page_never_displays_the_alert_witness :
  silent (view (run Session.page Session.clicks)).
Proof.
  apply (page_never_displays_the_alert Session.page Session.clicks).
  split; [reflexivity|]. split; discriminate.
Defined.

(** A response whose price crosses the threshold has exactly the
    effect of a click on Stop: the interval is cleared, the status
    reads "Stopped", the price and the alert are blank. *)
Theorem crossing_response_acts_as_stop
        (w : Watch) (p : Page) (sym date time : str) (currentPrice : number) :
  thresholdCrossed (direction w) (Some currentPrice) (target w) = true ->
  resume w (Some (Server.mkReply 200
                    (Server.QuoteJson sym date time (Some currentPrice)))) p
  = stopPolling p.
Proof.
  intros C. unfold resume. cbn [Server.status Server.body isOk negb].
  change (negb (isOk 200)) with false. cbv iota. rewrite C.
  unfold stopPolling, withView, clearInterval.
  cbn [pollingIntervalId inputs view timers nextId pending dialogs].
  destruct (pollingIntervalId p) eqn:Id;
    cbn [pollingIntervalId inputs view timers nextId pending dialogs];
    rewrite ?Id; reflexivity.
Qed.

Lemma crossing_response_acts_as_stop_witness :
  resume (mkWatch (lit "aapl.us") (ofZ 150) (lit "above") true)
         (Some (Server.mkReply 200
                  (Server.QuoteJson (lit "AAPL.US") (lit "2024-01-02")
                                    (lit "16:00:00")
                                    (Some Scenario.n185_64))))
         (run Session.page [ClickStart])
  = stopPolling (run Session.page [ClickStart]).
Proof.
  apply crossing_response_acts_as_stop. reflexivity.
Defined.

(** From Stooq to the page: a price that a response puts on the page
    is the close that [fetchQuote] parsed from the body Stooq sent to
    the relay, and it is finite. *)
Theorem displayed_price_is_parsed_close
        (w : Watch) (p : Page) (symbol : Server.QueryValue)
        (net : option Stooq.Response) (x : number) :
  priceText (view (resume w (Some (Server.handleQuote symbol net)) p))
  = Price x ->
  exists response quote,
    net = Some response
    /\ Stooq.parseQuote (Stooq.text response) = Ok quote
    /\ Server.jsonNumber (Stooq.close quote) = Some x
    /\ finite x = true.
Proof.
  intros After. unfold resume in After.
  destruct (negb (isOk (Server.status (Server.handleQuote symbol net))));
    [discriminate After|].
  destruct (Server.body (Server.handleQuote symbol net))
    as [sym date time close| |] eqn:B; try discriminate After.
  assert (C : close = Some x).
  { destruct (thresholdCrossed (direction w) close (target w)).
    - destruct close as [c|]; [|discriminate After].
      exfalso. revert After. unfold stopPolling, withView.
      destruct (pollingIntervalId _); discriminate.
    - destruct close as [c|]; [|discriminate After].
      cbn in After. injection After as ->. reflexivity. }
  subst close. clear After.
  destruct symbol as [|s|]; cbn [Server.handleQuote] in B;
    try discriminate B.
  destruct (isEmpty s || (length (trim s) =? 0)%nat); [discriminate B|].
  destruct (Stooq.fetchQuote (trim s) net) as [quote|e] eqn:F;
    [|discriminate B].
  cbn [Server.body] in B. injection B as _ _ _ J.
  destruct (ServerFacts.fetchQuote_inv _ _ _ F)
    as (_ & response & -> & _ & P).
  exists response, quote. split; [reflexivity|]. split; [exact P|].
  split; [exact J|].
  revert J. unfold Server.jsonNumber.
  destruct (Stooq.close quote); intros J; try discriminate J;
    injection J as <-; reflexivity.
Qed.

Lemma displayed_price_is_parsed_close_witness :
  exists response quote,
    Some (Stooq.mkResponse true 200 Scenario.apple) = Some response
    /\ Stooq.parseQuote (Stooq.text response) = Ok quote
    /\ Server.jsonNumber (Stooq.close quote) = Some Scenario.n185_64
    /\ finite Scenario.n185_64 = true.
Proof.
  apply (displayed_price_is_parsed_close
           (mkWatch (lit "aapl.us") (ofZ 200) (lit "above") true)
           Session.page (Server.Text (lit "aapl.us"))).
  reflexivity.
Defined.

(** A click on Stop does not withdraw a request that is out: when its
    response arrives, with a price that does not cross the threshold,
    the page shows that price and reads "Polling..." although no
    interval is set any more. *)
Theorem response_after_stop_is_shown
        (p : Page) (stimuli : list Stimulus) (k : nat) (w : Watch)
        (sym date time : str) (currentPrice : number) :
  loaded p ->
  stopDisabled (view (run p stimuli)) = false ->
  nth_error (pending (run p stimuli)) k = Some w ->
  thresholdCrossed (direction w) (Some currentPrice) (target w) = false ->
  let response :=
    Some (Server.mkReply 200
            (Server.QuoteJson sym date time (Some currentPrice))) in
  let q := step (step (run p stimuli) ClickStop) (Settle k response) in
  timers q = [] /\ pollingIntervalId q = None
  /\ statusText (view q) = Polling date time
  /\ priceText (view q) = Price currentPrice.
Proof.
  intros L D N C response q.
  pose proof (steady_step _ ClickStop
                (steady_run stimuli p (loaded_steady p L))) as H.
  assert (Q : q = resume w response
                    (let s := stopPolling (run p stimuli) in
                     mkPage (inputs s) (view s) (pollingIntervalId s)
                            (timers s) (nextId s) (without k (pending s))
                            (dialogs s))).
  { unfold q. cbn [step]. rewrite D.
    assert (E : pending (stopPolling (run p stimuli))
                = pending (run p stimuli)).
    { unfold stopPolling, withView, clearInterval.
      destruct (pollingIntervalId (run p stimuli)); reflexivity. }
    cbn [step]. rewrite E, N. reflexivity. }
  assert (I : pollingIntervalId (stopPolling (run p stimuli)) = None).
  { unfold stopPolling, withView, clearInterval.
    destruct (pollingIntervalId (run p stimuli)) eqn:Id; cbn; auto. }
  cbn [step] in H. rewrite D in H. destruct H as (T & _).
  rewrite I in T.
  rewrite Q. unfold resume, response.
  cbn [Server.status Server.body].
  change (negb (isOk 200)) with false. cbv iota. rewrite C.
  unfold withView. cbn. auto.
Qed.

Lemma response_after_stop_is_shown_witness :
  let response :=
    Some (Server.mkReply 200
            (Server.QuoteJson (lit "AAPL.US") (lit "2024-01-02")
                              (lit "16:00:00") (Some (ofZ 100)))) in
  let q := step (step (run Session.page [ClickStart]) ClickStop)
                (Settle 0 response) in
  timers q = [] /\ pollingIntervalId q = None
  /\ statusText (view q) = Polling (lit "2024-01-02") (lit "16:00:00")
  /\ priceText (view q) = Price (ofZ 100).
Proof.
  apply (response_after_stop_is_shown
           Session.page [ClickStart] 0
           (mkWatch (lit "aapl.us") (ofZ 150) (lit "above") true)).
  - repeat split; reflexivity.
  - reflexivity.
  - reflexivity.
  - reflexivity.
Defined.

End PageFacts.
